(** * Diagnostics-and-repair pipeline (backend/traceback.js)

    A shallow embedding of [TracebackSystem] and the properties its
    specification states about it.

    Conventions of the model.
    - A JavaScript string is a list of code units; the model covers the
      code units 0..255 ([ascii]).  Whitespace, line terminators and
      case mapping are those of ECMAScript restricted to that range.
    - The file system is a finite map from paths to text contents
      (files read and written as utf8 text); directories are not
      entries of the map.
    - [path] is Node's POSIX path module.
    - External processes and the inference service are functions given
      as parameters (their answers are not under the program's control). *)

From stdpp Require Import gmap strings list fin_maps.
From Stdlib Require Import ZArith Ascii DecimalString.
From Stdlib Require String.

Local Open Scope Z_scope.
Local Open Scope list_scope.

(** ** Strings *)

Abbreviation str := (list ascii).

(** A literal of the source, written as a Rocq string. *)
Definition lit (s : string) : str := String.list_ascii_of_string s.

Definition chr (n : nat) : ascii := ascii_of_nat n.
Definition NL : ascii := chr 10.
Definition CR : ascii := chr 13.
Definition DQ : ascii := chr 34.

Definition code_of (c : ascii) : nat := nat_of_ascii c.

(** ECMAScript WhiteSpace and LineTerminator code units below 256:
    TAB, LF, VT, FF, CR, SP, NBSP. *)
Definition is_space (c : ascii) : bool :=
  let n := code_of c in
  ((9 <=? n) && (n <=? 13) || (n =? 32) || (n =? 160))%nat.

(** LineTerminator code units below 256: LF, CR. *)
Definition is_line_terminator (c : ascii) : bool :=
  let n := code_of c in ((n =? 10) || (n =? 13))%nat.

Definition is_digit (c : ascii) : bool :=
  let n := code_of c in ((48 <=? n) && (n <=? 57))%nat.

Definition is_upper (c : ascii) : bool :=
  let n := code_of c in ((65 <=? n) && (n <=? 90))%nat.

Definition is_lower (c : ascii) : bool :=
  let n := code_of c in ((97 <=? n) && (n <=? 122))%nat.

(** [\w] *)
Definition is_word (c : ascii) : bool :=
  is_upper c || is_lower c || is_digit c || Ascii.eqb c "_".

(** [String.prototype.toLowerCase] on one code unit below 256: A-Z and
    the Latin-1 capitals 0xC0..0xDE (0xD7 excepted) move up by 32. *)
Definition lower_char (c : ascii) : ascii :=
  let n := code_of c in
  if (is_upper c || ((192 <=? n) && (n <=? 222) && negb (n =? 215)))%nat
  then chr (n + 32) else c.

Definition toLowerCase (s : str) : str := map lower_char s.

Fixpoint trimStart (s : str) : str :=
  match s with
  | c :: s' => if is_space c then trimStart s' else s
  | [] => []
  end.

Definition trimEnd (s : str) : str := rev (trimStart (rev s)).

Definition trim (s : str) : str := trimEnd (trimStart s).

Fixpoint startsWith (s p : str) : bool :=
  match p, s with
  | [], _ => true
  | a :: p', b :: s' => Ascii.eqb a b && startsWith s' p'
  | _ :: _, [] => false
  end.

Definition endsWith (s p : str) : bool := startsWith (rev s) (rev p).

Fixpoint includes (s sub : str) : bool :=
  startsWith s sub ||
  match s with
  | [] => false
  | _ :: s' => includes s' sub
  end.

(** [s.split(sep)] for a one-character separator. *)
Fixpoint split (sep : ascii) (s : str) : list str :=
  match s with
  | [] => [[]]
  | c :: s' =>
      if Ascii.eqb c sep then [] :: split sep s'
      else match split sep s' with
           | l :: ls => (c :: l) :: ls
           | [] => [[c]]
           end
  end.

(** [ls.join(sep)] *)
Fixpoint join (sep : str) (ls : list str) : str :=
  match ls with
  | [] => []
  | l :: ls' =>
      match ls' with
      | [] => l
      | _ :: _ => l ++ sep ++ join sep ls'
      end
  end.

(** A JavaScript string is falsy exactly when it is empty. *)
Definition truthy (s : str) : bool :=
  match s with [] => false | _ :: _ => true end.

(** Number-to-string conversion of an integer, as in a template literal. *)
Definition String_of_Z (z : Z) : str :=
  lit (NilZero.string_of_int (Z.to_int z)).

(** ** Node's POSIX [path] module *)

Module path.

Definition is_sep (c : ascii) : bool := Ascii.eqb c "/".

Fixpoint drop_seps (s : str) : str :=
  match s with
  | c :: s' => if is_sep c then drop_seps s' else s
  | [] => []
  end.

Fixpoint take_segment (s : str) : str :=
  match s with
  | c :: s' => if is_sep c then [] else c :: take_segment s'
  | [] => []
  end.

(** The last portion of a path; trailing separators are ignored. *)
Definition basename (p : str) : str :=
  rev (take_segment (drop_seps (rev p))).

(** The directory part of a path: everything before the separator that
    precedes the last segment; the scan never looks at the first character. *)
Definition dirname (p : str) : str :=
  match p with
  | [] => lit "."
  | c0 :: tail =>
      let hasRoot := is_sep c0 in
      let body := drop_seps (rev tail) in
      match drop (length (take_segment body)) body with
      | [] => if hasRoot then lit "/" else lit "."
      | _ :: before =>
          match before with
          | [] => if hasRoot then lit "//" else [c0]
          | _ :: _ => c0 :: rev before
          end
      end
  end.

(** One step of [normalizeString]: the stack of kept segments is held
    innermost-first. *)
Definition push_segment (allowAboveRoot : bool) (stack : list str) (seg : str)
  : list str :=
  if bool_decide (seg = []) || bool_decide (seg = lit ".") then stack
  else if bool_decide (seg = lit "..") then
    match stack with
    | top :: below =>
        if bool_decide (top = lit "..") then seg :: stack else below
    | [] => if allowAboveRoot then [seg] else []
    end
  else seg :: stack.

Definition normalizeString (p : str) (allowAboveRoot : bool) : str :=
  join (lit "/")
    (rev (fold_left (push_segment allowAboveRoot) (split "/" p) [])).

Definition normalize (p : str) : str :=
  match p with
  | [] => lit "."
  | c :: _ =>
      let isAbsolute := is_sep c in
      let trailingSeparator := endsWith p (lit "/") in
      let q := normalizeString p (negb isAbsolute) in
      match q with
      | [] =>
          if isAbsolute then lit "/"
          else if trailingSeparator then lit "./" else lit "."
      | _ :: _ =>
          let q' := if trailingSeparator then q ++ lit "/" else q in
          if isAbsolute then lit "/" ++ q' else q'
      end
  end.

(** [path.join(a, b)] *)
Definition join (a b : str) : str :=
  match a, b with
  | [], [] => lit "."
  | [], _ => normalize b
  | _, [] => normalize a
  | _, _ => normalize (a ++ lit "/" ++ b)
  end.

End path.

(** ** The file system *)

Abbreviation Disk := (gmap (list ascii) (list ascii)).

Module fs.

Definition existsSync (disk : Disk) (p : str) : bool :=
  bool_decide (is_Some (disk !! p)).

(** [readFileSync(p, 'utf8')]; the callers test [existsSync] first. *)
Definition readFileSync (disk : Disk) (p : str) : str :=
  default [] (disk !! p).

Definition writeFileSync (p content : str) (disk : Disk) : Disk :=
  <[p := content]> disk.

Definition unlinkSync (p : str) (disk : Disk) : Disk := delete p disk.

End fs.

(** ** Data model *)

(** One detected problem.  [type] and [severity] are strings, as in the
    source; [code] is absent on the generic compiler issue. *)
Record Issue := mkIssue {
  file : str;
  line : Z;
  column : Z;
  message : str;
  type : str;
  code : option str;
  severity : str
}.

(** A proposed remedy; the confidence is kept in tenths (8 for 0.8). *)
Record Fix := mkFix {
  error : Issue;
  suggestion : str;
  confidence : nat
}.

(** The audit record of a write: the object [{file, line, old, new}]. *)
Record AppliedFix := mkApplied {
  applied_file : str;
  applied_line : Z;
  applied_old : str;
  applied_new : str
}.

(** ** Patch applier *)

(** The [Map] of loaded files: keys in insertion order, each with the
    line array that the loop mutates in place. *)
Abbreviation FileMap := (list (list ascii * list (list ascii))).

Fixpoint map_get (m : FileMap) (k : str) : option (list str) :=
  match m with
  | [] => None
  | (k', v) :: m' => if bool_decide (k' = k) then Some v else map_get m' k
  end.

Definition map_has (m : FileMap) (k : str) : bool :=
  bool_decide (is_Some (map_get m k)).

(** [m.set(k, v)]: an existing key keeps its position. *)
Fixpoint map_set (m : FileMap) (k : str) (v : list str) : FileMap :=
  match m with
  | [] => [(k, v)]
  | (k', v') :: m' =>
      if bool_decide (k' = k) then (k, v) :: m'
      else (k', v') :: map_set m' k v
  end.

(** The body of the [for (const fix of fixes)] loop. *)
Definition applyFix (disk : Disk) (codeDir : str)
    (st : FileMap * list AppliedFix) (fix_ : Fix) : FileMap * list AppliedFix :=
  let '(fileMap, applied) := st in
  let error := error fix_ in
  let filePath := path.join codeDir (file error) in
  if negb (fs.existsSync disk filePath) then st
  else
    let fileMap :=
      if map_has fileMap filePath then fileMap
      else map_set fileMap filePath (split NL (fs.readFileSync disk filePath)) in
    let lines := default [] (map_get fileMap filePath) in
    let lineIdx := line error - 1 in
    if (0 <=? lineIdx) && (lineIdx <? Z.of_nat (length lines)) then
      let oldLine := default [] (lines !! Z.to_nat lineIdx) in
      (map_set fileMap filePath (<[Z.to_nat lineIdx := trim (suggestion fix_)]> lines),
       applied ++ [mkApplied (file error) (line error) oldLine
                             (trim (suggestion fix_))])
    else (fileMap, applied).

(** The write-back loop over [fileMap.entries()]. *)
Definition writeBack (fileMap : FileMap) (disk : Disk) : Disk :=
  fold_left (fun d '(filePath, lines) =>
               fs.writeFileSync filePath (join [NL] lines) d)
            fileMap disk.

(** [applyFixes(codeDir, fixes)]: the audit list and the disk afterwards. *)
Definition applyFixes (codeDir : str) (fixes : list Fix) (disk : Disk)
  : list AppliedFix * Disk :=
  let '(fileMap, applied) := fold_left (applyFix disk codeDir) fixes ([], []) in
  (applied, writeBack fileMap disk).

(** The line array a Fix is applied against: the lines of its file as
    they are on disk when [applyFixes] starts. *)
Definition loadedLines (disk : Disk) (codeDir : str) (e : Issue) : list str :=
  split NL (fs.readFileSync disk (path.join codeDir (file e))).

(** A Fix can be written: its file exists and its line is a slot of the
    loaded line array. *)
Definition applicable (disk : Disk) (codeDir : str) (e : Issue) : Prop :=
  fs.existsSync disk (path.join codeDir (file e)) = true /\
  0 <= line e - 1 < Z.of_nat (length (loadedLines disk codeDir e)).

(** What the loop maintains: every loaded array belongs to an existing
    file and has as many slots as that file has lines, and every audit
    record comes from an applicable Fix. *)
Definition applyInv (disk : Disk) (codeDir : str)
    (st : FileMap * list AppliedFix) : Prop :=
  (forall p lines, map_get st.1 p = Some lines ->
     fs.existsSync disk p = true /\
     length lines = length (split NL (fs.readFileSync disk p))) /\
  (forall a, a ∈ st.2 ->
     exists e, file e = applied_file a /\ line e = applied_line a /\
               applicable disk codeDir e).


(** ** Regular expressions

    The patterns of the source only repeat single-character classes, so
    a pattern is a sequence of atoms.  [rx_match] is the backtracking
    matcher of ECMAScript at one start position: alternatives are tried
    in order, a greedy repetition tries the longest run first and a lazy
    one the shortest.  It returns the text consumed by each atom, in
    order, and the text that follows the match. *)

Inductive atom :=
| Chr (c : ascii -> bool)                        (* one character of a class *)
| Alt (ws : list str)                            (* literal alternatives (w1|w2|...) *)
| Rep (c : ascii -> bool) (min : nat) (greedy : bool)   (* c*, c+, c*?, c+? *)
| Opt (c : ascii -> bool)                        (* c? *)
| Eol.                                           (* $ under the m flag *)

Abbreviation Lit w := (Alt [lit w]).

Definition any_char : ascii -> bool := fun _ => true.
Definition char_is (a : ascii) : ascii -> bool := fun x => Ascii.eqb x a.
Definition none_of (w : string) : ascii -> bool :=
  fun x => negb (existsb (Ascii.eqb x) (lit w)).
Definition one_of (w : string) : ascii -> bool :=
  fun x => existsb (Ascii.eqb x) (lit w).
Definition not_char (a : ascii) : ascii -> bool := fun x => negb (Ascii.eqb x a).
(** [.] *)
Definition dot : ascii -> bool := fun x => negb (is_line_terminator x).
(** A letter under the i flag. *)
Definition ci (a : ascii) : ascii -> bool :=
  fun x => Ascii.eqb (lower_char x) (lower_char a).

Definition at_eol (s : str) : bool :=
  match s with
  | [] => true
  | x :: _ => is_line_terminator x
  end.

Definition push (g : str) (r : option (list str * str)) : option (list str * str) :=
  match r with
  | Some (gs, rest) => Some (g :: gs, rest)
  | None => None
  end.

Definition orelse {A} (r : option A) (alt : unit -> option A) : option A :=
  match r with
  | Some x => Some x
  | None => alt tt
  end.

Section Atoms.

(** The matcher of the rest of the pattern. *)
Variable k : str -> option (list str * str).

Definition match_char (c : ascii -> bool) (s : str) : option (list str * str) :=
  match s with
  | x :: s' => if c x then push [x] (k s') else None
  | [] => None
  end.

Fixpoint match_alt (ws : list str) (s : str) : option (list str * str) :=
  match ws with
  | [] => None
  | w :: ws' =>
      orelse (if startsWith s w then push w (k (drop (length w) s)) else None)
             (fun _ => match_alt ws' s)
  end.

(** A repetition that has consumed [n] characters, [acc] in reverse. *)
Fixpoint match_rep (c : ascii -> bool) (min : nat) (greedy : bool)
    (n : nat) (acc : str) (s : str) {struct s} : option (list str * str) :=
  let stop := fun _ : unit =>
    if (min <=? n)%nat then push (rev acc) (k s) else None in
  let more := fun _ : unit =>
    match s with
    | x :: s' => if c x then match_rep c min greedy (S n) (x :: acc) s' else None
    | [] => None
    end in
  if greedy then orelse (more tt) stop else orelse (stop tt) more.

Definition match_opt (c : ascii -> bool) (s : str) : option (list str * str) :=
  orelse (match_char c s) (fun _ => push [] (k s)).

Definition match_eol (s : str) : option (list str * str) :=
  if at_eol s then push [] (k s) else None.

End Atoms.

Fixpoint rx_match (p : list atom) : str -> option (list str * str) :=
  match p with
  | [] => fun s => Some ([], s)
  | a :: p' =>
      let k := rx_match p' in
      match a with
      | Chr c => match_char k c
      | Alt ws => match_alt k ws
      | Rep c min greedy => match_rep k c min greedy 0%nat []
      | Opt c => match_opt k c
      | Eol => match_eol k
      end
  end.

(** [re.test(s)] for a pattern that starts with [^] (no m flag). *)
Definition rx_test_anchored (p : list atom) (s : str) : bool :=
  bool_decide (is_Some (rx_match p s)).

(** [re.test(s)]: is there a start position with a match? *)
Fixpoint rx_test (p : list atom) (s : str) : bool :=
  match rx_match p s with
  | Some _ => true
  | None =>
      match s with
      | [] => false
      | _ :: s' => rx_test p s'
      end
  end.

(** The successive matches of a pattern with the g flag, left to right
    and without overlap (an [exec] loop, [matchAll], [match]): one list
    of atom texts per match.  [skip] counts the characters of the last
    match that remain to be passed. *)
Fixpoint rx_scan (p : list atom) (s : str) (skip : nat) : list (list str) :=
  match skip with
  | S k =>
      match s with
      | [] => []
      | _ :: s' => rx_scan p s' k
      end
  | O =>
      match rx_match p s with
      | Some (gs, _) =>
          gs :: match s with
                | [] => []
                | _ :: s' => rx_scan p s' (pred (length (concat gs)))
                end
      | None =>
          match s with
          | [] => []
          | _ :: s' => rx_scan p s' 0%nat
          end
      end
  end.

(** [s.replace(re, '')] for a pattern with the g flag. *)
Fixpoint rx_remove_all (p : list atom) (s : str) (skip : nat) : str :=
  match s with
  | [] => []
  | x :: s' =>
      match skip with
      | S k => rx_remove_all p s' k
      | O =>
          match rx_match p s with
          | Some (gs, _) =>
              match length (concat gs) with
              | O => x :: rx_remove_all p s' 0%nat
              | S n => rx_remove_all p s' n
              end
          | None => x :: rx_remove_all p s' 0%nat
          end
      end
  end.

(** [s.replace(re, '')] for a pattern that starts with [^] and has no
    g flag: the match at the start, if any, is removed. *)
Definition rx_remove_prefix (p : list atom) (s : str) : str :=
  match rx_match p s with
  | Some (_, rest) => rest
  | None => s
  end.

(** [s.replace(re, '')] for a pattern without flags: the leftmost match,
    if any, is removed. *)
Fixpoint rx_remove_first (p : list atom) (s : str) : str :=
  match rx_match p s with
  | Some (_, rest) => rest
  | None =>
      match s with
      | [] => []
      | x :: s' => x :: rx_remove_first p s'
      end
  end.

(** ** Sanitization of model output *)

(** [/```[\s\S]*?```/g] *)
Definition fenceRegex : list atom :=
  [Lit "```"; Rep any_char 0 false; Lit "```"].

(** [/```[a-zA-Z0-9_]*/g] *)
Definition fenceOpenRegex : list atom := [Lit "```"; Rep is_word 0 true].

(** [/```/g] and [/^```/] *)
Definition fenceMarkRegex : list atom := [Lit "```"].

(** [/^Note[: ]/i] *)
Definition noteRegex : list atom :=
  [Chr (ci "N"); Chr (ci "o"); Chr (ci "t"); Chr (ci "e"); Chr (one_of ": ")].

(** [/^\/\/\s*Note[: ]/i] *)
Definition commentNoteRegex : list atom :=
  Lit "//" :: Rep is_space 0 true :: noteRegex.

(** [/^\d+\s*:?/] *)
Definition numberPrefixRegex : list atom :=
  [Rep is_digit 1 true; Rep is_space 0 true; Opt (char_is ":")].

(** The body of the loop over the lines: [None] is a line that is
    dropped ([continue]), [Some l] the line pushed to [outLines]. *)
Definition sanitizeLine (line : str) : option str :=
  let trimmed := trim line in
  if negb (truthy trimmed) then None
  else if startsWith trimmed (lit ">>>") then None
  else if rx_test_anchored fenceMarkRegex trimmed then None
  else if rx_test_anchored noteRegex trimmed then None
  else if rx_test_anchored commentNoteRegex trimmed then None
  else if rx_test_anchored numberPrefixRegex trimmed
          && negb (startsWith trimmed (lit "#")) then
    let after := trim (rx_remove_prefix numberPrefixRegex trimmed) in
    if negb (truthy after) then None else Some after
  else Some line.

(** Step 2 of [sanitizeFixSuggestion]: the kept lines, joined and trimmed. *)
Definition cleanLines (text : str) : str :=
  trim (join [NL] (omap sanitizeLine (split NL text))).

(** The contents of one matched fence block. *)
Definition fenceContents (block : str) : str :=
  trim (rx_remove_all fenceMarkRegex (rx_remove_all fenceOpenRegex block 0) 0).

Definition sanitizeFixSuggestion (raw : str) : str :=
  if negb (truthy raw) then []
  else
    let text := trim raw in
    let fences := map (@concat ascii) (rx_scan fenceRegex text 0) in
    let text :=
      match fences with
      | [] => text
      | _ :: _ => trim (join [NL] (map fenceContents fences))
      end in
    cleanLines text.

(** ** Responses with fenced code blocks

    The shape of a model response that the sanitization property is
    stated for: each block is some text, an opening fence with its
    language tag, the fenced body and the closing fence; [tail] is
    what follows the last block. *)



Record FencedBlock := mkBlock {
  fb_before : str;
  fb_tag : str;
  fb_body : str
}.






(** ** The orchestrator instance *)

(** [this.options]; an absent fallback model is the empty string. *)
Record Options := mkOptions {
  useCompiler : bool;
  useStaticAnalysis : bool;
  useAI : bool;
  aiModel : str;
  fallbackModel : str;
  compiler : str;
  verbose : bool;
  autoFix : bool
}.

(** The options of [new TracebackSystem()]. *)
Definition defaultOptions : Options :=
  mkOptions true true true (lit "qwen2.5:1.5b") (lit "qwen2.5:1.5b")
            (lit "gcc") false false.

(** The mutable fields of an instance. *)
Record Instance := mkInstance {
  options : Options;
  errors : list Issue;
  warnings : list Issue;
  fixes : list Fix
}.

Definition pushError (e : Issue) (t : Instance) : Instance :=
  mkInstance (options t) (errors t ++ [e]) (warnings t) (fixes t).

Definition pushWarning (w : Issue) (t : Instance) : Instance :=
  mkInstance (options t) (errors t) (warnings t ++ [w]) (fixes t).

(** ** Syntax heuristics *)

Record SyntaxCheck := mkCheck {
  pattern : list atom;
  check_message : str;
  check_type : str
}.

Definition syntaxChecks : list SyntaxCheck :=
  [ (* /[^;{}]\s*$/m *)
    mkCheck [Chr (none_of ";{}"); Rep is_space 0 true; Eol]
            (lit "Missing semicolon or closing brace") (lit "syntax");
    (* /#include\s*<[^>]+$/m *)
    mkCheck [Lit "#include"; Rep is_space 0 true; Chr (char_is "<");
             Rep (none_of ">") 1 true; Eol]
            (lit "Incomplete #include directive") (lit "syntax");
    (* /\([^)]*$/m *)
    mkCheck [Chr (char_is "("); Rep (none_of ")") 0 true; Eol]
            (lit "Unclosed parenthesis") (lit "syntax");
    (* /\[[^\]]*$/m *)
    mkCheck [Chr (char_is "["); Rep (none_of "]") 0 true; Eol]
            (lit "Unclosed bracket") (lit "syntax");
    (* the pattern for an unclosed string literal: a double quote, then
       [^Q]*$ under the m flag, Q the double quote *)
    mkCheck [Chr (char_is DQ); Rep (not_char DQ) 0 true; Eol]
            (lit "Unclosed string literal") (lit "syntax") ].

(** The body of [lines.forEach]: the Issues pushed for one line. *)
Definition syntaxLine (filePath : str) (idx : nat) (line : str) : list Issue :=
  flat_map
    (fun check =>
       if rx_test (pattern check) line && negb (endsWith (trim line) (lit "\"))
       then [mkIssue (path.basename filePath) (Z.of_nat idx + 1)
                     (Z.of_nat (length line)) (check_message check)
                     (check_type check) (Some (trim line)) (lit "error")]
       else [])
    syntaxChecks.

(** The Issues of one file, in line order. *)
Definition syntaxFile (disk : Disk) (filePath : str) : list Issue :=
  if negb (fs.existsSync disk filePath) then []
  else concat (imap (syntaxLine filePath)
                    (split NL (fs.readFileSync disk filePath))).

Definition checkSyntax (disk : Disk) (files : list str) (t : Instance) : Instance :=
  fold_left (fun t filePath => fold_left (fun t e => pushError e t)
                                         (syntaxFile disk filePath) t)
            files t.

(** ** Helpers *)

(** [files.find(pred)] *)
Fixpoint find_first (pred : str -> bool) (files : list str) : option str :=
  match files with
  | [] => None
  | f :: files' => if pred f then Some f else find_first pred files'
  end.

(** [a || b] on strings, [a] possibly undefined. *)
Definition or_else (a : option str) (b : str) : str :=
  match a with
  | Some x => if truthy x then x else b
  | None => b
  end.

Definition getLineContent (disk : Disk) (filePath : str) (lineNum : Z) : str :=
  if negb (fs.existsSync disk filePath) then []
  else
    let lines := split NL (fs.readFileSync disk filePath) in
    if lineNum - 1 <? 0 then []
    else default [] (lines !! Z.to_nat (lineNum - 1)).

(** [parseInt] on a string of decimal digits. *)
Definition parseInt (digits : str) : Z :=
  fold_left (fun acc d => 10 * acc + (Z.of_nat (code_of d) - 48)) digits 0.

Definition isCFile (f : str) : bool :=
  endsWith f (lit ".c") || endsWith f (lit ".cpp").

(** ** Compilation check *)

(** The include pattern with the g flag: [#include\s*], an opening
    angle bracket or double quote, a captured run of characters other
    than a closing angle bracket or double quote, and one of these two. *)
Definition includeRegex : list atom :=
  [Lit "#include"; Rep is_space 0 true; Chr (fun x => char_is "<" x || char_is DQ x);
   Rep (fun x => negb (char_is ">" x || char_is DQ x)) 1 true;
   Chr (fun x => char_is ">" x || char_is DQ x)].

(** [includes.add(x)] on a [Set]: insertion order, no duplicates. *)
Definition set_add (x : str) (set : list str) : list str :=
  if bool_decide (x ∈ set) then set else set ++ [x].

(** The names included by one text: the capture of each match. *)
Definition includeTargets (content : str) : list str :=
  flat_map (fun gs => match gs with
                      | [_; _; _; name; _] => [name]
                      | _ => []
                      end)
           (rx_scan includeRegex content 0).

(** The directive added for a name, always with angle brackets. *)
Definition angleInclude (name : str) : str := lit "#include <" ++ name ++ lit ">".

Definition includesOf (content : str) : list str :=
  map angleInclude (includeTargets content).

Definition extractIncludes (disk : Disk) (files : list str) : list str :=
  fold_left (fun set filePath =>
               if negb (fs.existsSync disk filePath) then set
               else fold_left (fun set inc => set_add inc set)
                              (includesOf (fs.readFileSync disk filePath)) set)
            files [].

Definition combineCode (disk : Disk) (files : list str) : str :=
  join [NL; NL]
       (map (fun f => rx_remove_all includeRegex (fs.readFileSync disk f) 0)
            (filter (fun f => fs.existsSync disk f = true) files)).

(** The synthetic translation unit written to [__test_compile.c]. *)
Definition testCode (disk : Disk) (files : list str) : str :=
  join [NL] (extractIncludes disk files) ++ [NL; NL] ++ combineCode disk files.




(** ** External processes *)

(** What [spawnSync] returns: the exit status (absent when the process
    could not be run or was killed) and the captured output; an absent
    output is the empty string. *)
Record SpawnResult := mkSpawn {
  status : option Z;
  stdout : str;
  stderr : str
}.

(** Parsing of one tool's output: the Issues for the two lists. *)
Definition pushIssue (severityIsError : bool) (e : Issue) (t : Instance) : Instance :=
  if severityIsError then pushError e t else pushWarning e t.

Definition severityOf (s : str) : str :=
  if bool_decide (s = lit "error") then lit "error" else lit "warning".

(** [/([^:]+):(\d+):(\d+):\s*(error|warning):\s*(.+)/g] *)
Definition errorRegex : list atom :=
  [Rep (none_of ":") 1 true; Chr (char_is ":"); Rep is_digit 1 true;
   Chr (char_is ":"); Rep is_digit 1 true; Chr (char_is ":");
   Rep is_space 0 true; Alt [lit "error"; lit "warning"]; Chr (char_is ":");
   Rep is_space 0 true; Rep dot 1 true].

(** [/error:\s*/] *)
Definition errorWordRegex : list atom := [Lit "error:"; Rep is_space 0 true].

Definition compilerIssue (disk : Disk) (files : list str) (gs : list str)
  : option (bool * Issue) :=
  match gs with
  | [file; _; line; _; col; _; _; type; _; _; message] =>
      let fileName := path.basename file in
      let fullPath :=
        find_first (fun f => includes f fileName
                             || includes fileName (path.basename f)) files in
      Some (bool_decide (type = lit "error"),
            mkIssue fileName (parseInt line) (parseInt col) (trim message)
                    (lit "compilation")
                    (Some (getLineContent disk (or_else fullPath file) (parseInt line)))
                    (severityOf type))
  | _ => None
  end.

Definition parseCompilerErrors (disk : Disk) (output : str) (files : list str)
    (t : Instance) : Instance :=
  let t :=
    fold_left (fun t gs => match compilerIssue disk files gs with
                           | Some (isError, e) => pushIssue isError e t
                           | None => t
                           end)
              (rx_scan errorRegex output 0) t in
  (* Also catch generic errors *)
  if bool_decide (errors t = []) && includes output (lit "error:") then
    fold_left (fun t line =>
                 pushError (mkIssue (lit "unknown") 0 0
                                    (trim (rx_remove_first errorWordRegex line))
                                    (lit "compilation") None (lit "error")) t)
              (filter (fun l => includes l (lit "error:") = true) (split NL output))
              t
  else t.

(** [/\[([^:]+):(\d+)\]:\s*\((\w+)\)\s*(.+)/g] *)
Definition cppcheckRegex : list atom :=
  [Chr (char_is "["); Rep (none_of ":") 1 true; Chr (char_is ":");
   Rep is_digit 1 true; Chr (char_is "]"); Chr (char_is ":");
   Rep is_space 0 true; Chr (char_is "("); Rep is_word 1 true;
   Chr (char_is ")"); Rep is_space 0 true; Rep dot 1 true].

Definition cppcheckIssue (disk : Disk) (files : list str) (gs : list str)
  : option (bool * Issue) :=
  match gs with
  | [_; file; _; line; _; _; _; _; severity; _; _; message] =>
      let fileName := path.basename file in
      let fullPath := find_first (fun f => includes f fileName) files in
      Some (bool_decide (severity = lit "error"),
            mkIssue fileName (parseInt line) 0 (trim message)
                    (lit "static_analysis")
                    (Some (getLineContent disk (or_else fullPath file) (parseInt line)))
                    (severityOf severity))
  | _ => None
  end.

Definition parseCppcheckOutput (disk : Disk) (output : str) (files : list str)
    (t : Instance) : Instance :=
  fold_left (fun t gs => match cppcheckIssue disk files gs with
                         | Some (isError, e) => pushIssue isError e t
                         | None => t
                         end)
            (rx_scan cppcheckRegex output 0) t.

(** [/([^:]+):(\d+):(\d+):\s*(warning|error):\s*(.+?)\s*\[(.+?)\]/g] *)
Definition clangTidyRegex : list atom :=
  [Rep (none_of ":") 1 true; Chr (char_is ":"); Rep is_digit 1 true;
   Chr (char_is ":"); Rep is_digit 1 true; Chr (char_is ":");
   Rep is_space 0 true; Alt [lit "warning"; lit "error"]; Chr (char_is ":");
   Rep is_space 0 true; Rep dot 1 false; Rep is_space 0 true;
   Chr (char_is "["); Rep dot 1 false; Chr (char_is "]")].

Definition clangTidyIssue (disk : Disk) (files : list str) (gs : list str)
  : option (bool * Issue) :=
  match gs with
  | [file; _; line; _; col; _; _; severity; _; _; message; _; _; check; _] =>
      let fileName := path.basename file in
      let fullPath := find_first (fun f => includes f fileName) files in
      Some (bool_decide (severity = lit "error"),
            mkIssue fileName (parseInt line) (parseInt col)
                    (trim message ++ lit " [" ++ check ++ lit "]")
                    (lit "static_analysis")
                    (Some (getLineContent disk (or_else fullPath file) (parseInt line)))
                    (severityOf severity))
  | _ => None
  end.

Definition parseClangTidyOutput (disk : Disk) (output : str) (files : list str)
    (t : Instance) : Instance :=
  fold_left (fun t gs => match clangTidyIssue disk files gs with
                         | Some (isError, e) => pushIssue isError e t
                         | None => t
                         end)
            (rx_scan clangTidyRegex output 0) t.

(** ** Quality heuristics *)

(** [/\w+\s+\w+;/] *)
Definition declarationRegex : list atom :=
  [Rep is_word 1 true; Rep is_space 1 true; Rep is_word 1 true; Chr (char_is ";")].

Definition qualityIssue (filePath : str) (idx : nat) (line msg : str) : Issue :=
  mkIssue (path.basename filePath) (Z.of_nat idx + 1) 0 msg (lit "quality")
          (Some (trim line)) (lit "warning").

Definition qualityLine (filePath : str) (idx : nat) (line : str) : list Issue :=
  (if includes line (lit "volatile") && includes line (lit "*")
      && negb (includes line (lit "("))
   then [qualityIssue filePath idx line
           (lit "Potential undefined behavior with volatile pointer")]
   else [])
  ++
  (if rx_test declarationRegex line && negb (includes line (lit "="))
      && negb (includes line (lit "extern")) && negb (includes line (lit "static"))
   then [qualityIssue filePath idx line (lit "Potentially uninitialized variable")]
   else []).

Definition qualityFile (disk : Disk) (filePath : str) : list Issue :=
  if negb (fs.existsSync disk filePath) then []
  else concat (imap (qualityLine filePath)
                    (split NL (fs.readFileSync disk filePath))).

Definition checkCodeQuality (disk : Disk) (files : list str) (t : Instance)
  : Instance :=
  fold_left (fun t filePath => fold_left (fun t w => pushWarning w t)
                                         (qualityFile disk filePath) t)
            files t.

(** ** The analysis result *)

(** [groupByType]: the counts per type, keys in order of first
    appearance. *)
Fixpoint bump (k : str) (groups : list (str * nat)) : list (str * nat) :=
  match groups with
  | [] => [(k, 1%nat)]
  | (k', n) :: groups' =>
      if bool_decide (k' = k) then (k', S n) :: groups'
      else (k', n) :: bump k groups'
  end.

Definition groupByType (issues : list Issue) : list (str * nat) :=
  fold_left (fun groups issue => bump (type issue) groups) issues [].

Record Summary := mkSummary {
  totalErrors : nat;
  totalWarnings : nat;
  totalFixes : nat;
  errorTypes : list (str * nat);
  warningTypes : list (str * nat)
}.

Definition getSummary (t : Instance) : Summary :=
  mkSummary (length (errors t)) (length (warnings t)) (length (fixes t))
            (groupByType (errors t)) (groupByType (warnings t)).

Record Result := mkResult {
  result_errors : list Issue;
  result_warnings : list Issue;
  result_fixes : list Fix;
  summary : Summary
}.

(** ** The four passes in sequence *)

Section Analysis.

(** [spawnSync(command, args)] run against the disk as it is then. *)
Variable spawnSync : str -> list str -> Disk -> SpawnResult.

(** [fs.readdirSync(dir)]; [None] when the directory cannot be read. *)
Variable readdirSync : Disk -> str -> option (list str).

Definition compilerArgs (codeDir testFile : str) : list str :=
  [lit "-c"; testFile; lit "-o"; path.join codeDir (lit "__test_compile.o");
   lit "-std=c11"; lit "-Wall"; lit "-Wextra"; lit "-Werror"; lit "-I"; codeDir].

(** [checkCompilation]: the instance and the disk afterwards.  The test
    file is written before the compiler runs and removed after the
    output has been parsed, the object file with it. *)
Definition checkCompilation (disk : Disk) (codeDir : str) (files : list str)
    (t : Instance) : Instance * Disk :=
  let cFiles := filter (fun f => isCFile f = true) files in
  match cFiles with
  | [] => (t, disk)
  | _ :: _ =>
      let testFile := path.join codeDir (lit "__test_compile.c") in
      let allIncludes := extractIncludes disk files in
      let allCode := combineCode disk files in
      let testCode := join [NL] allIncludes ++ [NL; NL] ++ allCode in
      let disk := fs.writeFileSync testFile testCode disk in
      let result := spawnSync (compiler (options t))
                              (compilerArgs codeDir testFile) disk in
      let t :=
        if bool_decide (status result = Some 0) then t
        else
          let errorOutput :=
            if truthy (stderr result) then stderr result else stdout result in
          parseCompilerErrors disk errorOutput files t in
      let disk := fs.unlinkSync testFile disk in
      let objFile := path.join codeDir (lit "__test_compile.o") in
      let disk := if fs.existsSync disk objFile
                  then fs.unlinkSync objFile disk else disk in
      (t, disk)
  end.

Definition runCppcheck (disk : Disk) (files : list str) (t : Instance) : Instance :=
  let cFiles := filter (fun f => isCFile f = true) files in
  match cFiles with
  | [] => t
  | _ :: _ =>
      let result :=
        spawnSync (lit "cppcheck")
                  ([lit "--enable=all"; lit "--std=c11"; lit "--quiet";
                    lit "--error-exitcode=0"] ++ cFiles) disk in
      if truthy (stdout result)
      then parseCppcheckOutput disk (stdout result) files t
      else t
  end.

Definition runClangTidy (disk : Disk) (files : list str) (t : Instance) : Instance :=
  let cFiles := filter (fun f => isCFile f = true) files in
  match cFiles with
  | [] => t
  | first :: _ =>
      let result :=
        spawnSync (lit "clang-tidy")
                  (cFiles ++ [lit "--"; lit "-std=c11"; lit "-I";
                              path.dirname first]) disk in
      if truthy (stdout result)
      then parseClangTidyOutput disk (stdout result) files t
      else t
  end.

Definition runStaticAnalysis (disk : Disk) (files : list str) (t : Instance)
  : Instance :=
  runClangTidy disk files (runCppcheck disk files t).

Definition isSourceFile (f : str) : bool :=
  endsWith f (lit ".c") || endsWith f (lit ".h") || endsWith f (lit ".cpp").

(** [analyzeCode(codeDir, files)]: [None] when the directory listing
    fails (the only failure raised to the caller); otherwise the result,
    the instance and the disk afterwards. *)
Definition analyzeCode (t : Instance) (disk : Disk) (codeDir : str)
    (files : option (list str)) : option (Result * Instance * Disk) :=
  let t := mkInstance (options t) [] [] [] in
  match (match files with
         | Some fl => Some fl
         | None => option_map (List.filter isSourceFile) (readdirSync disk codeDir)
         end) with
  | None => None
  | Some files =>
      let codeFiles := map (fun f => path.join codeDir f) files in
      (* 1. Syntax validation *)
      let t := checkSyntax disk codeFiles t in
      (* 2. Compilation check *)
      let '(t, disk) :=
        if useCompiler (options t)
        then checkCompilation disk codeDir codeFiles t else (t, disk) in
      (* 3. Static analysis *)
      let t := if useStaticAnalysis (options t)
               then runStaticAnalysis disk codeFiles t else t in
      (* 4. Code quality checks *)
      let t := checkCodeQuality disk codeFiles t in
      Some (mkResult (errors t) (warnings t) (fixes t) (getSummary t), t, disk)
  end.

End Analysis.

(** ** Repair suggestion engine *)

(** An exception raised by a request: [err.response.data.error],
    [err.message] and [err.code]; an absent field is the empty string. *)
Record AxiosError := mkError {
  response_error : str;
  err_message : str;
  err_code : str
}.

(** [response.data.response || response.data] of an answered request:
    a string; an object, with those of its fields [code], [fix], [text]
    that are strings and its JSON rendering; [null]; or anything else
    (undefined, a number, a boolean). *)
Inductive Body :=
| BodyString (s : str)
| BodyObject (code_ fix_ text_ : option str) (json : str)
| BodyNull
| BodyOther.

Inductive Outcome :=
| Reply (body : Body)
| Failure (e : AxiosError).

(** The [TypeError] of reading a property of [null]. *)
Definition nullTypeError : AxiosError :=
  mkError [] (lit "Cannot read properties of null (reading 'code')") [].

(** [lines.slice(start, end)] *)
Definition slice {A} (l : list A) (start end_ : Z) : list A :=
  let len := Z.of_nat (length l) in
  let k := if start <? 0 then Z.max (len + start) 0 else Z.min start len in
  let final := if end_ <? 0 then Z.max (len + end_) 0 else Z.min end_ len in
  take (Z.to_nat (final - k)) (drop (Z.to_nat k) l).

Definition getFileContent (disk : Disk) (fileName : str) (codeFiles : list str)
  : str :=
  match find_first (fun f => includes f fileName
                             || includes fileName (path.basename f)) codeFiles with
  | Some filePath =>
      if truthy filePath && fs.existsSync disk filePath
      then fs.readFileSync disk filePath else []
  | None => []
  end.

Definition getCodeContext (content : str) (lineNum contextLines : Z) : str :=
  let lines := split NL content in
  let start := Z.max 0 (lineNum - contextLines - 1) in
  let end_ := Z.min (Z.of_nat (length lines)) (lineNum + contextLines) in
  let context := slice lines start end_ in
  join [NL]
    (imap (fun idx line =>
             let actualLine := start + Z.of_nat idx + 1 in
             let marker := if actualLine =? lineNum then lit ">>> " else lit "    " in
             marker ++ String_of_Z actualLine ++ lit ": " ++ line)
          context).

Definition buildPrompt (disk : Disk) (codeFiles : list str) (error : Issue) : str :=
  let fileContent := getFileContent disk (file error) codeFiles in
  lit "Fix this C code error:" ++ [NL; NL]
  ++ lit "File: " ++ file error ++ [NL]
  ++ lit "Line: " ++ String_of_Z (line error) ++ [NL]
  ++ lit "Error: " ++ message error ++ [NL]
  ++ lit "Code context:" ++ [NL]
  ++ getCodeContext fileContent (line error) 5 ++ [NL; NL]
  ++ lit "Provide ONLY the corrected code for the problematic line(s). No explanations.".

(** The text taken from an answer; [inr] is the exception of reading a
    field of [null]. *)
Definition bodyText (body : Body) : str + AxiosError :=
  match body with
  | BodyString s => inl s
  | BodyObject (Some c) _ _ _ => inl c
  | BodyObject None (Some f) _ _ => inl f
  | BodyObject None None (Some t) _ => inl t
  | BodyObject None None None json => inl json
  | BodyNull => inr nullTypeError
  | BodyOther => inl []
  end.

(** What the [try] block gets from a request: the text of the answer,
    or the exception raised. *)
Definition outcomeText (outcome : Outcome) : str + AxiosError :=
  match outcome with
  | Reply body => bodyText body
  | Failure e => inr e
  end.

(** The Fix made from the text of an answer, if its sanitized form is
    not empty. *)
Definition fixOf (error : Issue) (text : str) (confidence : nat) : option Fix :=
  let fixSuggestion := sanitizeFixSuggestion text in
  if truthy fixSuggestion then Some (mkFix error fixSuggestion confidence)
  else None.

(** The message the inner handler classifies. *)
Definition innerMessage (e : AxiosError) : str :=
  if truthy (response_error e) then response_error e else err_message e.

(** Resource exhaustion, as the inner handler recognises it. *)
Definition isOutOfMemory (e : AxiosError) : bool :=
  includes (toLowerCase (innerMessage e)) (lit "requires more system memory").

(** A timeout, as the inner handler recognises it. *)
Definition isTimeoutInner (e : AxiosError) : bool :=
  bool_decide (err_code e = lit "ECONNABORTED")
  || includes (innerMessage e) (lit "timeout").

(** A timeout, as the outer handler recognises it. *)
Definition isTimeoutOuter (e : AxiosError) : bool :=
  bool_decide (err_code e = lit "ECONNABORTED")
  || includes (err_message e) (lit "timeout").

(** How the attempts for one error end: normally, with or without a
    Fix, or with an exception thrown to the outer handler. *)
Inductive Attempt :=
| Finished (fix_ : option Fix)
| Thrown (e : AxiosError).

(** One entry of the log of requests: the model and the prompt. *)
Abbreviation Calls := (list (list ascii * list ascii)).

Section Repair.

(** Whether the [axios] module could be loaded. *)
Variable axios : bool.

(** [axios.post(url, {model, prompt, ...})]: the outcome of a request,
    given how many requests were made before it. *)
Variable post : nat -> str -> str -> Outcome.

Variable primaryModel fallbackModel_ : str.

(** [model !== fallbackModel]; an absent fallback model is [null], which
    no model name equals. *)
Definition notFallback (model : str) : bool :=
  negb (truthy fallbackModel_ && bool_decide (model = fallbackModel_)).

(** What the inner [catch] does with an exception raised for [model]:
    [true] to go on with the next model, [false] to rethrow. *)
Definition continueWithNext (model : str) (e : AxiosError) : bool :=
  (isOutOfMemory e && notFallback model)
  || (isTimeoutInner e && notFallback model && truthy fallbackModel_).

(** The loop over [modelsToTry] for one error. *)
Fixpoint tryModels (error : Issue) (prompt : str) (models : list str)
    (calls : Calls) : Attempt * Calls :=
  match models with
  | [] => (Finished None, calls)
  | model :: models' =>
      let outcome := post (length calls) model prompt in
      let calls := calls ++ [(model, prompt)] in
      match outcomeText outcome with
      | inl text =>
          let confidence :=
            if bool_decide (model = primaryModel) then 8%nat else 7%nat in
          (Finished (fixOf error text confidence), calls)
      | inr innerErr =>
          if continueWithNext model innerErr
          then tryModels error prompt models' calls
          else (Thrown innerErr, calls)
      end
  end.

Definition modelsToTry : list str :=
  primaryModel ::
  (if truthy fallbackModel_ && negb (bool_decide (fallbackModel_ = primaryModel))
   then [fallbackModel_] else []).

(** The loop over the selected errors. *)
Fixpoint processErrors (disk : Disk) (codeFiles : list str) (errs : list Issue)
    (fixes : list Fix) (calls : Calls) : list Fix * Calls :=
  match errs with
  | [] => (fixes, calls)
  | error :: errs' =>
      let prompt := buildPrompt disk codeFiles error in
      match tryModels error prompt modelsToTry calls with
      | (Finished (Some f), calls) =>
          processErrors disk codeFiles errs' (fixes ++ [f]) calls
      | (Finished None, calls) => processErrors disk codeFiles errs' fixes calls
      | (Thrown err, calls) =>
          if isTimeoutOuter err
          then processErrors disk codeFiles errs' fixes calls   (* continue *)
          else (fixes, calls)                                   (* break *)
      end
  end.

End Repair.

(** [this.options.aiModel || 'qwen2.5:1.5b'] *)
Definition primaryOf (t : Instance) : str :=
  if truthy (aiModel (options t)) then aiModel (options t)
  else lit "qwen2.5:1.5b".

(** [getAIFixes(errors, codeFiles)]: the returned Fixes, the instance
    afterwards and the log of the requests made. *)
Definition getAIFixes (axios : bool) (post : nat -> str -> str -> Outcome)
    (disk : Disk) (t : Instance) (errs : list Issue) (codeFiles : list str)
  : list Fix * Instance * Calls :=
  if negb axios || negb (useAI (options t)) then ([], t, [])
  else
    let primaryModel := primaryOf t in
    let fallbackModel := fallbackModel (options t) in
    let '(fixes, calls) :=
      processErrors post primaryModel fallbackModel disk codeFiles
                    (take 5 errs) [] [] in
    (fixes, mkInstance (options t) (errors t) (warnings t) fixes, calls).

(** ** Auxiliary predicates of the proofs *)

(** The state [after] extends [before]: Fixes and requests are only
    added at the end, at most [k] requests, each with the prompt of one
    of [errs]; the added Fixes are for errors of [errs], in the order
    of [errs] and at most one for each. *)
Definition grows (disk : Disk) (codeFiles : list str) (errs : list Issue) (k : nat)
    (before after : list Fix * Calls) : Prop :=
  exists (newFixes : list Fix) (new : Calls),
    after = (before.1 ++ newFixes, before.2 ++ new) /\
    (length new <= k)%nat /\
    Forall (fun c => exists e, e ∈ errs /\ c.2 = buildPrompt disk codeFiles e) new /\
    map error newFixes `sublist_of` errs.

(** An error-list entry and a warning-list entry as the data model
    wants them. *)
Definition okError (e : Issue) : Prop := severity e = lit "error" /\ 0 <= line e.

Definition okWarning (w : Issue) : Prop := severity w = lit "warning" /\ 0 <= line w.

(** Both lists of an instance hold entries of their own severity, and
    the options are [opts]. *)
Definition sorted (opts : Options) (t : Instance) : Prop :=
  options t = opts /\ Forall okError (errors t) /\ Forall okWarning (warnings t).

(** The text an atom can consume. *)
Definition accepts (a : atom) (g : str) : Prop :=
  match a with
  | Chr c => exists x, g = [x] /\ c x = true
  | Alt ws => g ∈ ws
  | Rep c min _ => forallb c g = true /\ (min <= length g)%nat
  | Opt c => g = [] \/ exists x, g = [x] /\ c x = true
  | Eol => g = []
  end.

(** ** Fenced responses and numbered lines, by their text *)











(** ** Concrete inputs of the scenarios *)

(** A ten-line file [a.c] in directory [proj]. *)
Definition tenLines : str :=
  join [NL] (map lit ["l1"; "l2"; "l3"; "l4"; "l5"; "l6"; "l7"; "l8"; "l9"; "l10"]%string).

Definition issueAt (f : string) (n : Z) : Issue :=
  mkIssue (lit f) n 0 (lit "Missing semicolon or closing brace") (lit "syntax")
          (Some []) (lit "error").

Definition proj : str := lit "proj".

Definition diskTen : Disk := {[ lit "proj/a.c" := tenLines ]}.

(** A Fix for line 1000 of [a.c]. *)
Definition fixFar : Fix := mkFix (issueAt "a.c" 1000) (lit "int x = 0;") 8.

(** A Fix for a file that is not on disk. *)
Definition fixMissing : Fix := mkFix (issueAt "b.c" 1) (lit "int x = 0;") 8.

(** A one-line Fix for line 2 of [a.c]. *)
Definition fixOneLine : Fix := mkFix (issueAt "a.c" 2) (lit "  int x = 0;  ") 8.

(** A file of two lines and a Fix for its first line whose suggestion
    has two lines. *)
Definition diskAB : Disk := {[ lit "proj/a.c" := lit "a" ++ [NL] ++ lit "b" ]}.

Definition fixTwoLines : Fix :=
  mkFix (issueAt "a.c" 1) (lit "x" ++ [NL] ++ lit "y") 8.


Definition blockE : FencedBlock :=
  mkBlock (lit "Here is the fix:" ++ [NL]) (lit "c")
          ([NL] ++ lit "int x = 0;" ++ [NL]).




(** Scenario A: [a.c] holds the single line [int x], without and with
    a final line break. *)
Definition diskIntX : Disk := {[ lit "proj/a.c" := lit "int x" ]}.

Definition diskIntXNL : Disk := {[ lit "proj/a.c" := lit "int x" ++ [NL] ]}.

(** A fresh instance, [new TracebackSystem()]. *)
Definition fresh : Instance := mkInstance defaultOptions [] [] [].

Definition issueIntX : Issue :=
  mkIssue (lit "a.c") 1 5 (lit "Missing semicolon or closing brace")
          (lit "syntax") (Some (lit "int x")) (lit "error").

(** Scenario D: eight errors; a service that times out on every
    request, or reports that the model does not fit in memory; an
    instance configured with a fallback model of its own. *)
Definition diskReturn : Disk :=
  {[ lit "proj/a.c" := lit "int f(void) {" ++ [NL] ++ lit "  return y" ++ [NL] ++ lit "}" ]}.

Definition issueReturn (n : Z) : Issue :=
  mkIssue (lit "a.c") n 10 (lit "Missing semicolon or closing brace")
          (lit "syntax") (Some (lit "return y")) (lit "error").

Definition eightErrors : list Issue := map issueReturn [1; 2; 3; 4; 5; 6; 7; 8].

Definition timeoutError : AxiosError :=
  mkError [] (lit "timeout of 60000ms exceeded") (lit "ECONNABORTED").

Definition memoryError : AxiosError :=
  mkError (lit "model requires more system memory (5.0 GiB) than is available (3.1 GiB)")
          (lit "Request failed with status code 500") (lit "ERR_BAD_RESPONSE").

Definition serverError : AxiosError :=
  mkError (lit "internal error") (lit "Request failed with status code 500")
          (lit "ERR_BAD_RESPONSE").

Definition alwaysTimeout : nat -> str -> str -> Outcome :=
  fun _ _ _ => Failure timeoutError.

Definition withFallback : Instance :=
  mkInstance (mkOptions true true true (lit "small") (lit "large") (lit "gcc")
                        false false) [] [] [].

(** A service that reports exhausted memory on the first two requests
    and answers every later one with a corrected line. *)
Definition memoryThenAnswer : nat -> str -> str -> Outcome :=
  fun n _ _ =>
    if (n <? 2)%nat then Failure memoryError
    else Reply (BodyString (lit "return y;")).

(** The same with timeouts in place of the memory reports. *)
Definition timeoutThenAnswer : nat -> str -> str -> Outcome :=
  fun n _ _ =>
    if (n <? 2)%nat then Failure timeoutError
    else Reply (BodyString (lit "return y;")).

Definition twoErrors : list Issue := [issueReturn 2; issueReturn 3].

Definition promptFor (n : Z) : str :=
  buildPrompt diskReturn [lit "proj/a.c"] (issueReturn n).

(** The two runs on [twoErrors] with a fallback model configured. *)
Definition memoryRun : list Fix * Instance * Calls :=
  getAIFixes true memoryThenAnswer diskReturn withFallback twoErrors [lit "proj/a.c"].

Definition timeoutRun : list Fix * Instance * Calls :=
  getAIFixes true timeoutThenAnswer diskReturn withFallback twoErrors [lit "proj/a.c"].

(** Scenarios B and C: a file that uses an undeclared identifier, a
    compiler that reports it, an analyzer that reports an unused
    variable and one that reports nothing. *)
Definition scenarioB_tools : str -> list str -> Disk -> SpawnResult :=
  fun command _ _ =>
    if bool_decide (command = lit "gcc") then
      mkSpawn (Some 1) []
        (lit "proj/__test_compile.c: In function 'f':" ++ [NL]
         ++ lit "proj/__test_compile.c:5:10: error: 'y' undeclared (first use in this function)")
    else if bool_decide (command = lit "cppcheck") then
      mkSpawn (Some 0) (lit "[a.c:10]: (warning) Unused variable 'x'") []
    else mkSpawn None [] [].

Definition noListing : Disk -> str -> option (list str) := fun _ _ => None.

Definition diskUndeclared : Disk :=
  {[ lit "proj/a.c" := lit "int f(void) {" ++ [NL] ++ lit "  return y;" ++ [NL] ++ lit "}" ]}.

(** An instance that has been used before. *)
Definition used : Instance :=
  mkInstance defaultOptions [issueIntX] [issueIntX]
             [mkFix issueIntX (lit "int x;") 8].










(** * Further properties: definitions *)

(** ** Patch applier: what ends up in a slot *)

(** The Fix is for slot [i] of the file at path [p]. *)
Definition targets (codeDir p : str) (i : nat) (fx : Fix) : bool :=
  bool_decide (path.join codeDir (file (error fx)) = p)
  && (line (error fx) - 1 =? Z.of_nat i).

(** The text of slot [i] of the file at [p] once [fixes] have been
    processed, [l0] being the line on disk: the trimmed suggestion of
    the last Fix for that slot, if any. *)
Definition slotAfter (codeDir : str) (fixes : list Fix) (p : str) (i : nat)
    (l0 : str) : str :=
  match last (filter (fun fx => targets codeDir p i fx = true) fixes) with
  | Some fx => trim (suggestion fx)
  | None => l0
  end.

(** The test the loop makes before it writes a Fix. *)
Definition writable (disk : Disk) (codeDir : str) (fx : Fix) : bool :=
  fs.existsSync disk (path.join codeDir (file (error fx)))
  && (0 <=? line (error fx) - 1)
  && (line (error fx) - 1 <? Z.of_nat (length (loadedLines disk codeDir (error fx)))).

(** What an audit record says apart from the old text. *)
Definition auditKey (a : AppliedFix) : str * Z * str :=
  (applied_file a, applied_line a, applied_new a).

Definition fixKey (fx : Fix) : str * Z * str :=
  (file (error fx), line (error fx), trim (suggestion fx)).

(** What the loop of [applyFixes] maintains, [done] being the Fixes
    processed so far. *)
Definition slotsInv (disk : Disk) (codeDir : str) (done : list Fix)
    (st : FileMap * list AppliedFix) : Prop :=
  NoDup (map fst st.1) /\
  (forall p lines, map_get st.1 p = Some lines ->
     fs.existsSync disk p = true /\
     (exists fx, fx ∈ done /\ path.join codeDir (file (error fx)) = p) /\
     lines = imap (slotAfter codeDir done p) (split NL (fs.readFileSync disk p))) /\
  (forall p, map_get st.1 p = None -> fs.existsSync disk p = true ->
     forall fx, fx ∈ done -> path.join codeDir (file (error fx)) <> p) /\
  map auditKey st.2 = map fixKey (filter (fun fx => writable disk codeDir fx = true) done).

(** A second Fix for line 2 of [a.c], and a directory with a header
    beside the source file. *)
Definition fixSecond : Fix := mkFix (issueAt "a.c" 2) (lit "int y = 1;") 8.

Definition diskTwoFiles : Disk :=
  {[ lit "proj/a.c" := tenLines; lit "proj/b.h" := lit "#define N 4" ]}.

(** ** Repair suggestion engine: the shape of a Fix *)

(** A suggestion that is not empty and has no white space at either end;
    confidence 0.8, or 0.7 with a fallback model of its own configured. *)
Definition fixShape (primaryModel fallbackModel_ : str) (f : Fix) : Prop :=
  suggestion f <> [] /\ trim (suggestion f) = suggestion f /\
  (confidence f = 8%nat \/
   (confidence f = 7%nat /\ fallbackModel_ <> [] /\ fallbackModel_ <> primaryModel)).

(** ** Sanitization: the lines of a suggestion *)

(** A line with something on it and no line break in it. *)
Definition solidLine (l : str) : Prop := trim l <> [] /\ NL ∉ l.

(** ** The passes of an analysis *)

(** What a pass adds to an instance: Issues of one type at the end of
    the two lists, the options and the fixes left alone. *)
Definition appended (ty : str) (t t' : Instance) (es ws : list Issue) : Prop :=
  options t' = options t /\ fixes t' = fixes t /\
  errors t' = errors t ++ es /\ warnings t' = warnings t ++ ws /\
  Forall (fun i => type i = ty) (es ++ ws).

(** The file names an analysis works on: the argument when it is given,
    the source files of the directory listing otherwise. *)
Definition sourceFiles (readdirSync : Disk -> str -> option (list str))
    (disk : Disk) (codeDir : str) (files : option (list str)) : option (list str) :=
  match files with
  | Some fl => Some fl
  | None => option_map (List.filter isSourceFile) (readdirSync disk codeDir)
  end.

(** The number of Issues of one type. *)
Definition countType (k : str) (issues : list Issue) : nat :=
  length (filter (fun i => type i = k) issues).

(** The two names the compilation check uses in the code directory. *)
Definition testFileOf (codeDir : str) : str := path.join codeDir (lit "__test_compile.c").
Definition objFileOf (codeDir : str) : str := path.join codeDir (lit "__test_compile.o").

(** A table of counts is the histogram of a list of Issues: one entry
    per type that occurs, with the number of its Issues, and the counts
    add up to the length of the list. *)
Definition histogram (issues : list Issue) (groups : list (str * nat)) : Prop :=
  NoDup (map fst groups) /\
  (forall k n, (k, n) ∈ groups <-> (0 < n)%nat /\ n = countType k issues) /\
  sum_list (map snd groups) = length issues.

(** An instance with the compiler and the static analyzers switched off. *)
Definition heuristicsOnly : Instance :=
  mkInstance (mkOptions false false true (lit "qwen2.5:1.5b") (lit "qwen2.5:1.5b")
                        (lit "gcc") false false) [] [] [].

(** A project that has a file of its own under the name of the test file. *)
Definition diskClobber : Disk :=
  {[ lit "proj/a.c" := lit "int f(void) {" ++ [NL] ++ lit "  return 0;" ++ [NL] ++ lit "}";
     lit "proj/__test_compile.c" := lit "int kept;" ]}.

(** A compiler and analyzers that report nothing. *)
Definition quietTools : str -> list str -> Disk -> SpawnResult :=
  fun _ _ _ => mkSpawn (Some 0) [] [].

(** The table as a map: a type is bound to its count when it occurs. *)
Definition tableOf (issues : list Issue) (g : list (str * nat)) : Prop :=
  NoDup (map fst g) /\
  (forall k, (list_to_map g : gmap str nat) !! k
             = if bool_decide (countType k issues = 0%nat) then None
               else Some (countType k issues)) /\
  sum_list (map snd g) = length issues.


(** ** Compiler output without diagnostics *)

(** The error recorded for a line of output that mentions an error
    without the position of a diagnostic. *)
Definition genericIssue (line : str) : Issue :=
  mkIssue (lit "unknown") 0 0 (trim (rx_remove_first errorWordRegex line))
          (lit "compilation") None (lit "error").

(** The report of a linker failure. *)
Definition linkerOutput : str := lit "collect2: error: ld returned 1 exit status".

(** ** The terminator heuristic *)

(** The first syntax check: a character other than a semicolon or a
    brace, white space, the end of a line. *)
Definition terminatorRegex : list atom :=
  [Chr (none_of ";{}"); Rep is_space 0 true; Eol].

Definition terminatorMessage : str := lit "Missing semicolon or closing brace".

(** The syntax pass reports a line for its terminator. *)
Definition flagged (filePath : str) (idx : nat) (line : str) : Prop :=
  exists e, e ∈ syntaxLine filePath idx line /\ message e = terminatorMessage.

(** ** The code context of a prompt *)

(** One line of the context: the marker, the line number, the line. *)
Definition renderedLine (lineNum n : Z) (line : str) : str :=
  (if n =? lineNum then lit ">>> " else lit "    ")
  ++ String_of_Z n ++ lit ": " ++ line.

(** A file of twelve numbered lines. *)
Definition twelveLines : str :=
  join [NL] (map (fun n => lit "line " ++ String_of_Z n) [1; 2; 3; 4; 5; 6; 7; 8; 9; 10; 11; 12]).

(** ** The repair step of the generation handler

    The block of the upload handler in [index.js] that runs after the
    files of a project have been generated into [tmpDir]: a new
    instance, the analysis of the generated files, the request for
    Fixes when there are errors, and their application.  The block is
    entered when the query does not switch it off and at least one file
    was generated. *)

(** The options of the instance: those given by the handler, from the
    query flags [no-compile], [no-static], [no-ai] and [model], and the
    defaults of the constructor for the rest. *)
Definition uploadOptions (axios noCompile noStatic noAi : bool) (model : option str)
  : Options :=
  mkOptions (negb noCompile) (negb noStatic) (negb noAi && axios)
            (or_else model (lit "qwen2.5:1.5b")) (lit "qwen2.5:1.5b")
            (lit "gcc") true true.

(** The step: [tracebackResults] with the applied fixes (none when the
    field is not set) and the log of the requests, and the disk
    afterwards; [None] is an analysis that failed. *)
Definition tracebackStep
    (spawnSync : str -> list str -> Disk -> SpawnResult)
    (readdirSync : Disk -> str -> option (list str))
    (axios : bool) (post : nat -> str -> str -> Outcome)
    (noCompile noStatic noAi : bool) (model : option str)
    (disk : Disk) (tmpDir : str) (generatedFiles : list str)
  : option (Result * list AppliedFix * Calls) * Disk :=
  let traceback :=
    mkInstance (uploadOptions axios noCompile noStatic noAi model) [] [] [] in
  match analyzeCode spawnSync readdirSync traceback disk tmpDir
                    (Some generatedFiles) with
  | None => (None, disk)
  | Some (tracebackResults, traceback, disk) =>
      if negb (bool_decide (result_errors tracebackResults = []))
         && axios && negb noAi
      then
        let fullPaths := map (fun f => path.join tmpDir f) generatedFiles in
        let '(_, traceback, calls) :=
          getAIFixes axios post disk traceback (result_errors tracebackResults)
                     fullPaths in
        let tracebackResults :=
          mkResult (result_errors tracebackResults)
                   (result_warnings tracebackResults)
                   (fixes traceback) (summary tracebackResults) in
        match fixes traceback with
        | [] => (Some (tracebackResults, [], calls), disk)
        | _ :: _ =>
            let '(applied, disk) := applyFixes tmpDir (fixes traceback) disk in
            (Some (tracebackResults, applied, calls), disk)
        end
      else (Some (tracebackResults, [], []), disk)
  end.

(** A compiler that reports an undeclared identifier in the test file,
    and a service that answers every request with a declaration. *)
Definition alwaysAnswer : nat -> str -> str -> Outcome :=
  fun _ _ _ => Reply (BodyString (lit "int y = 0;")).

(** ** The command line

    The options of the command-line tool ([index.js], the part that is
    [traceback-cli.js]): [args] is [process.argv.slice(2)]. *)

(** [args.indexOf(x)] *)
Fixpoint indexOf (x : str) (args : list str) : Z :=
  match args with
  | [] => -1
  | a :: args' =>
      if bool_decide (a = x) then 0
      else let i := indexOf x args' in if i <? 0 then -1 else i + 1
  end.

(** The options of [new TracebackSystem(options)] for the [options]
    parsed from the arguments. *)
Definition cliOptions (args : list str) : Options :=
  let has := fun flag => bool_decide (lit flag ∈ args) in
  mkOptions (negb (has "--no-compile")) (negb (has "--no-static"))
            (negb (has "--no-ai"))
            (or_else (args !! Z.to_nat (indexOf (lit "--model") args + 1))
                     (lit "codellama:7b"))
            (lit "qwen2.5:1.5b") (lit "gcc") (has "--verbose") (has "--fix").

(** ** The declaration heuristic *)

Definition uninitializedMessage : str := lit "Potentially uninitialized variable".

(** A text holds a word, white space, a word and a semicolon in a row. *)
Definition declarationShaped (line : str) : Prop :=
  exists pre w1 sp w2 post,
    line = pre ++ w1 ++ sp ++ w2 ++ ";"%char :: post /\
    w1 <> [] /\ forallb is_word w1 = true /\
    sp <> [] /\ forallb is_space sp = true /\
    w2 <> [] /\ forallb is_word w2 = true.

(** ** A line of analyzer output *)

(** A report as cppcheck prints it: the position in brackets, the
    severity in parentheses, the message. *)
Definition cppLine (file digits sev msg : str) : str :=
  lit "[" ++ file ++ lit ":" ++ digits ++ lit "]: (" ++ sev ++ lit ") " ++ msg.

(** The fields of a report fit the format: a file name without colon,
    a line number in digits, a severity that is a word, a message that
    does not start with white space and has no line terminator. *)
Definition cppFields (file digits sev msg : str) : Prop :=
  file <> [] /\ forallb (none_of ":") file = true /\
  digits <> [] /\ forallb is_digit digits = true /\
  sev <> [] /\ forallb is_word sev = true /\
  forallb dot msg = true /\
  match msg with x :: _ => is_space x = false | [] => False end.

(** The Issue made from the fields of a report. *)
Definition cppIssue (disk : Disk) (files : list str) (file digits sev msg : str)
  : Issue :=
  mkIssue (path.basename file) (parseInt digits) 0 (trim msg)
          (lit "static_analysis")
          (Some (getLineContent disk
                   (or_else (find_first (fun f => includes f (path.basename file))
                                        files) file)
                   (parseInt digits)))
          (severityOf sev).

(** ** A compiler diagnostic *)

(** A diagnostic as gcc and clang print it: file, line, column, the
    word error or warning, the message. *)
Definition gccLine (file ln col kind msg : str) : str :=
  file ++ lit ":" ++ ln ++ lit ":" ++ col ++ lit ": " ++ kind ++ lit ": " ++ msg.

Definition gccFields (file ln col kind msg : str) : Prop :=
  file <> [] /\ forallb (none_of ":") file = true /\
  ln <> [] /\ forallb is_digit ln = true /\
  col <> [] /\ forallb is_digit col = true /\
  (kind = lit "error" \/ kind = lit "warning") /\
  forallb dot msg = true /\
  match msg with x :: _ => is_space x = false | [] => False end.

(** The Issue made from the fields of a diagnostic. *)
Definition gccIssue (disk : Disk) (files : list str) (file ln col kind msg : str)
  : Issue :=
  mkIssue (path.basename file) (parseInt ln) (parseInt col) (trim msg)
          (lit "compilation")
          (Some (getLineContent disk
                   (or_else (find_first
                               (fun f => includes f (path.basename file)
                                         || includes (path.basename file)
                                                     (path.basename f)) files)
                            file)
                   (parseInt ln)))
          (severityOf kind).

(** ** An include directive *)

(** A directive with its opening and closing delimiter. *)
Definition includeDirective (op cl : ascii) (name : str) : str :=
  lit "#include " ++ op :: name ++ [cl].

(** ** The run of the command-line tool

    [main] of the command-line tool, entered after the arguments have
    been checked; what it prints is left out.  The result is the exit
    status and the disk afterwards.  An exception raised anywhere (the
    directory cannot be listed) ends the run with status 1. *)

Definition exitStatus (results : Result) : Z :=
  if bool_decide (result_errors results = []) then 0 else 1.

Definition cliMain
    (spawnSync : str -> list str -> Disk -> SpawnResult)
    (readdirSync : Disk -> str -> option (list str))
    (axios : bool) (post : nat -> str -> str -> Outcome)
    (options : Options) (codeDir : str) (disk : Disk) : Z * Disk :=
  let traceback := mkInstance options [] [] [] in
  match analyzeCode spawnSync readdirSync traceback disk codeDir None with
  | None => (1, disk)
  | Some (results, traceback, disk) =>
      (* Get AI fixes if enabled and errors found *)
      let withFixes :=
        if useAI options && negb (bool_decide (result_errors results = [])) then
          match readdirSync disk codeDir with
          | None => None
          | Some listing =>
              let codeFiles :=
                map (fun f => path.join codeDir f)
                    (List.filter isSourceFile listing) in
              let '(_, traceback, _) :=
                getAIFixes axios post disk traceback (result_errors results)
                           codeFiles in
              Some (fixes traceback, traceback)
          end
        else Some (result_fixes results, traceback) in
      match withFixes with
      | None => (1, disk)
      | Some (resultFixes, traceback) =>
          (* Apply fixes if requested *)
          if autoFix options && negb (bool_decide (resultFixes = [])) then
            let '(applied, disk) := applyFixes codeDir resultFixes disk in
            match applied with
            | [] => (exitStatus results, disk)
            | _ :: _ =>
                (* Re-analyze after fixes *)
                match analyzeCode spawnSync readdirSync traceback disk codeDir
                                  None with
                | None => (1, disk)
                | Some (_, _, disk) => (exitStatus results, disk)
                end
            end
          else (exitStatus results, disk)
      end
  end.

(** A listing of the project of the scenarios. *)
Definition listingA : Disk -> str -> option (list str) :=
  fun _ _ => Some [lit "a.c"; lit "notes.txt"].

(** * Properties *)

(** ** Lines of a text *)

Section Lines.

Variable sep : ascii.

Lemma split_not_nil (s : str) : split sep s <> [].
Proof.
  destruct s as [|c s]; simpl; [discriminate|].
  destruct (Ascii.eqb c sep); [discriminate|].
  destruct (split sep s); discriminate.
Qed.

Lemma split_length_pos (s : str) : (0 < length (split sep s))%nat.
Proof.
  pose proof (split_not_nil s). destruct (split sep s); simpl; [done | lia].
Qed.

(** Joining the lines of a text gives the text back. *)
Lemma join_split (s : str) : join [sep] (split sep s) = s.
Proof.
  induction s as [|c s IH]; simpl; [done|].
  destruct (Ascii.eqb_spec c sep) as [->|Hne].
  - pose proof (split_not_nil s) as Hnil.
    simpl. destruct (split sep s) as [|l ls]; [done|].
    simpl in *. by rewrite IH.
  - pose proof (split_not_nil s) as Hnil.
    destruct (split sep s) as [|l ls]; [done|].
    simpl in *. destruct ls; simpl in *; by rewrite <- IH.
Qed.

(** No line of a text contains the separator. *)
Lemma split_sep_free (s : str) : Forall (fun l => sep ∉ l) (split sep s).
Proof.
  induction s as [|c s IH]; simpl.
  - constructor; [apply not_elem_of_nil | constructor].
  - destruct (Ascii.eqb_spec c sep) as [->|Hne].
    + constructor; [apply not_elem_of_nil | done].
    + destruct (split sep s) as [|l ls]; simpl.
      * constructor; [|constructor]. by intros [->|?%elem_of_nil]%elem_of_cons.
      * inversion IH as [|? ? Hl Hls]; subst. constructor; [|done].
        by intros [->|?]%elem_of_cons.
Qed.

Lemma split_sep_free_line (l : str) : sep ∉ l -> split sep l = [l].
Proof.
  induction l as [|c l IH]; intros Hfree; simpl; [done|].
  destruct (Ascii.eqb_spec c sep) as [->|Hne]; [set_solver|].
  rewrite IH; [done | set_solver].
Qed.

Lemma split_app_sep (l rest : str) :
  sep ∉ l -> split sep (l ++ sep :: rest) = l :: split sep rest.
Proof.
  induction l as [|c l IH]; intros Hfree; simpl.
  - by rewrite Ascii.eqb_refl.
  - destruct (Ascii.eqb_spec c sep) as [->|Hne]; [set_solver|].
    rewrite IH; [done | set_solver].
Qed.

(** Splitting joined lines gives the lines back, provided there is at
    least one line and none contains the separator. *)
Lemma split_join (ls : list str) :
  ls <> [] -> Forall (fun l => sep ∉ l) ls -> split sep (join [sep] ls) = ls.
Proof.
  induction ls as [|l ls IH]; intros Hne Hfree; [done|].
  inversion Hfree as [|? ? Hl Hls]; subst.
  destruct ls as [|l' ls'].
  - simpl. by apply split_sep_free_line.
  - change (join [sep] (l :: l' :: ls')) with (l ++ sep :: join [sep] (l' :: ls')).
    rewrite split_app_sep; [|done]. by rewrite IH.
Qed.

End Lines.

(** ** Patch applier *)

Lemma map_get_set (m : FileMap) (k k' : str) (v : list str) :
  map_get (map_set m k v) k' = if bool_decide (k = k') then Some v else map_get m k'.
Proof.
  induction m as [|[k0 v0] m IH]; simpl.
  - done.
  - destruct (decide (k0 = k)) as [->|Hne].
    + rewrite bool_decide_eq_true_2 by done. simpl.
      destruct (decide (k = k')) as [->|Hne'].
      * by rewrite !bool_decide_eq_true_2.
      * by rewrite !bool_decide_eq_false_2.
    + rewrite (bool_decide_eq_false_2 (k0 = k)) by done. simpl.
      rewrite IH.
      destruct (decide (k0 = k')) as [->|Hne'].
      * rewrite bool_decide_eq_true_2 by done.
        by rewrite bool_decide_eq_false_2 by congruence.
      * by rewrite (bool_decide_eq_false_2 (k0 = k')).
Qed.

Lemma applyInv_init disk codeDir : applyInv disk codeDir ([], []).
Proof.
  split; simpl.
  - intros p lines H. discriminate.
  - intros a H. by apply elem_of_nil in H.
Qed.

Lemma applyInv_step disk codeDir st fx :
  applyInv disk codeDir st -> applyInv disk codeDir (applyFix disk codeDir st fx).
Proof.
  destruct st as [fm applied]. intros [Hmap Happ].
  unfold applyFix.
  set (p := path.join codeDir (file (error fx))).
  destruct (fs.existsSync disk p) eqn:Hex; simpl; [|by split].
  set (fm1 := if map_has fm p then fm else map_set fm p (split NL (fs.readFileSync disk p))).
  assert (Hmap1 : forall q lines, map_get fm1 q = Some lines ->
            fs.existsSync disk q = true /\
            length lines = length (split NL (fs.readFileSync disk q))).
  { subst fm1. destruct (map_has fm p); [done|].
    intros q lines. rewrite map_get_set. case_bool_decide as Hq.
    - intros [= <-]. by subst q.
    - apply Hmap. }
  assert (exists lines, map_get fm1 p = Some lines) as [lines Hlines].
  { subst fm1. unfold map_has. case_bool_decide as Hhas.
    - destruct Hhas as [l Hl]. eauto.
    - rewrite map_get_set, bool_decide_eq_true_2 by done. eauto. }
  rewrite Hlines. simpl.
  destruct (Hmap1 _ _ Hlines) as [_ Hlen].
  destruct ((0 <=? line (error fx) - 1) &&
            (line (error fx) - 1 <? Z.of_nat (length lines))) eqn:Hrange.
  - apply andb_true_iff in Hrange as [H0 H1].
    apply Z.leb_le in H0. apply Z.ltb_lt in H1.
    split; simpl.
    + intros q ls. rewrite map_get_set. case_bool_decide as Hq.
      * intros [= <-]. subst q. split; [done|]. by rewrite length_insert.
      * apply Hmap1.
    + intros a [Ha|Ha]%elem_of_app; [by apply Happ|].
      apply list_elem_of_singleton in Ha as ->. simpl.
      exists (error fx). do 2 (split; [done|]).
      split; [done|]. unfold loadedLines. fold p. rewrite <- Hlen. lia.
  - by split.
Qed.

Lemma applyInv_fold disk codeDir fixes st :
  applyInv disk codeDir st ->
  applyInv disk codeDir (fold_left (applyFix disk codeDir) fixes st).
Proof.
  revert st. induction fixes as [|fx fixes IH]; intros st Hst; simpl; [done|].
  apply IH. by apply applyInv_step.
Qed.

(** Every audit record stems from a Fix whose file exists and whose line
    is within the loaded line array. *)
Lemma applied_applicable disk codeDir fixes a :
  a ∈ (applyFixes codeDir fixes disk).1 ->
  exists e, file e = applied_file a /\ line e = applied_line a /\
            applicable disk codeDir e.
Proof.
  unfold applyFixes.
  pose proof (applyInv_fold disk codeDir fixes _ (applyInv_init disk codeDir)) as [_ H].
  destruct (fold_left _ fixes _) as [fm applied]. simpl in *. apply H.
Qed.

Lemma applicable_same_slot disk codeDir (e e' : Issue) :
  file e = file e' -> line e = line e' ->
  applicable disk codeDir e -> applicable disk codeDir e'.
Proof.
  unfold applicable, loadedLines. by intros -> ->.
Qed.

Lemma applicable_dec disk codeDir (e : Issue) :
  applicable disk codeDir e \/ ~ applicable disk codeDir e.
Proof.
  unfold applicable.
  destruct (fs.existsSync disk (path.join codeDir (file e)));
    [|right; by intros [? _]].
  destruct (decide (0 <= line e - 1
                    < Z.of_nat (length (loadedLines disk codeDir e))));
    [by left | right; by intros [_ ?]].
Qed.

Lemma existsSync_true disk p :
  fs.existsSync disk p = true -> disk !! p = Some (fs.readFileSync disk p).
Proof.
  unfold fs.existsSync, fs.readFileSync. intros H.
  apply bool_decide_eq_true_1 in H as [c Hc]. by rewrite Hc.
Qed.

(** A single Fix that cannot be written leaves no audit record and the
    disk as it was. *)
Lemma applyFixes_single_skip disk codeDir fx :
  ~ applicable disk codeDir (error fx) ->
  applyFixes codeDir [fx] disk = ([], disk).
Proof.
  intros Hskip. unfold applyFixes, applyFix. simpl.
  set (p := path.join codeDir (file (error fx))).
  destruct (fs.existsSync disk p) eqn:Hex; simpl; [|done].
  unfold map_has. simpl. rewrite !bool_decide_eq_true_2 by done. simpl.
  destruct ((0 <=? line (error fx) - 1) && _) eqn:Hrange.
  - exfalso. apply Hskip. split; [done|].
    apply andb_true_iff in Hrange as [H0 H1].
    apply Z.leb_le in H0. apply Z.ltb_lt in H1. done.
  - simpl. unfold fs.writeFileSync. rewrite join_split.
    f_equal. apply insert_id. by apply existsSync_true.
Qed.

(** A single Fix that can be written replaces one slot of the line
    array and the file is written back joined. *)
Lemma applyFixes_single_apply disk codeDir fx :
  applicable disk codeDir (error fx) ->
  applyFixes codeDir [fx] disk =
    ([mkApplied (file (error fx)) (line (error fx))
        (default [] (loadedLines disk codeDir (error fx)
                       !! Z.to_nat (line (error fx) - 1)))
        (trim (suggestion fx))],
     <[path.join codeDir (file (error fx)) :=
         join [NL] (<[Z.to_nat (line (error fx) - 1) := trim (suggestion fx)]>
                      (loadedLines disk codeDir (error fx)))]> disk).
Proof.
  intros [Hex [H0 H1]]. unfold applyFixes, applyFix, loadedLines in *. simpl.
  set (p := path.join codeDir (file (error fx))) in *.
  rewrite Hex. simpl.
  unfold map_has. simpl. rewrite !bool_decide_eq_true_2 by done. simpl.
  apply Z.leb_le in H0. apply Z.ltb_lt in H1. rewrite H0, H1. simpl.
  by rewrite ?bool_decide_eq_true_2 by done.
Qed.

(** C9: a Fix whose target file does not exist, or whose line minus one
    is not an index of the loaded line array, is skipped: in any batch,
    no audit record of the returned list carries its file and line, and
    applied on its own it returns the empty list and leaves the disk
    untouched.  [applyFixes] is a total function: nothing is raised. *)
Theorem applyFixes_skips_silently (disk : Disk) (codeDir : str) (fixes : list Fix) (fx : Fix) :
  fs.existsSync disk (path.join codeDir (file (error fx))) = false \/
  ~ (0 <= line (error fx) - 1
       < Z.of_nat (length (loadedLines disk codeDir (error fx)))) ->
  (forall a, a ∈ (applyFixes codeDir fixes disk).1 ->
     ~ (applied_file a = file (error fx) /\ applied_line a = line (error fx))) /\
  applyFixes codeDir [fx] disk = ([], disk).
Proof.
  intros Hskip.
  assert (Hnot : ~ applicable disk codeDir (error fx)).
  { intros [Hex Hrange]. destruct Hskip as [Hmiss|Hout]; [congruence | done]. }
  split.
  - intros a Ha [Hfile Hline].
    destruct (applied_applicable _ _ _ _ Ha) as (e & He1 & He2 & Happ).
    apply Hnot. apply (applicable_same_slot _ _ e); congruence.
  - by apply applyFixes_single_skip.
Qed.

(** Scenario F: line 1000 against a ten-line file. *)
Lemma applyFixes_scenario_F :
  (forall a, a ∈ (applyFixes proj [fixOneLine; fixFar] diskTen).1 ->
     ~ (applied_file a = lit "a.c" /\ applied_line a = 1000)) /\
  applyFixes proj [fixFar] diskTen = ([], diskTen).
Proof.
  apply (applyFixes_skips_silently diskTen proj [fixOneLine; fixFar] fixFar).
  right. vm_compute. intros [_ H]. discriminate H.
Defined.

(** A Fix for a file that is not on disk is skipped as well. *)
Example applyFixes_missing_file :
  applyFixes proj [fixMissing] diskTen = ([], diskTen).
Proof.
  apply applyFixes_single_skip. intros [Hex _]. by vm_compute in Hex.
Qed.

(** C1 (as amended): applying a Fix whose trimmed suggestion has no line
    break twice leaves the same disk as applying it once. *)
Theorem applyFixes_idempotent_one_line (disk : Disk) (codeDir : str) (fx : Fix) :
  NL ∉ trim (suggestion fx) ->
  (applyFixes codeDir [fx] (applyFixes codeDir [fx] disk).2).2
  = (applyFixes codeDir [fx] disk).2.
Proof.
  intros Hone.
  destruct (applicable_dec disk codeDir (error fx)) as [Happ|Hskip].
  2: { rewrite (applyFixes_single_skip _ _ _ Hskip). simpl.
       by rewrite (applyFixes_single_skip _ _ _ Hskip). }
  rewrite (applyFixes_single_apply _ _ _ Happ). simpl.
  set (p := path.join codeDir (file (error fx))).
  set (i := Z.to_nat (line (error fx) - 1)).
  set (lines := loadedLines disk codeDir (error fx)).
  set (lines' := <[i := trim (suggestion fx)]> lines).
  set (disk' := <[p := join [NL] lines']> disk).
  assert (Hfree : Forall (fun l => NL ∉ l) lines').
  { subst lines'. apply Forall_insert; [apply split_sep_free | done]. }
  assert (Hne : lines' <> []).
  { subst lines'. intros Hnil. apply (f_equal length) in Hnil.
    rewrite length_insert in Hnil. pose proof (split_length_pos NL
      (fs.readFileSync disk p)). unfold lines, loadedLines in Hnil.
    fold p in Hnil. simpl in Hnil. lia. }
  assert (Hloaded : loadedLines disk' codeDir (error fx) = lines').
  { unfold loadedLines, fs.readFileSync. fold p. subst disk'.
    rewrite lookup_insert_eq. simpl. by apply split_join. }
  destruct Happ as [Hex Hrange].
  assert (Happ' : applicable disk' codeDir (error fx)).
  { split.
    - fold p. unfold fs.existsSync. subst disk'. rewrite lookup_insert_eq.
      by apply bool_decide_eq_true_2.
    - rewrite Hloaded. subst lines'. by rewrite length_insert. }
  rewrite (applyFixes_single_apply _ _ _ Happ'). simpl.
  rewrite Hloaded. fold p i. subst lines' disk'.
  by rewrite list_insert_insert_eq, insert_insert_eq.
Qed.

(** A one-line Fix for line 2 of the ten-line file, applied twice. *)
Lemma applyFixes_idempotent_one_line_witness :
  (applyFixes proj [fixOneLine] (applyFixes proj [fixOneLine] diskTen).2).2
  = (applyFixes proj [fixOneLine] diskTen).2.
Proof.
  apply (applyFixes_idempotent_one_line diskTen proj fixOneLine).
  apply (bool_decide_unpack _). by vm_compute.
Defined.

(** C1 as stated fails for a suggestion of two lines: the first
    application turns [a/b] into [x/y/b], the second one replaces the
    slot that now holds [x] and leaves [x/y/y/b]. *)
Lemma applyFixes_not_idempotent_two_lines :
  (applyFixes proj [fixTwoLines] diskAB).2 !! lit "proj/a.c"
    = Some (join [NL] [lit "x"; lit "y"; lit "b"]) /\
  (applyFixes proj [fixTwoLines] (applyFixes proj [fixTwoLines] diskAB).2).2
    !! lit "proj/a.c"
    = Some (join [NL] [lit "x"; lit "y"; lit "y"; lit "b"]) /\
  (applyFixes proj [fixTwoLines] (applyFixes proj [fixTwoLines] diskAB).2).2
    <> (applyFixes proj [fixTwoLines] diskAB).2.
Proof.
  split; [by vm_compute|]. split; [by vm_compute|].
  intros H. apply (f_equal (fun d : Disk => d !! lit "proj/a.c")) in H.
  vm_compute in H. discriminate H.
Qed.

(** ** The matcher *)

Lemma startsWith_app (w s : str) : startsWith (w ++ s) w = true.
Proof.
  induction w as [|a w IH]; simpl; [by destruct s|].
  by rewrite Ascii.eqb_refl.
Qed.

Lemma push_Some g gs rest : push g (Some (gs, rest)) = Some (g :: gs, rest).
Proof. done. Qed.

Section Matcher.

Variable k : str -> option (list str * str).

Lemma match_lit_app (w s : str) : match_alt k [w] (w ++ s) = push w (k s).
Proof.
  simpl. rewrite startsWith_app, drop_app_length.
  by destruct (push w (k s)).
Qed.


(** A greedy repetition takes the whole run of the class when the rest
    of the pattern matches after it. *)
Lemma match_rep_greedy_run c min (u s : str) n acc :
  forallb c u = true ->
  match s with x :: _ => c x = false | [] => True end ->
  (min <= n + length u)%nat ->
  is_Some (k s) ->
  match_rep k c min true n acc (u ++ s) = push (rev acc ++ u) (k s).
Proof.
  intros Hu Hs Hmin [[gs rest] Hk]. revert n acc Hu Hmin.
  induction u as [|x u IH]; intros n acc Hu Hmin; simpl in *.
  - rewrite app_nil_r.
    assert (Hle : (min <=? n)%nat = true) by (apply Nat.leb_le; lia).
    destruct s as [|y s']; simpl; rewrite ?Hs; simpl; by rewrite Hle.
  - apply andb_true_iff in Hu as [Hx Hu]. rewrite Hx.
    rewrite IH by (done || lia). simpl.
    rewrite Hk. simpl. by rewrite <- app_assoc.
Qed.



End Matcher.

(** ** Fenced code blocks *)

Lemma rx_scan_skip p (u rest : str) :
  rx_scan p (u ++ rest) (length u) = rx_scan p rest 0.
Proof. induction u as [|x u IH]; simpl; done. Qed.

Lemma rx_remove_all_skip p (u rest : str) :
  rx_remove_all p (u ++ rest) (length u) = rx_remove_all p rest 0.
Proof. induction u as [|x u IH]; simpl; done. Qed.















(** ** Trimming *)

Lemma trimStart_app_nonspace (u s : str) (x : ascii) :
  is_space x = false -> trimStart (u ++ x :: s) = trimStart u ++ x :: s.
Proof.
  intros Hx. induction u as [|c u IH]; simpl; [by rewrite Hx|].
  by destruct (is_space c).
Qed.

Lemma trimEnd_app_nonspace (s u : str) (x : ascii) :
  is_space x = false -> trimEnd (s ++ x :: u) = s ++ x :: trimEnd u.
Proof.
  intros Hx. unfold trimEnd.
  rewrite rev_app_distr. simpl. rewrite <- app_assoc. simpl.
  rewrite trimStart_app_nonspace by done.
  rewrite rev_app_distr. simpl. by rewrite rev_involutive, <- app_assoc.
Qed.

Lemma trimStart_head (s : str) :
  match trimStart s with x :: _ => is_space x = false | [] => True end.
Proof.
  induction s as [|c s IH]; simpl; [done|].
  destruct (is_space c) eqn:Hc; [done|]. by rewrite Hc.
Qed.

Lemma trimStart_fixed (s : str) :
  match s with x :: _ => is_space x = false | [] => True end ->
  trimStart s = s.
Proof. destruct s as [|x s]; simpl; [done|]. by intros ->. Qed.

Lemma trimEnd_idemp (s : str) : trimEnd (trimEnd s) = trimEnd s.
Proof.
  unfold trimEnd. rewrite rev_involutive. f_equal.
  apply trimStart_fixed, trimStart_head.
Qed.

Lemma trim_idemp (s : str) : trim (trim s) = trim s.
Proof.
  unfold trim. pose proof (trimStart_head s) as Hhead.
  destruct (trimStart s) as [|x t] eqn:Ht; [done|].
  pose proof (trimEnd_app_nonspace [] t x Hhead) as E1.
  pose proof (trimEnd_app_nonspace [] (trimEnd t) x Hhead) as E2.
  simpl in E1, E2. rewrite E1. simpl. rewrite Hhead, E2.
  by rewrite trimEnd_idemp.
Qed.


Lemma forallb_rev (P : ascii -> bool) (s : str) :
  forallb P s = true -> forallb P (rev s) = true.
Proof.
  rewrite !forallb_forall. intros H x Hx. apply H. by apply in_rev.
Qed.


(** ** Sanitization of a response with fenced blocks *)

















(** ** Numbered lines *)

Lemma trimStart_spaces (ws : str) : forallb is_space ws = true -> trimStart ws = [].
Proof.
  induction ws as [|c ws IH]; simpl; [done|].
  intros [Hc Hws]%andb_true_iff. rewrite Hc. by apply IH.
Qed.

Lemma trimStart_split (s : str) :
  exists ws, forallb is_space ws = true /\ s = ws ++ trimStart s.
Proof.
  induction s as [|c s (ws & Hws & Hs)]; simpl; [by exists []|].
  destruct (is_space c) eqn:Hc.
  - exists (c :: ws). simpl. rewrite Hc, Hws. split; [done|]. by f_equal.
  - by exists [].
Qed.

Lemma trimEnd_cons_nonspace (x : ascii) (t : str) :
  is_space x = false -> trimEnd (x :: t) = x :: trimEnd t.
Proof. intros Hx. by apply (trimEnd_app_nonspace [] t x). Qed.

Lemma trim_trimEnd (s : str) : trim (trimEnd s) = trim s.
Proof.
  destruct (trimStart_split s) as (ws & Hws & Hs).
  pose proof (trimStart_head s) as Hhead.
  unfold trim at 2. destruct (trimStart s) as [|x t] eqn:Ht.
  - rewrite app_nil_r in Hs. subst ws.
    assert (Hend : trimEnd s = []).
    { unfold trimEnd. by rewrite trimStart_spaces by (by apply forallb_rev). }
    by rewrite Hend.
  - rewrite Hs at 1. rewrite trimEnd_app_nonspace by done.
    unfold trim. rewrite trimStart_app_nonspace by done.
    rewrite (trimStart_spaces ws Hws). simpl.
    rewrite !trimEnd_cons_nonspace by done. by rewrite trimEnd_idemp.
Qed.
















(** The same on whole suggestions: the number goes, the directive and
    the indentation of the inner lines stay. *)
Example sanitize_numbered_examples :
  sanitizeFixSuggestion (lit "12: int x = 0;") = lit "int x = 0;" /\
  sanitizeFixSuggestion (lit "12: #include <stdint.h>") = lit "#include <stdint.h>" /\
  sanitizeFixSuggestion (lit "#define N 12") = lit "#define N 12" /\
  sanitizeFixSuggestion (lit "if (x) {" ++ [NL] ++ lit "  3: y = 1;" ++ [NL]
                         ++ lit "  z = 2;" ++ [NL] ++ lit "}")
  = lit "if (x) {" ++ [NL] ++ lit "y = 1;" ++ [NL] ++ lit "  z = 2;" ++ [NL] ++ lit "}".
Proof. repeat split; by vm_compute. Qed.

(** ** Syntax heuristics *)

(** A line whose trimmed text ends in a backslash raises no Issue. *)
Lemma syntaxLine_continuation (filePath : str) (idx : nat) (line : str) :
  endsWith (trim line) (lit "\") = true -> syntaxLine filePath idx line = [].
Proof.
  intros H. unfold syntaxLine. rewrite H. cbn [negb].
  induction syntaxChecks as [|c cs IH]; [done|].
  cbn [flat_map]. rewrite andb_false_r. done.
Qed.

Lemma syntaxLine_line (filePath : str) (idx : nat) (l : str) (e : Issue) :
  e ∈ syntaxLine filePath idx l ->
  line e = Z.of_nat idx + 1 /\ file e = path.basename filePath /\
  type e = lit "syntax" /\ severity e = lit "error".
Proof.
  unfold syntaxLine. rewrite list_elem_of_In, in_flat_map.
  intros (c & Hc & He).
  assert (Hty : check_type c = lit "syntax").
  { unfold syntaxChecks in Hc. simpl in Hc.
    repeat (destruct Hc as [<-|Hc]; [done|]). done. }
  destruct (rx_test (pattern c) l && _); [|done].
  destruct He as [<-|[]]. done.
Qed.

Lemma elem_of_imap_concat {A B} (f : nat -> A -> list B) (l : list A) (y : B) :
  y ∈ concat (imap f l) -> exists i x, l !! i = Some x /\ y ∈ f i x.
Proof.
  revert f. induction l as [|x l IH]; intros f; simpl.
  - by intros ?%elem_of_nil.
  - intros [H|H]%elem_of_app.
    + by exists 0%nat, x.
    + destruct (IH _ H) as (i & x' & Hi & Hy). by exists (S i), x'.
Qed.

(** Every Issue of the syntax pass on a file sits at a line of that
    file which does not end in a backslash. *)
Lemma syntaxFile_sound (disk : Disk) (filePath : str) (e : Issue) :
  e ∈ syntaxFile disk filePath ->
  exists idx l,
    split NL (fs.readFileSync disk filePath) !! idx = Some l /\
    line e = Z.of_nat idx + 1 /\
    endsWith (trim l) (lit "\") = false.
Proof.
  unfold syntaxFile. destruct (negb (fs.existsSync disk filePath)).
  - by intros ?%elem_of_nil.
  - intros (idx & l & Hl & He)%elem_of_imap_concat.
    exists idx, l. split; [done|].
    split; [by apply (syntaxLine_line filePath idx l e)|].
    destruct (endsWith (trim l) (lit "\")) eqn:Hend; [|done].
    rewrite syntaxLine_continuation in He by done.
    by apply elem_of_nil in He.
Qed.

(** C7: on [a.c] holding the single line [int x] the syntax pass emits
    exactly one Issue, for file [a.c], line 1, of type syntax and
    severity error (with or without a final line break); and a line
    that ends in a line-continuation backslash is exempt from every
    syntax check. *)
Theorem checkSyntax_scenario_A :
  errors (checkSyntax diskIntX [path.join proj (lit "a.c")] fresh) = [issueIntX] /\
  errors (checkSyntax diskIntXNL [path.join proj (lit "a.c")] fresh) = [issueIntX] /\
  (forall (filePath : str) (idx : nat) (l : str),
     endsWith (trim l) (lit "\") = true -> syntaxLine filePath idx l = []) /\
  (forall (disk : Disk) (filePath : str) (e : Issue),
     e ∈ syntaxFile disk filePath ->
     exists idx l,
       split NL (fs.readFileSync disk filePath) !! idx = Some l /\
       line e = Z.of_nat idx + 1 /\
       endsWith (trim l) (lit "\") = false).
Proof.
  split; [by vm_compute|]. split; [by vm_compute|].
  split; [exact syntaxLine_continuation | exact syntaxFile_sound].
Qed.

(** A macro continued on the next line, and the same text without the
    backslash. *)
Lemma checkSyntax_scenario_A_witness :
  syntaxLine (lit "proj/a.c") 0 (lit "#define MASK (1u << 3) | \  ") = [] /\
  syntaxLine (lit "proj/a.c") 0 (lit "#define MASK (1u << 3) | ") <> [].
Proof.
  split.
  - by apply (proj1 (proj2 (proj2 checkSyntax_scenario_A))).
  - by vm_compute.
Defined.

(** ** Repair suggestion engine: the requests made *)

Lemma grows_refl disk codeFiles errs k st : grows disk codeFiles errs k st st.
Proof.
  exists [], []. destruct st as [fixes calls]. simpl. rewrite !app_nil_r.
  split; [done|]. split; [lia|]. split; [constructor | apply sublist_nil_l].
Qed.

Lemma grows_app disk codeFiles errs1 errs2 k1 k2 st1 st2 st3 :
  grows disk codeFiles errs1 k1 st1 st2 -> grows disk codeFiles errs2 k2 st2 st3 ->
  grows disk codeFiles (errs1 ++ errs2) (k1 + k2) st1 st3.
Proof.
  intros (nf1 & n1 & -> & Hl1 & Hc1 & Hf1) (nf2 & n2 & -> & Hl2 & Hc2 & Hf2).
  exists (nf1 ++ nf2), (n1 ++ n2). simpl. rewrite <- !app_assoc.
  split; [done|]. split; [rewrite length_app; lia|]. split.
  - apply Forall_app. split.
    + eapply Forall_impl; [exact Hc1|]. intros c (e & He & Hc).
      exists e. split; [|done]. apply elem_of_app. by left.
    + eapply Forall_impl; [exact Hc2|]. intros c (e & He & Hc).
      exists e. split; [|done]. apply elem_of_app. by right.
  - rewrite map_app. by apply sublist_app.
Qed.

Section RepairFacts.

Variable post : nat -> str -> str -> Outcome.
Variable primaryModel fallbackModel_ : str.

(** The attempts for one error only add requests, at most one per
    model, all with the prompt of that error; a Fix they produce is a
    Fix for that error. *)
Lemma tryModels_calls (e : Issue) (prompt : str) (models : list str)
    (calls : Calls) :
  exists new : Calls,
    (tryModels post primaryModel fallbackModel_ e prompt models calls).2
      = calls ++ new /\
    (length new <= length models)%nat /\
    Forall (fun c => c.2 = prompt) new /\
    (forall f, (tryModels post primaryModel fallbackModel_ e prompt models calls).1
               = Finished (Some f) -> error f = e).
Proof.
  revert calls. induction models as [|model models IH]; intros calls.
  - exists []. simpl. rewrite app_nil_r. repeat split; [lia | constructor | done].
  - cbn [tryModels].
    destruct (outcomeText (post (length calls) model prompt)) as [text|innerErr].
    + exists [(model, prompt)]. cbn [fst snd].
      split; [done|]. split; [simpl; lia|]. split; [by repeat constructor|].
      intros f. unfold fixOf.
      destruct (truthy (sanitizeFixSuggestion text)); [|done].
      by intros [= <-].
    + destruct (continueWithNext fallbackModel_ model innerErr).
      * destruct (IH (calls ++ [(model, prompt)])) as (new & Heq & Hlen & Hall & Hfix).
        exists ((model, prompt) :: new). rewrite Heq, <- app_assoc.
        split; [done|]. split; [simpl; lia|]. split; [by constructor | done].
      * exists [(model, prompt)]. cbn [fst snd].
        split; [done|]. split; [simpl; lia|]. split; [by repeat constructor | done].
Qed.

Lemma modelsToTry_length :
  (length (modelsToTry primaryModel fallbackModel_) <= 2)%nat.
Proof.
  unfold modelsToTry. destruct (truthy fallbackModel_ && _); simpl; lia.
Qed.

Lemma modelsToTry_single :
  fallbackModel_ = [] \/ fallbackModel_ = primaryModel ->
  modelsToTry primaryModel fallbackModel_ = [primaryModel].
Proof.
  unfold modelsToTry. intros [->| ->]; [done|].
  rewrite bool_decide_eq_true_2 by done. by rewrite andb_false_r.
Qed.

(** One round of the loop over the errors. *)
Lemma tryModels_grows (disk : Disk) (codeFiles : list str) (e : Issue)
    (fixes : list Fix) (calls : Calls) :
  let r := tryModels post primaryModel fallbackModel_ e
             (buildPrompt disk codeFiles e)
             (modelsToTry primaryModel fallbackModel_) calls in
  grows disk codeFiles [e] (length (modelsToTry primaryModel fallbackModel_))
        (fixes, calls)
        (match r.1 with Finished (Some f) => fixes ++ [f] | _ => fixes end, r.2).
Proof.
  intros r.
  destruct (tryModels_calls e (buildPrompt disk codeFiles e)
              (modelsToTry primaryModel fallbackModel_) calls)
    as (new & Heq & Hlen & Hall & Hfix).
  fold r in Heq, Hfix.
  exists (match r.1 with Finished (Some f) => [f] | _ => [] end), new.
  rewrite Heq. cbn [fst snd]. split.
  - f_equal. destruct r.1 as [[f|]|]; by rewrite ?app_nil_r.
  - split; [done|]. split.
    + eapply Forall_impl; [exact Hall|]. intros c Hc. exists e.
      split; [by left | done].
    + destruct r.1 as [[f|]|]; [|apply sublist_nil_l..].
      simpl. by rewrite (Hfix f eq_refl).
Qed.

(** The loop over the errors only adds requests, at most one per model
    and error, each with the prompt of one of the errors; and it only
    adds Fixes, each for one of the errors. *)
Lemma processErrors_grows (disk : Disk) (codeFiles : list str) (errs : list Issue)
    (fixes : list Fix) (calls : Calls) :
  grows disk codeFiles errs
        (length (modelsToTry primaryModel fallbackModel_) * length errs)
        (fixes, calls)
        (processErrors post primaryModel fallbackModel_ disk codeFiles errs
                       fixes calls).
Proof.
  revert fixes calls. induction errs as [|e errs IH]; intros fixes calls.
  - apply grows_refl.
  - cbn [processErrors].
    pose proof (tryModels_grows disk codeFiles e fixes calls) as Hstep.
    cbv zeta in Hstep.
    destruct (tryModels post primaryModel fallbackModel_ e
                (buildPrompt disk codeFiles e)
                (modelsToTry primaryModel fallbackModel_) calls)
      as [attempt calls1].
    cbn [fst snd] in Hstep.
    replace (length (modelsToTry primaryModel fallbackModel_) * length (e :: errs))%nat
      with (length (modelsToTry primaryModel fallbackModel_)
            + length (modelsToTry primaryModel fallbackModel_) * length errs)%nat
      by (simpl; lia).
    change (e :: errs) with ([e] ++ errs).
    destruct attempt as [[f|]|err].
    + eapply grows_app; [exact Hstep | apply IH].
    + eapply grows_app; [exact Hstep | apply IH].
    + destruct (isTimeoutOuter err).
      * eapply grows_app; [exact Hstep | apply IH].
      * eapply grows_app; [exact Hstep | apply grows_refl].
Qed.

End RepairFacts.

(** C3 (as amended): only the first five errors are processed, in the
    order supplied, with at most one request per model to try for each:
    at most ten requests in all, and at most five when no fallback model
    other than the primary one is configured (as by default).  Every
    request carries the prompt of one of the first five errors, and the
    Fixes are for errors among the first five, in the order supplied,
    at most one for each. *)
Theorem getAIFixes_request_bound (axios : bool) (post : nat -> str -> str -> Outcome)
    (disk : Disk) (t : Instance) (errs : list Issue) (codeFiles : list str) :
  let fixes := (getAIFixes axios post disk t errs codeFiles).1.1 in
  let calls := (getAIFixes axios post disk t errs codeFiles).2 in
  (length calls <= 2 * Nat.min 5 (length errs))%nat /\
  (length calls <= 10)%nat /\
  (fallbackModel (options t) = [] \/ fallbackModel (options t) = primaryOf t ->
   (length calls <= 5)%nat) /\
  Forall (fun c => exists e, e ∈ take 5 errs /\ c.2 = buildPrompt disk codeFiles e) calls /\
  map error fixes `sublist_of` take 5 errs.
Proof.
  cbv zeta. unfold getAIFixes.
  destruct (negb axios || negb (useAI (options t))).
  { cbn [fst snd length map]. split; [lia|]. split; [lia|]. split; [lia|].
    split; [constructor | apply sublist_nil_l]. }
  pose proof (processErrors_grows post (primaryOf t) (fallbackModel (options t))
                disk codeFiles (take 5 errs) [] [])
    as (newFixes & new & Heq & Hlen & Hcalls & Hfixes).
  cbn [fst snd app] in Heq. rewrite Heq. cbn [fst snd].
  rewrite length_take in Hlen.
  pose proof (modelsToTry_length (primaryOf t) (fallbackModel (options t))) as H2.
  assert (Hmin : (Nat.min 5 (length errs) <= 5)%nat) by lia.
  assert (Hsingle : fallbackModel (options t) = []
                    \/ fallbackModel (options t) = primaryOf t ->
                    (length new <= 5)%nat).
  { intros Hsingle. rewrite (modelsToTry_single _ _ Hsingle) in Hlen.
    cbn [length] in Hlen. lia. }
  revert Hlen H2 Hmin.
  generalize (length (modelsToTry (primaryOf t) (fallbackModel (options t)))).
  generalize (Nat.min 5 (length errs)). intros m k Hlen H2 Hmin.
  split; [nia|]. split; [nia|]. done.
Qed.

(** Eight errors, the default options and a service that times out. *)
Lemma getAIFixes_request_bound_witness :
  (length (getAIFixes true alwaysTimeout diskReturn fresh eightErrors
                      [lit "proj/a.c"]).2 <= 5)%nat.
Proof.
  apply (getAIFixes_request_bound true alwaysTimeout diskReturn fresh eightErrors
                                  [lit "proj/a.c"]).
  right. by vm_compute.
Defined.

(** C3 as stated fails when a fallback model is configured: with eight
    errors and a service that times out, each of the first five errors
    costs a request to the primary model and one to the fallback. *)
Lemma getAIFixes_ten_requests :
  map fst (getAIFixes true alwaysTimeout diskReturn withFallback eightErrors
                      [lit "proj/a.c"]).2
  = map lit ["small"; "large"; "small"; "large"; "small"; "large";
             "small"; "large"; "small"; "large"]%string /\
  ~ (length (getAIFixes true alwaysTimeout diskReturn withFallback eightErrors
                        [lit "proj/a.c"]).2 <= 5)%nat.
Proof.
  split; [by vm_compute|]. vm_compute. lia.
Qed.

(** ** Repair suggestion engine: the retry policy *)

Lemma optionFix_app (fixes : list Fix) (o : option Fix) :
  match o with Some f => fixes ++ [f] | None => fixes end
  = fixes ++ option_list o.
Proof. destruct o; simpl; by rewrite ?app_nil_r. Qed.

(** C2 (as amended): with a fallback model configured that differs from
    the primary one, a primary request that fails with the
    resource-exhaustion signal or a timeout is followed by one request
    to the fallback model for the same error.  If that one fails too,
    the error is skipped and the batch goes on when the failure is a
    timeout, and the rest of the batch is dropped otherwise, a
    resource-exhaustion failure included.  A primary failure of another
    kind drops the rest of the batch (it is skipped when its message
    mentions a timeout).  In every case the Fixes produced so far are
    returned. *)
Theorem getAIFixes_retry_policy (post : nat -> str -> str -> Outcome)
    (primary fallback : str) (disk : Disk) (codeFiles : list str)
    (e : Issue) (rest : list Issue) (fixes : list Fix) (calls : Calls) :
  truthy fallback = true -> fallback <> primary ->
  let p := buildPrompt disk codeFiles e in
  let first := outcomeText (post (length calls) primary p) in
  let second := outcomeText (post (S (length calls)) fallback p) in
  let run := processErrors post primary fallback disk codeFiles in
  (forall e1, first = inr e1 -> isOutOfMemory e1 || isTimeoutInner e1 = true ->
     run (e :: rest) fixes calls =
       match second with
       | inl text =>
           run rest (fixes ++ option_list (fixOf e text 7))
               (calls ++ [(primary, p); (fallback, p)])
       | inr e2 =>
           if isTimeoutOuter e2
           then run rest fixes (calls ++ [(primary, p); (fallback, p)])
           else (fixes, calls ++ [(primary, p); (fallback, p)])
       end) /\
  (forall e1, first = inr e1 -> isOutOfMemory e1 || isTimeoutInner e1 = false ->
     run (e :: rest) fixes calls =
       if isTimeoutOuter e1 then run rest fixes (calls ++ [(primary, p)])
       else (fixes, calls ++ [(primary, p)])) /\
  (exists more, (run (e :: rest) fixes calls).1 = fixes ++ more).
Proof.
  intros Htruthy Hneq p first second run.
  assert (Hmodels : modelsToTry primary fallback = [primary; fallback]).
  { unfold modelsToTry. rewrite Htruthy.
    by rewrite bool_decide_eq_false_2 by done. }
  assert (Hprim : notFallback fallback primary = true).
  { unfold notFallback. rewrite Htruthy.
    by rewrite bool_decide_eq_false_2 by congruence. }
  assert (Hfb : notFallback fallback fallback = false).
  { unfold notFallback. rewrite Htruthy. by rewrite bool_decide_eq_true_2. }
  assert (Hlen : length (calls ++ [(primary, p)]) = S (length calls))
    by (rewrite length_app; simpl; lia).
  split; [|split].
  - intros e1 Hfirst Hretry. subst run. cbn [processErrors].
    fold p. rewrite Hmodels. cbn [tryModels].
    fold first. rewrite Hfirst.
    assert (Hcont : continueWithNext fallback primary e1 = true).
    { unfold continueWithNext. rewrite Hprim, Htruthy, !andb_true_r. done. }
    rewrite Hcont, Hlen. fold second.
    rewrite <- app_assoc. cbn [app].
    destruct second as [text|e2].
    + rewrite bool_decide_eq_false_2 by done.
      rewrite <- optionFix_app. by destruct (fixOf e text 7).
    + assert (Hstop : continueWithNext fallback fallback e2 = false).
      { unfold continueWithNext. rewrite Hfb, !andb_false_r. done. }
      by rewrite Hstop.
  - intros e1 Hfirst Hother. subst run. cbn [processErrors].
    fold p. rewrite Hmodels. cbn [tryModels].
    fold first. rewrite Hfirst.
    assert (Hcont : continueWithNext fallback primary e1 = false).
    { unfold continueWithNext. rewrite Hprim, Htruthy, !andb_true_r. done. }
    by rewrite Hcont.
  - pose proof (processErrors_grows post primary fallback disk codeFiles
                  (e :: rest) fixes calls) as (more & new & Heq & _).
    exists more. subst run. by rewrite Heq.
Qed.

(** Two errors; the primary and the fallback model both time out on the
    first one, which is skipped. *)
Lemma getAIFixes_retry_policy_witness :
  processErrors timeoutThenAnswer (lit "small") (lit "large") diskReturn
                [lit "proj/a.c"] twoErrors [] []
  = processErrors timeoutThenAnswer (lit "small") (lit "large") diskReturn
                  [lit "proj/a.c"] [issueReturn 3] []
                  [(lit "small", buildPrompt diskReturn [lit "proj/a.c"] (issueReturn 2));
                   (lit "large", buildPrompt diskReturn [lit "proj/a.c"] (issueReturn 2))].
Proof.
  destruct (getAIFixes_retry_policy timeoutThenAnswer (lit "small") (lit "large")
              diskReturn [lit "proj/a.c"] (issueReturn 2) [issueReturn 3] [] [])
    as (Hretry & _ & _); [done | done |].
  apply (Hretry timeoutError); done.
Defined.

(** Timeouts on both models for the first error: it is skipped and the
    second error gets its Fix from the primary model. *)
Example getAIFixes_timeout_continues :
  timeoutRun.1.1 = [mkFix (issueReturn 3) (lit "return y;") 8] /\
  map fst timeoutRun.2 = [lit "small"; lit "large"; lit "small"].
Proof. by vm_compute. Qed.

(** C2 as stated fails when the fallback model fails with the
    resource-exhaustion signal: the batch does not go on.  The second
    error is never sent to the service, which would have answered it,
    and no Fix is returned. *)
Lemma getAIFixes_memory_aborts :
  isOutOfMemory memoryError = true /\
  memoryRun.1.1 = [] /\
  memoryRun.2 = [(lit "small", promptFor 2); (lit "large", promptFor 2)] /\
  memoryThenAnswer 2 (lit "small") (promptFor 3)
  = Reply (BodyString (lit "return y;")).
Proof. by vm_compute. Qed.

(** ** Soundness of the matcher *)

Lemma push_inv g r gs rest :
  push g r = Some (gs, rest) ->
  exists gs', gs = g :: gs' /\ r = Some (gs', rest).
Proof.
  destruct r as [[gs' rest']|]; simpl; [|done].
  intros [= <- <-]. by exists gs'.
Qed.

Lemma startsWith_prefix (s w : str) :
  startsWith s w = true -> s = w ++ drop (length w) s.
Proof.
  revert s. induction w as [|a w IH]; intros s; simpl.
  - by rewrite drop_0.
  - destruct s as [|b s]; [done|].
    intros [Hab Hw]%andb_true_iff. apply Ascii.eqb_eq in Hab as ->.
    simpl. f_equal. by apply IH.
Qed.

Section MatcherSound.

Variable k : str -> option (list str * str).
Variable p' : list atom.
Hypothesis k_sound : forall s gs rest,
  k s = Some (gs, rest) -> Forall2 accepts p' gs /\ s = concat gs ++ rest.

Lemma match_rep_sound c min greedy (s : str) n acc gs rest :
  forallb c acc = true -> n = length acc ->
  match_rep k c min greedy n acc s = Some (gs, rest) ->
  Forall2 accepts (Rep c min greedy :: p') gs /\ rev acc ++ s = concat gs ++ rest.
Proof.
  revert n acc. induction s as [|x s IH]; intros n acc Hacc Hn.
  - assert (Hstop : (if (min <=? n)%nat then push (rev acc) (k []) else None)
                    = Some (gs, rest) ->
                    Forall2 accepts (Rep c min greedy :: p') gs
                    /\ rev acc ++ [] = concat gs ++ rest).
    { destruct (Nat.leb_spec min n) as [Hle|]; [|done].
      intros (gs' & -> & Hk)%push_inv.
      destruct (k_sound _ _ _ Hk) as [Hgs Hs]. split.
      - constructor; [|done]. split; [by apply forallb_rev|].
        rewrite length_rev. lia.
      - simpl. rewrite <- app_assoc. by f_equal. }
    simpl. destruct greedy; simpl; [exact Hstop|].
    intros H. apply Hstop.
    by destruct (if (min <=? n)%nat then push (rev acc) (k []) else None).
  - assert (Hstop : (if (min <=? n)%nat then push (rev acc) (k (x :: s)) else None)
                    = Some (gs, rest) ->
                    Forall2 accepts (Rep c min greedy :: p') gs
                    /\ rev acc ++ x :: s = concat gs ++ rest).
    { destruct (Nat.leb_spec min n) as [Hle|]; [|done].
      intros (gs' & -> & Hk)%push_inv.
      destruct (k_sound _ _ _ Hk) as [Hgs Hs]. split.
      - constructor; [|done]. split; [by apply forallb_rev|].
        rewrite length_rev. lia.
      - simpl. rewrite <- app_assoc. by f_equal. }
    assert (Hmore : (if c x then match_rep k c min greedy (S n) (x :: acc) s else None)
                    = Some (gs, rest) ->
                    Forall2 accepts (Rep c min greedy :: p') gs
                    /\ rev acc ++ x :: s = concat gs ++ rest).
    { destruct (c x) eqn:Hx; [|done]. intros Hm.
      apply IH in Hm; [|by simpl; rewrite Hx|by simpl; rewrite Hn].
      destruct Hm as [Hgs Hs]. split; [done|].
      rewrite <- Hs. simpl. by rewrite <- app_assoc. }
    cbn [match_rep]. destruct greedy; cbn [orelse].
    + destruct (if c x then _ else None) as [r|] eqn:Hm.
      * intros [= ->]. by apply Hmore.
      * exact Hstop.
    + destruct (if (min <=? n)%nat then _ else None) as [r|] eqn:Hm.
      * intros [= ->]. by apply Hstop.
      * exact Hmore.
Qed.

Lemma match_char_sound c (s : str) gs rest :
  match_char k c s = Some (gs, rest) ->
  exists x gs', gs = [x] :: gs' /\ c x = true /\ Forall2 accepts p' gs'
                /\ s = x :: concat gs' ++ rest.
Proof.
  destruct s as [|x s]; simpl; [done|].
  destruct (c x) eqn:Hx; [|done].
  intros (gs' & -> & Hk)%push_inv.
  destruct (k_sound _ _ _ Hk) as [Hgs Hs].
  exists x, gs'. by rewrite Hs.
Qed.

Lemma match_alt_sound ws (s : str) gs rest :
  match_alt k ws s = Some (gs, rest) ->
  Forall2 accepts (Alt ws :: p') gs /\ s = concat gs ++ rest.
Proof.
  assert (Hgen : forall ws0, match_alt k ws0 s = Some (gs, rest) ->
            exists w gs', w ∈ ws0 /\ gs = w :: gs' /\ Forall2 accepts p' gs'
                          /\ s = w ++ concat gs' ++ rest).
  { induction ws0 as [|w ws0 IH]; simpl; [done|].
    destruct (startsWith s w) eqn:Hw.
    - destruct (push w (k (drop (length w) s))) as [r|] eqn:Hp; simpl.
      + intros [= ->]. apply push_inv in Hp as (gs' & -> & Hk).
        destruct (k_sound _ _ _ Hk) as [Hgs Hs].
        exists w, gs'. split; [by left|]. split; [done|]. split; [done|].
        rewrite <- Hs. by apply startsWith_prefix.
      + intros H. destruct (IH H) as (w' & gs' & Hin & Hrest).
        exists w', gs'. split; [by right | done].
    - simpl. intros H. destruct (IH H) as (w' & gs' & Hin & Hrest).
      exists w', gs'. split; [by right | done]. }
  intros H. destruct (Hgen ws H) as (w & gs' & Hin & -> & Hgs & Hs).
  split; [by constructor|]. simpl. by rewrite <- app_assoc.
Qed.

End MatcherSound.

(** A match consumes, atom by atom, texts that the atoms accept, and
    these texts followed by the rest are the input. *)
Lemma rx_match_sound (p : list atom) (s : str) gs rest :
  rx_match p s = Some (gs, rest) ->
  Forall2 accepts p gs /\ s = concat gs ++ rest.
Proof.
  revert s gs rest. induction p as [|a p IH]; intros s gs rest.
  - simpl. intros [= <- <-]. split; [constructor | done].
  - cbn [rx_match]. destruct a as [c|ws|c min greedy|c|].
    + intros (x & gs' & -> & Hx & Hgs & ->)%(match_char_sound _ p IH).
      split; [|done]. constructor; [|done]. by exists x.
    + by apply match_alt_sound.
    + intros H. apply (match_rep_sound _ p IH) in H; [|done|done]. done.
    + unfold match_opt.
      destruct (match_char (rx_match p) c s) as [r|] eqn:Hc; cbn [orelse].
      * intros [= ->].
        apply (match_char_sound _ p IH) in Hc as (x & gs' & -> & Hx & Hgs & ->).
        split; [|done]. constructor; [|done]. right. by exists x.
      * intros (gs' & -> & Hk)%push_inv. destruct (IH _ _ _ Hk) as [Hgs Hs].
        split; [|done]. constructor; [|done]. by left.
    + unfold match_eol. destruct (at_eol s); [|done].
      intros (gs' & -> & Hk)%push_inv. destruct (IH _ _ _ Hk) as [Hgs Hs].
      split; [|done]. by constructor.
Qed.

Lemma rx_scan_sound (p : list atom) (s : str) (skip : nat) :
  Forall (Forall2 accepts p) (rx_scan p s skip).
Proof.
  revert skip. induction s as [|x s IH]; intros skip.
  - destruct skip; simpl; [|constructor].
    destruct (rx_match p []) as [[gs rest]|] eqn:Hm; [|constructor].
    constructor; [|constructor]. by apply rx_match_sound in Hm as [? _].
  - destruct skip; cbn [rx_scan]; [|apply IH].
    destruct (rx_match p (x :: s)) as [[gs rest]|] eqn:Hm; [|apply IH].
    constructor; [|apply IH]. by apply rx_match_sound in Hm as [? _].
Qed.

(** ** Severity and line of every Issue *)

Lemma parseInt_nonneg (digits : str) :
  forallb is_digit digits = true -> 0 <= parseInt digits.
Proof.
  assert (Hgen : forall acc, 0 <= acc -> forallb is_digit digits = true ->
            0 <= fold_left (fun acc d => 10 * acc + (Z.of_nat (code_of d) - 48))
                           digits acc).
  { induction digits as [|d ds IH]; intros a Ha; simpl; [done|].
    intros [Hd Hds]%andb_true_iff. apply IH; [|done].
    unfold is_digit in Hd. apply andb_true_iff in Hd as [Hlo _].
    apply Nat.leb_le in Hlo. lia. }
  intros H. by apply Hgen.
Qed.

Lemma sorted_pushError opts t e :
  sorted opts t -> okError e -> sorted opts (pushError e t).
Proof.
  intros (Ho & He & Hw) Hok. split; [done|]. split; [|done].
  simpl. apply Forall_app. split; [done|]. by constructor.
Qed.

Lemma sorted_pushWarning opts t w :
  sorted opts t -> okWarning w -> sorted opts (pushWarning w t).
Proof.
  intros (Ho & He & Hw) Hok. split; [done|]. split; [done|].
  simpl. apply Forall_app. split; [done|]. by constructor.
Qed.

Lemma sorted_pushIssue opts t (b : bool) e :
  sorted opts t -> 0 <= line e ->
  severity e = (if b then lit "error" else lit "warning") ->
  sorted opts (pushIssue b e t).
Proof.
  intros Ht Hline Hsev. destruct b; simpl.
  - by apply sorted_pushError.
  - by apply sorted_pushWarning.
Qed.

Lemma severityOf_matches (s : str) :
  severityOf s = if bool_decide (s = lit "error") then lit "error" else lit "warning".
Proof. done. Qed.

(** A fold that adds checked Issues keeps the instance sorted. *)
Lemma sorted_fold {A} opts (f : Instance -> A -> Instance) (l : list A)
    (P : A -> Prop) t :
  (forall t x, sorted opts t -> P x -> sorted opts (f t x)) ->
  Forall P l -> sorted opts t -> sorted opts (fold_left f l t).
Proof.
  intros Hstep Hl. revert t. induction Hl as [|x l Hx _ IH]; intros t Ht; simpl.
  - done.
  - apply IH. by apply Hstep.
Qed.

(** The texts of a match, one per atom of the pattern. *)
Ltac split_groups H :=
  repeat (apply Forall2_cons_inv_l in H as (? & ? & ? & H & ->));
  apply Forall2_nil_inv_l in H as ->.

Ltac digits_of_group :=
  match goal with
  | |- forallb is_digit ?g = true =>
      match goal with
      | Hg : accepts (Rep is_digit _ _) g |- _ => by destruct Hg
      end
  end.

Lemma compilerIssue_ok disk files gs b e :
  Forall2 accepts errorRegex gs -> compilerIssue disk files gs = Some (b, e) ->
  0 <= line e /\ severity e = (if b then lit "error" else lit "warning").
Proof.
  unfold errorRegex. intros H. split_groups H.
  simpl. intros [= <- <-]. simpl. split; [|done].
  apply parseInt_nonneg. digits_of_group.
Qed.

Lemma cppcheckIssue_ok disk files gs b e :
  Forall2 accepts cppcheckRegex gs -> cppcheckIssue disk files gs = Some (b, e) ->
  0 <= line e /\ severity e = (if b then lit "error" else lit "warning").
Proof.
  unfold cppcheckRegex. intros H. split_groups H.
  simpl. intros [= <- <-]. simpl. split; [|done].
  apply parseInt_nonneg. digits_of_group.
Qed.

Lemma clangTidyIssue_ok disk files gs b e :
  Forall2 accepts clangTidyRegex gs -> clangTidyIssue disk files gs = Some (b, e) ->
  0 <= line e /\ severity e = (if b then lit "error" else lit "warning").
Proof.
  unfold clangTidyRegex. intros H. split_groups H.
  simpl. intros [= <- <-]. simpl. split; [|done].
  apply parseInt_nonneg. digits_of_group.
Qed.

Lemma parseCompilerErrors_sorted opts disk output files t :
  sorted opts t -> sorted opts (parseCompilerErrors disk output files t).
Proof.
  intros Ht. unfold parseCompilerErrors.
  set (t1 := fold_left _ (rx_scan errorRegex output 0) t).
  assert (Ht1 : sorted opts t1).
  { apply (sorted_fold opts _ _ (Forall2 accepts errorRegex));
      [|apply rx_scan_sound|done].
    intros t0 gs Ht0 Hgs.
    destruct (compilerIssue disk files gs) as [[b e]|] eqn:Hc; [|done].
    destruct (compilerIssue_ok _ _ _ _ _ Hgs Hc). by apply sorted_pushIssue. }
  destruct (bool_decide (errors t1 = []) && includes output (lit "error:"));
    [|done].
  apply (sorted_fold opts _ _ (fun _ => True)); [|by apply Forall_true|done].
  intros t0 l Ht0 _. by apply sorted_pushError.
Qed.

Lemma parseCppcheckOutput_sorted opts disk output files t :
  sorted opts t -> sorted opts (parseCppcheckOutput disk output files t).
Proof.
  intros Ht. unfold parseCppcheckOutput.
  apply (sorted_fold opts _ _ (Forall2 accepts cppcheckRegex));
    [|apply rx_scan_sound|done].
  intros t0 gs Ht0 Hgs.
  destruct (cppcheckIssue disk files gs) as [[b e]|] eqn:Hc; [|done].
  destruct (cppcheckIssue_ok _ _ _ _ _ Hgs Hc). by apply sorted_pushIssue.
Qed.

Lemma parseClangTidyOutput_sorted opts disk output files t :
  sorted opts t -> sorted opts (parseClangTidyOutput disk output files t).
Proof.
  intros Ht. unfold parseClangTidyOutput.
  apply (sorted_fold opts _ _ (Forall2 accepts clangTidyRegex));
    [|apply rx_scan_sound|done].
  intros t0 gs Ht0 Hgs.
  destruct (clangTidyIssue disk files gs) as [[b e]|] eqn:Hc; [|done].
  destruct (clangTidyIssue_ok _ _ _ _ _ Hgs Hc). by apply sorted_pushIssue.
Qed.

Lemma syntaxFile_ok disk filePath : Forall okError (syntaxFile disk filePath).
Proof.
  apply Forall_forall. intros e He. unfold syntaxFile in He.
  destruct (negb (fs.existsSync disk filePath)); [by apply elem_of_nil in He|].
  apply elem_of_imap_concat in He as (idx & l & _ & He).
  apply syntaxLine_line in He as (Hline & _ & _ & Hsev).
  split; [done | lia].
Qed.

Lemma checkSyntax_sorted opts disk files t :
  sorted opts t -> sorted opts (checkSyntax disk files t).
Proof.
  intros Ht. unfold checkSyntax.
  apply (sorted_fold opts _ _ (fun _ => True)); [|by apply Forall_true|done].
  intros t0 f Ht0 _.
  apply (sorted_fold opts _ _ okError); [|apply syntaxFile_ok|done].
  intros t1 e Ht1 He. by apply sorted_pushError.
Qed.

Lemma qualityFile_ok disk filePath : Forall okWarning (qualityFile disk filePath).
Proof.
  apply Forall_forall. intros w Hw. unfold qualityFile in Hw.
  destruct (negb (fs.existsSync disk filePath)); [by apply elem_of_nil in Hw|].
  apply elem_of_imap_concat in Hw as (idx & l & _ & Hw).
  unfold qualityLine in Hw. apply elem_of_app in Hw as [Hw|Hw].
  - destruct (includes l (lit "volatile") && _ && _); [|by apply elem_of_nil in Hw].
    apply list_elem_of_singleton in Hw as ->. split; [done | simpl; lia].
  - destruct (rx_test declarationRegex l && _ && _ && _);
      [|by apply elem_of_nil in Hw].
    apply list_elem_of_singleton in Hw as ->. split; [done | simpl; lia].
Qed.

Lemma checkCodeQuality_sorted opts disk files t :
  sorted opts t -> sorted opts (checkCodeQuality disk files t).
Proof.
  intros Ht. unfold checkCodeQuality.
  apply (sorted_fold opts _ _ (fun _ => True)); [|by apply Forall_true|done].
  intros t0 f Ht0 _.
  apply (sorted_fold opts _ _ okWarning); [|apply qualityFile_ok|done].
  intros t1 e Ht1 He. by apply sorted_pushWarning.
Qed.

Section AnalysisFacts.

Variable spawnSync : str -> list str -> Disk -> SpawnResult.
Variable readdirSync : Disk -> str -> option (list str).

Lemma checkCompilation_sorted opts disk codeDir files t :
  sorted opts t -> sorted opts (checkCompilation spawnSync disk codeDir files t).1.
Proof.
  intros Ht. unfold checkCompilation.
  destruct (filter _ files); [done|]. cbv zeta.
  destruct (bool_decide (status _ = Some 0)); simpl; [done|].
  by apply parseCompilerErrors_sorted.
Qed.

Lemma runStaticAnalysis_sorted opts disk files t :
  sorted opts t -> sorted opts (runStaticAnalysis spawnSync disk files t).
Proof.
  intros Ht. unfold runStaticAnalysis.
  assert (Hcpp : sorted opts (runCppcheck spawnSync disk files t)).
  { unfold runCppcheck. destruct (filter _ files); [done|]. cbv zeta.
    destruct (truthy _); [|done]. by apply parseCppcheckOutput_sorted. }
  unfold runClangTidy. destruct (filter _ files); [done|]. cbv zeta.
  destruct (truthy _); [|done]. by apply parseClangTidyOutput_sorted.
Qed.

(** What [analyzeCode] returns is what the passes leave in the instance,
    and that instance is sorted and keeps its options. *)
Lemma analyzeCode_sorted t disk codeDir files r t' disk' :
  analyzeCode spawnSync readdirSync t disk codeDir files = Some (r, t', disk') ->
  sorted (options t) t' /\
  result_errors r = errors t' /\ result_warnings r = warnings t'.
Proof.
  unfold analyzeCode.
  destruct (match files with Some fl => Some fl | None => _ end) as [fl|]; [|done].
  set (t0 := mkInstance (options t) [] [] []).
  assert (H0 : sorted (options t) t0) by (by repeat split; constructor).
  set (codeFiles := map _ fl).
  pose proof (checkSyntax_sorted _ disk codeFiles _ H0) as H1.
  set (t1 := checkSyntax disk codeFiles t0) in *.
  pose proof (checkCompilation_sorted _ disk codeDir codeFiles _ H1) as H2.
  destruct (useCompiler (options t1)).
  - destruct (checkCompilation spawnSync disk codeDir codeFiles t1) as [t2 disk2].
    simpl in H2.
    pose proof (runStaticAnalysis_sorted _ disk2 codeFiles _ H2) as H3.
    destruct (useStaticAnalysis (options t2)).
    + intros [= <- <- <-]. split; [|done]. by apply checkCodeQuality_sorted.
    + intros [= <- <- <-]. split; [|done]. by apply checkCodeQuality_sorted.
  - pose proof (runStaticAnalysis_sorted _ disk codeFiles _ H1) as H3.
    destruct (useStaticAnalysis (options t1)).
    + intros [= <- <- <-]. split; [|done]. by apply checkCodeQuality_sorted.
    + intros [= <- <- <-]. split; [|done]. by apply checkCodeQuality_sorted.
Qed.

(** C8: every Issue that [analyzeCode] returns has severity error or
    warning and a line that is not negative, and its severity decides
    its list: the errors all have severity error, the warnings all have
    severity warning. *)
Theorem analyzeCode_severity_and_line t disk codeDir files r t' disk' :
  analyzeCode spawnSync readdirSync t disk codeDir files = Some (r, t', disk') ->
  Forall (fun e => severity e = lit "error" /\ 0 <= line e) (result_errors r) /\
  Forall (fun w => severity w = lit "warning" /\ 0 <= line w) (result_warnings r) /\
  Forall (fun i => (severity i = lit "error" \/ severity i = lit "warning")
                   /\ 0 <= line i)
         (result_errors r ++ result_warnings r).
Proof.
  intros H. apply analyzeCode_sorted in H as ((_ & He & Hw) & -> & ->).
  split; [done|]. split; [done|].
  apply Forall_app. split.
  - eapply Forall_impl; [exact He|]. intros e [Hs Hl]. split; [by left | done].
  - eapply Forall_impl; [exact Hw|]. intros w [Hs Hl]. split; [by right | done].
Qed.

End AnalysisFacts.

(** The run of scenarios B and C. *)
Lemma analyzeCode_severity_and_line_witness :
  match analyzeCode scenarioB_tools noListing fresh diskUndeclared proj
                    (Some [lit "a.c"]) with
  | Some (r, _, _) =>
      Forall (fun e => severity e = lit "error" /\ 0 <= line e) (result_errors r) /\
      Forall (fun w => severity w = lit "warning" /\ 0 <= line w) (result_warnings r) /\
      Forall (fun i => (severity i = lit "error" \/ severity i = lit "warning")
                       /\ 0 <= line i)
             (result_errors r ++ result_warnings r)
  | None => False
  end.
Proof.
  destruct (analyzeCode scenarioB_tools noListing fresh diskUndeclared proj
                        (Some [lit "a.c"])) as [[[r t'] disk']|] eqn:Hrun.
  - exact (analyzeCode_severity_and_line scenarioB_tools noListing fresh
             diskUndeclared proj (Some [lit "a.c"]) r t' disk' Hrun).
  - assert (Hsome : match analyzeCode scenarioB_tools noListing fresh
                                        diskUndeclared proj (Some [lit "a.c"]) with
                    | Some _ => true
                    | None => false
                    end = true) by (by vm_compute).
    rewrite Hrun in Hsome. discriminate Hsome.
Defined.


(** Scenarios B and C: the compiler's report becomes one compilation
    error at the reported line, the analyzer's line one static-analysis
    warning; the test file is gone afterwards. *)
Example analyzeCode_scenarios_B_C :
  match analyzeCode scenarioB_tools noListing fresh diskUndeclared proj
                    (Some [lit "a.c"]) with
  | Some (r, _, disk') =>
      bool_decide
        (map (fun e => (type e, severity e, line e, message e)) (result_errors r)
         = [(lit "compilation", lit "error", 5,
             lit "'y' undeclared (first use in this function)")] /\
         map (fun w => (file w, type w, severity w, line w)) (result_warnings r)
         = [(lit "a.c", lit "static_analysis", lit "warning", 10);
            (lit "a.c", lit "quality", lit "warning", 2)] /\
         disk' = diskUndeclared)
  | None => false
  end = true.
Proof. by vm_compute. Qed.

(** ** Determinism of the analysis *)

Section Determinism.

Variable spawnSync : str -> list str -> Disk -> SpawnResult.
Variable readdirSync : Disk -> str -> option (list str).

(** The compilation check leaves the disk as it found it when the two
    names it uses for its test file and the object file are free. *)
Lemma checkCompilation_disk disk codeDir files t :
  disk !! path.join codeDir (lit "__test_compile.c") = None ->
  disk !! path.join codeDir (lit "__test_compile.o") = None ->
  (checkCompilation spawnSync disk codeDir files t).2 = disk.
Proof.
  intros Htest Hobj. unfold checkCompilation.
  destruct (filter _ files); [done|]. cbv zeta. cbn [snd].
  unfold fs.unlinkSync, fs.writeFileSync, fs.existsSync.
  rewrite delete_insert_id by done.
  rewrite Hobj. by rewrite bool_decide_eq_false_2 by apply is_Some_None.
Qed.

(** C10: the lists that [analyzeCode] returns depend on the options,
    the directory snapshot and the answers of the external tools, not
    on what the instance held before: two instances with the same
    options get the same result, and an instance that runs again on the
    same snapshot gets the result of its first run again, its
    accumulators having been emptied at the start of the call.  A run
    also leaves the snapshot as it was when the names of its two
    temporary files are free. *)
Theorem analyzeCode_deterministic (t1 t2 : Instance) (disk : Disk) (codeDir : str)
    (files : option (list str)) :
  options t1 = options t2 ->
  analyzeCode spawnSync readdirSync t1 disk codeDir files
  = analyzeCode spawnSync readdirSync t2 disk codeDir files /\
  (forall r t' disk',
     analyzeCode spawnSync readdirSync t1 disk codeDir files = Some (r, t', disk') ->
     analyzeCode spawnSync readdirSync t' disk codeDir files = Some (r, t', disk') /\
     (disk !! path.join codeDir (lit "__test_compile.c") = None ->
      disk !! path.join codeDir (lit "__test_compile.o") = None ->
      disk' = disk)).
Proof.
  intros Hopts.
  assert (Hsame : forall ta tb, options ta = options tb ->
            analyzeCode spawnSync readdirSync ta disk codeDir files
            = analyzeCode spawnSync readdirSync tb disk codeDir files).
  { intros ta tb H. unfold analyzeCode. by rewrite H. }
  split; [by apply Hsame|].
  intros r t' disk' Hrun. split.
  - rewrite <- Hrun. apply Hsame.
    by apply analyzeCode_sorted in Hrun as ((-> & _) & _).
  - intros Htest Hobj. revert Hrun. unfold analyzeCode.
    destruct (match files with Some fl => Some fl | None => _ end) as [fl|];
      [|done].
    set (t0 := checkSyntax disk _ _).
    pose proof (checkCompilation_disk disk codeDir
                  (map (fun f => path.join codeDir f) fl) t0 Htest Hobj) as Hdisk.
    destruct (useCompiler (options t0)).
    + destruct (checkCompilation spawnSync disk codeDir _ t0) as [t2' disk2].
      simpl in Hdisk. subst disk2. by intros [= _ _ <-].
    + by intros [= _ _ <-].
Qed.

End Determinism.

(** A fresh instance and a used one on the same snapshot. *)
Lemma analyzeCode_deterministic_witness :
  analyzeCode scenarioB_tools noListing fresh diskUndeclared proj (Some [lit "a.c"])
  = analyzeCode scenarioB_tools noListing used diskUndeclared proj (Some [lit "a.c"]).
Proof.
  by apply (analyzeCode_deterministic scenarioB_tools noListing fresh used
              diskUndeclared proj (Some [lit "a.c"])).
Defined.

(** ** The synthetic translation unit *)





Section Unit.

Variable spawn1 spawn2 : str -> list str -> Disk -> SpawnResult.


End Unit.



(** * Further properties *)

(** ** Patch applier: the content written *)

Lemma map_set_keys (m : FileMap) (k : str) (v : list str) :
  map fst (map_set m k v)
  = if bool_decide (is_Some (map_get m k)) then map fst m else map fst m ++ [k].
Proof.
  induction m as [|[k0 v0] m IH]; simpl; [done|].
  destruct (decide (k0 = k)) as [->|Hne].
  - rewrite ?bool_decide_eq_true_2 by (done || eauto). simpl.
    by rewrite ?bool_decide_eq_true_2 by (done || eauto).
  - rewrite !(bool_decide_eq_false_2 (k0 = k)) by done. simpl. rewrite IH.
    by destruct (bool_decide (is_Some (map_get m k))).
Qed.

Lemma map_get_None_keys (m : FileMap) (k : str) :
  map_get m k = None -> k ∉ map fst m.
Proof.
  induction m as [|[k0 v0] m IH]; simpl; [intros _; apply not_elem_of_nil|].
  case_bool_decide as Hk; [done|]. intros Hm.
  apply not_elem_of_cons. split; [congruence | by apply IH].
Qed.

Lemma map_set_NoDup (m : FileMap) (k : str) (v : list str) :
  NoDup (map fst m) -> NoDup (map fst (map_set m k v)).
Proof.
  intros Hm. rewrite map_set_keys. case_bool_decide as Hk; [done|].
  apply NoDup_app. split; [done|]. split; [|apply NoDup_singleton].
  intros x Hx ->%list_elem_of_singleton.
  apply Hk. destruct (map_get m k) eqn:Hget; [by eauto|].
  by apply map_get_None_keys in Hget.
Qed.

(** The files written back: those of the map, each joined. *)
Lemma writeBack_lookup (fm : FileMap) (disk : Disk) (p : str) :
  NoDup (map fst fm) ->
  writeBack fm disk !! p
  = match map_get fm p with
    | Some lines => Some (join [NL] lines)
    | None => disk !! p
    end.
Proof.
  unfold writeBack. revert disk. induction fm as [|[k v] fm IH]; intros disk Hnd.
  - done.
  - simpl in Hnd. apply NoDup_cons in Hnd as [Hk Hnd].
    cbn [fold_left map_get]. rewrite IH by done.
    unfold fs.writeFileSync. case_bool_decide as Hkp.
    + subst p. destruct (map_get fm k) eqn:Hget.
      * exfalso. apply Hk. clear -Hget.
        induction fm as [|[k0 v0] fm IH]; simpl in *; [done|].
        case_bool_decide; [subst; by left | right; by apply IH].
      * by rewrite lookup_insert_eq.
    + destruct (map_get fm p); [done|]. by rewrite lookup_insert_ne.
Qed.

Lemma slotAfter_snoc codeDir done fx p i l0 :
  slotAfter codeDir (done ++ [fx]) p i l0
  = if targets codeDir p i fx then trim (suggestion fx)
    else slotAfter codeDir done p i l0.
Proof.
  unfold slotAfter. rewrite filter_app.
  destruct (targets codeDir p i fx) eqn:Ht.
  - rewrite (filter_cons_True _ fx []) by done.
    rewrite filter_nil. by rewrite last_snoc.
  - rewrite (filter_cons_False _ fx []) by (by rewrite Ht).
    rewrite filter_nil. by rewrite app_nil_r.
Qed.

Lemma targets_other codeDir p i fx :
  path.join codeDir (file (error fx)) <> p -> targets codeDir p i fx = false.
Proof. intros H. unfold targets. by rewrite bool_decide_eq_false_2. Qed.

Lemma slotAfter_untargeted codeDir done p i l0 :
  (forall fx, fx ∈ done -> path.join codeDir (file (error fx)) <> p) ->
  slotAfter codeDir done p i l0 = l0.
Proof.
  intros Hno. induction done as [|fx done IH] using rev_ind; [done|].
  rewrite slotAfter_snoc, targets_other.
  - apply IH. intros fx' Hfx'. apply Hno, elem_of_app. by left.
  - apply Hno, elem_of_app. right. by left.
Qed.

Lemma imap_same {A} (f : nat -> A -> A) (l : list A) :
  (forall i x, l !! i = Some x -> f i x = x) -> imap f l = l.
Proof.
  intros H. apply list_eq. intros i. rewrite list_lookup_imap.
  destruct (l !! i) as [x|] eqn:Hx; simpl; [|done]. by rewrite (H i x).
Qed.

Lemma slots_keep codeDir done fx p (l : list str) :
  (forall i x, l !! i = Some x -> targets codeDir p i fx = false) ->
  imap (slotAfter codeDir (done ++ [fx]) p) l = imap (slotAfter codeDir done p) l.
Proof.
  intros H. apply imap_ext. intros i x Hx. simpl.
  by rewrite slotAfter_snoc, (H i x Hx).
Qed.

Lemma existsSync_false disk p : fs.existsSync disk p = false -> disk !! p = None.
Proof.
  unfold fs.existsSync. intros H. apply bool_decide_eq_false_1 in H.
  destruct (disk !! p); [|done]. exfalso. by apply H.
Qed.

(** One round of the loop keeps [slotsInv]. *)
Lemma slotsInv_step disk codeDir done st fx :
  slotsInv disk codeDir done st ->
  slotsInv disk codeDir (done ++ [fx]) (applyFix disk codeDir st fx).
Proof.
  destruct st as [fm applied]. intros (Hnd & Hsome & Hnone & Haudit).
  cbn [fst snd] in *. unfold applyFix.
  set (q := path.join codeDir (file (error fx))).
  assert (Hin_done : forall p, (exists fx', fx' ∈ done /\
              path.join codeDir (file (error fx')) = p) ->
            exists fx', fx' ∈ done ++ [fx] /\ path.join codeDir (file (error fx')) = p).
  { intros p (fx' & Hfx' & Hp). exists fx'. split; [|done].
    apply elem_of_app. by left. }
  assert (Hin_fx : exists fx', fx' ∈ done ++ [fx] /\
            path.join codeDir (file (error fx')) = q).
  { exists fx. split; [|done]. apply elem_of_app. right. by left. }
  destruct (fs.existsSync disk q) eqn:Hex; cbn [negb].
  - (* the file exists *)
    set (orig := split NL (fs.readFileSync disk q)).
    set (fm1 := if map_has fm q then fm else map_set fm q orig).
    assert (Hnd1 : NoDup (map fst fm1)).
    { subst fm1. destruct (map_has fm q); [done | by apply map_set_NoDup]. }
    assert (Hget1 : map_get fm1 q = Some (imap (slotAfter codeDir done q) orig)).
    { subst fm1. unfold map_has. case_bool_decide as Hhas.
      - destruct Hhas as [l Hl]. rewrite Hl. f_equal.
        by destruct (Hsome _ _ Hl) as (_ & _ & ->).
      - rewrite map_get_set, bool_decide_eq_true_2 by done. f_equal.
        symmetry. apply imap_same. intros i x _.
        apply slotAfter_untargeted. apply Hnone; [|done].
        destruct (map_get fm q); [|done]. exfalso. by apply Hhas. }
    assert (Hget1' : forall p, p <> q -> map_get fm1 p = map_get fm p).
    { intros p Hp. subst fm1. destruct (map_has fm q); [done|].
      by rewrite map_get_set, bool_decide_eq_false_2. }
    rewrite Hget1. cbn [default]. unfold id. rewrite length_imap.
    assert (Hwr : writable disk codeDir fx
                  = (0 <=? line (error fx) - 1)
                    && (line (error fx) - 1 <? Z.of_nat (length orig))).
    { unfold writable, loadedLines. fold q. fold orig. by rewrite Hex. }
    destruct ((0 <=? line (error fx) - 1)
              && (line (error fx) - 1 <? Z.of_nat (length orig))) eqn:Hrange.
    + (* the slot is written *)
      apply andb_true_iff in Hrange as [H0 H1].
      apply Z.leb_le in H0. apply Z.ltb_lt in H1.
      set (i0 := Z.to_nat (line (error fx) - 1)).
      assert (Hi0 : (i0 < length orig)%nat) by (subst i0; lia).
      split; [|split; [|split]]; cbn [fst snd].
      * by apply map_set_NoDup.
      * intros p lines. rewrite map_get_set. case_bool_decide as Hp.
        -- subst p. intros [= <-]. split; [done|]. split; [done|].
           apply list_eq. intros i. rewrite list_lookup_imap.
           destruct (decide (i = i0)) as [->|Hi].
           ++ rewrite list_lookup_insert_eq by (by rewrite length_imap).
              destruct (lookup_lt_is_Some_2 orig i0 Hi0) as [l0 Hl0].
              fold orig. rewrite Hl0. simpl. rewrite slotAfter_snoc.
              unfold targets. fold q. rewrite bool_decide_eq_true_2 by done.
              replace (line (error fx) - 1 =? Z.of_nat i0) with true
                by (symmetry; apply Z.eqb_eq; subst i0; lia).
              done.
           ++ rewrite list_lookup_insert_ne by done.
              rewrite list_lookup_imap. fold orig.
              destruct (orig !! i) as [l0|]; [|done]. simpl.
              rewrite slotAfter_snoc. unfold targets. fold q.
              replace (line (error fx) - 1 =? Z.of_nat i) with false
                by (symmetry; apply Z.eqb_neq; subst i0; lia).
              by rewrite andb_false_r.
        -- rewrite Hget1' by done. intros Hl.
           destruct (Hsome _ _ Hl) as (Hexp & Hfx' & ->).
           split; [done|]. split; [by apply Hin_done|].
           symmetry. apply slots_keep. intros i x _. by apply targets_other.
      * intros p. rewrite map_get_set. case_bool_decide as Hp; [done|].
        rewrite Hget1' by done. intros Hget Hexp fx' [Hfx'| ->%list_elem_of_singleton]%elem_of_app.
        -- by apply (Hnone p).
        -- done.
      * rewrite map_app, filter_app, map_app, Haudit.
        rewrite (filter_cons_True _ fx []) by (by rewrite Hwr). by rewrite filter_nil.
    + (* the line is out of range *)
      apply andb_false_iff in Hrange.
      split; [|split; [|split]]; cbn [fst snd].
      * done.
      * intros p lines. destruct (decide (p = q)) as [->|Hp].
        -- rewrite Hget1. intros [= <-]. split; [done|]. split; [done|].
           symmetry. fold orig. apply slots_keep. intros i x Hx.
           apply lookup_lt_Some in Hx. unfold targets.
           replace (line (error fx) - 1 =? Z.of_nat i) with false;
             [by rewrite andb_false_r|].
           symmetry. apply Z.eqb_neq.
           destruct Hrange as [H0|H1];
             [apply Z.leb_gt in H0 | apply Z.ltb_ge in H1]; lia.
        -- rewrite Hget1' by done. intros Hl.
           destruct (Hsome _ _ Hl) as (Hexp & Hfx' & ->).
           split; [done|]. split; [by apply Hin_done|].
           symmetry. apply slots_keep. intros i x _. by apply targets_other.
      * intros p Hget Hexp. destruct (decide (p = q)) as [->|Hp].
        { by rewrite Hget1 in Hget. }
        rewrite Hget1' in Hget by done.
        intros fx' [Hfx'| ->%list_elem_of_singleton]%elem_of_app.
        -- by apply (Hnone p).
        -- done.
      * rewrite filter_app, Haudit.
        rewrite (filter_cons_False _ fx []) by (by rewrite Hwr).
        by rewrite filter_nil, app_nil_r.
  - (* the file does not exist *)
    assert (Hq : forall p, fs.existsSync disk p = true -> q <> p)
      by (intros p Hp ->; congruence).
    split; [|split; [|split]]; cbn [fst snd].
    + done.
    + intros p lines Hl. destruct (Hsome _ _ Hl) as (Hexp & Hfx' & ->).
      split; [done|]. split; [by apply Hin_done|].
      symmetry. apply slots_keep. intros i x _. apply targets_other. by apply Hq.
    + intros p Hget Hexp fx' [Hfx'| ->%list_elem_of_singleton]%elem_of_app.
      * by apply (Hnone p).
      * by apply Hq.
    + rewrite filter_app, Haudit.
      rewrite (filter_cons_False _ fx []);
        [by rewrite filter_nil, app_nil_r|].
      unfold writable. fold q. by rewrite Hex.
Qed.

Lemma slotsInv_fold disk codeDir done rest st :
  slotsInv disk codeDir done st ->
  slotsInv disk codeDir (done ++ rest) (fold_left (applyFix disk codeDir) rest st).
Proof.
  revert done st. induction rest as [|fx rest IH]; intros done st Hst; simpl.
  - by rewrite app_nil_r.
  - replace (done ++ fx :: rest) with ((done ++ [fx]) ++ rest)
      by (by rewrite <- app_assoc).
    apply IH. by apply slotsInv_step.
Qed.

Lemma slotsInv_final disk codeDir fixes :
  slotsInv disk codeDir fixes (fold_left (applyFix disk codeDir) fixes ([], [])).
Proof.
  apply (slotsInv_fold disk codeDir [] fixes).
  split; [constructor|]. split; [done|]. split; [|done].
  intros p _ _ fx Hfx. by apply elem_of_nil in Hfx.
Qed.

(** The closed form of the disk after [applyFixes]. *)
Lemma applyFixes_lookup disk codeDir fixes p :
  (applyFixes codeDir fixes disk).2 !! p
  = (fun content => join [NL] (imap (slotAfter codeDir fixes p) (split NL content)))
      <$> disk !! p.
Proof.
  unfold applyFixes.
  pose proof (slotsInv_final disk codeDir fixes) as (Hnd & Hsome & Hnone & _).
  destruct (fold_left (applyFix disk codeDir) fixes ([], [])) as [fm applied].
  cbn [fst snd] in *. rewrite writeBack_lookup by done.
  destruct (map_get fm p) as [lines|] eqn:Hget.
  - destruct (Hsome _ _ Hget) as (Hex & _ & ->).
    by rewrite (existsSync_true _ _ Hex).
  - destruct (disk !! p) as [content|] eqn:Hp; [|done]. simpl. f_equal.
    assert (Hex : fs.existsSync disk p = true).
    { unfold fs.existsSync. rewrite Hp. by apply bool_decide_eq_true_2. }
    rewrite imap_same; [by rewrite join_split|].
    intros i x _. apply slotAfter_untargeted. by apply Hnone.
Qed.

(** X1: after [applyFixes], every file that was on disk holds its old
    lines, each slot replaced by the trimmed suggestion of the last Fix
    of the list that targets it (Fixes for one slot: the later one
    wins; other slots keep their text; the number of slots is that of
    the old lines), joined by line breaks. *)
Theorem applyFixes_last_fix_per_slot (disk : Disk) (codeDir : str)
    (fixes : list Fix) (p content : str) :
  disk !! p = Some content ->
  (applyFixes codeDir fixes disk).2 !! p
  = Some (join [NL] (imap (slotAfter codeDir fixes p) (split NL content))).
Proof. intros Hp. by rewrite applyFixes_lookup, Hp. Qed.

(** Two Fixes for line 2 of the ten-line file: the second one stays. *)
Lemma applyFixes_last_fix_per_slot_witness :
  (applyFixes proj [fixOneLine; fixSecond] diskTen).2 !! lit "proj/a.c"
  = Some (join [NL] (map lit ["l1"; "int y = 1;"; "l3"; "l4"; "l5"; "l6"; "l7";
                              "l8"; "l9"; "l10"]%string)).
Proof.
  rewrite (applyFixes_last_fix_per_slot diskTen proj [fixOneLine; fixSecond]
             (lit "proj/a.c") tenLines) by done.
  by vm_compute.
Defined.

(** X2: [applyFixes] creates no file and removes none, and a file that
    no Fix of the list names keeps its content. *)
Theorem applyFixes_frame (disk : Disk) (codeDir : str) (fixes : list Fix) (p : str) :
  (is_Some ((applyFixes codeDir fixes disk).2 !! p) <-> is_Some (disk !! p)) /\
  ((forall fx, fx ∈ fixes -> path.join codeDir (file (error fx)) <> p) ->
   (applyFixes codeDir fixes disk).2 !! p = disk !! p).
Proof.
  rewrite applyFixes_lookup. split.
  - by rewrite fmap_is_Some.
  - intros Hno. destruct (disk !! p) as [content|]; [|done]. simpl. f_equal.
    rewrite imap_same; [by rewrite join_split|].
    intros i x _. by apply slotAfter_untargeted.
Qed.

Lemma applyFixes_frame_witness :
  (applyFixes proj [fixOneLine] diskTwoFiles).2 !! lit "proj/b.h"
  = diskTwoFiles !! lit "proj/b.h".
Proof.
  apply (applyFixes_frame diskTwoFiles proj [fixOneLine] (lit "proj/b.h")).
  intros fx ->%list_elem_of_singleton. by vm_compute.
Defined.

(** X3: the audit list has one record for each Fix that passes the two
    tests (file on disk, line within the loaded array), in the order of
    the Fixes, with the Fix's file, line and trimmed suggestion. *)
Theorem applyFixes_audit (disk : Disk) (codeDir : str) (fixes : list Fix) :
  map auditKey (applyFixes codeDir fixes disk).1
  = map fixKey (filter (fun fx => writable disk codeDir fx = true) fixes).
Proof.
  unfold applyFixes.
  pose proof (slotsInv_final disk codeDir fixes) as (_ & _ & _ & Haudit).
  by destruct (fold_left (applyFix disk codeDir) fixes ([], [])) as [fm applied].
Qed.

Lemma slotAfter_sep_free codeDir fixes p i (l0 : str) :
  Forall (fun fx => NL ∉ trim (suggestion fx)) fixes -> NL ∉ l0 ->
  NL ∉ slotAfter codeDir fixes p i l0.
Proof.
  intros Hfix Hl0. unfold slotAfter.
  destruct (last (filter _ fixes)) as [fx|] eqn:Hlast; [|done].
  apply last_Some_elem_of, list_elem_of_filter in Hlast as [_ Hfx].
  rewrite Forall_forall in Hfix. by apply Hfix.
Qed.

(** X4: when no trimmed suggestion has a line break, reading a line
    back with [getLineContent] after [applyFixes] gives the trimmed
    suggestion of the last Fix for that line, and the old line when
    there is none. *)
Theorem applyFixes_read_back (disk : Disk) (codeDir : str) (fixes : list Fix)
    (p : str) (i : nat) (l0 : str) :
  Forall (fun fx => NL ∉ trim (suggestion fx)) fixes ->
  fs.existsSync disk p = true ->
  split NL (fs.readFileSync disk p) !! i = Some l0 ->
  getLineContent (applyFixes codeDir fixes disk).2 p (Z.of_nat i + 1)
  = slotAfter codeDir fixes p i l0.
Proof.
  intros Hfix Hex Hl0.
  pose proof (applyFixes_lookup disk codeDir fixes p) as Hlook.
  rewrite (existsSync_true _ _ Hex) in Hlook. simpl in Hlook.
  set (lines' := imap (slotAfter codeDir fixes p)
                      (split NL (fs.readFileSync disk p))) in *.
  unfold getLineContent, fs.existsSync, fs.readFileSync. rewrite Hlook.
  rewrite bool_decide_eq_true_2 by eauto. cbn [negb default]. unfold id.
  assert (Hsplit : split NL (join [NL] lines') = lines').
  { apply split_join.
    - intros Hnil. apply (f_equal length) in Hnil. subst lines'.
      rewrite length_imap in Hnil. apply lookup_lt_Some in Hl0. simpl in Hnil. lia.
    - apply Forall_forall. intros l Hl. subst lines'.
      apply elem_of_lookup_imap_1 in Hl as (j & x & -> & Hx).
      apply slotAfter_sep_free; [done|].
      pose proof (split_sep_free NL (fs.readFileSync disk p)) as Hfree.
      rewrite Forall_forall in Hfree. apply Hfree.
      by apply list_elem_of_lookup_2 in Hx. }
  rewrite Hsplit.
  replace (Z.of_nat i + 1 - 1 <? 0) with false by (symmetry; apply Z.ltb_ge; lia).
  replace (Z.to_nat (Z.of_nat i + 1 - 1)) with i by lia.
  subst lines'. by rewrite list_lookup_imap, Hl0.
Qed.

Lemma applyFixes_read_back_witness :
  getLineContent (applyFixes proj [fixOneLine; fixSecond] diskTen).2
                 (lit "proj/a.c") 2
  = lit "int y = 1;".
Proof.
  transitivity (slotAfter proj [fixOneLine; fixSecond] (lit "proj/a.c") 1 (lit "l2"));
    [|by vm_compute].
  apply (applyFixes_read_back diskTen proj [fixOneLine; fixSecond]
           (lit "proj/a.c") 1 (lit "l2")).
  - repeat constructor; apply (bool_decide_unpack _); by vm_compute.
  - by vm_compute.
  - by vm_compute.
Defined.

(** ** Sanitization: shape of the result *)

Lemma cleanLines_trimmed (text : str) : trim (cleanLines text) = cleanLines text.
Proof. unfold cleanLines. apply trim_idemp. Qed.

Lemma sanitize_trimmed (raw : str) :
  trim (sanitizeFixSuggestion raw) = sanitizeFixSuggestion raw.
Proof.
  unfold sanitizeFixSuggestion. destruct (negb (truthy raw)); [done|].
  cbv zeta. apply cleanLines_trimmed.
Qed.

(** ** Repair suggestion engine: the Fixes produced *)

Lemma fixOf_wellformed (e : Issue) (text : str) (c : nat) (f : Fix) :
  fixOf e text c = Some f ->
  error f = e /\ confidence f = c /\ suggestion f <> [] /\
  trim (suggestion f) = suggestion f /\
  suggestion f = sanitizeFixSuggestion text.
Proof.
  unfold fixOf. destruct (sanitizeFixSuggestion text) as [|x s] eqn:Hs; [done|].
  intros [= <-]. simpl. repeat split; [done|]. rewrite <- Hs. apply sanitize_trimmed.
Qed.

Section FixFacts.

Variable post : nat -> str -> str -> Outcome.
Variable primaryModel fallbackModel_ : str.

Lemma tryModels_fixShape (e : Issue) (prompt : str) (models : list str)
    (calls : Calls) (f : Fix) :
  Forall (fun m => m = primaryModel \/
                   (fallbackModel_ <> [] /\ fallbackModel_ <> primaryModel)) models ->
  (tryModels post primaryModel fallbackModel_ e prompt models calls).1
    = Finished (Some f) ->
  fixShape primaryModel fallbackModel_ f.
Proof.
  revert calls. induction models as [|model models IH]; intros calls Hmodels;
    [done|].
  inversion Hmodels as [|? ? Hm Hrest]; subst.
  cbn [tryModels].
  destruct (outcomeText (post (length calls) model prompt)) as [text|innerErr].
  - cbn [fst]. intros [= Hfix].
    apply fixOf_wellformed in Hfix as (_ & Hc & Hne & Htrim & _).
    split; [done|]. split; [done|]. rewrite Hc.
    case_bool_decide as Hprim; [by left|]. right.
    destruct Hm as [->|Hfb]; [done|]. done.
  - destruct (continueWithNext fallbackModel_ model innerErr); [|done].
    by apply IH.
Qed.

Lemma modelsToTry_kinds :
  Forall (fun m => m = primaryModel \/
                   (fallbackModel_ <> [] /\ fallbackModel_ <> primaryModel))
         (modelsToTry primaryModel fallbackModel_).
Proof.
  unfold modelsToTry. constructor; [by left|].
  destruct (truthy fallbackModel_) eqn:Ht; [|constructor]. simpl.
  case_bool_decide as Heq; simpl; constructor; [|constructor].
  right. split; [|done]. by destruct fallbackModel_.
Qed.

Lemma processErrors_fixShape (disk : Disk) (codeFiles : list str)
    (errs : list Issue) (fixes : list Fix) (calls : Calls) :
  Forall (fixShape primaryModel fallbackModel_) fixes ->
  Forall (fixShape primaryModel fallbackModel_)
    (processErrors post primaryModel fallbackModel_ disk codeFiles errs fixes calls).1.
Proof.
  revert fixes calls. induction errs as [|e errs IH]; intros fixes calls Hfixes;
    [done|].
  cbn [processErrors].
  pose proof (tryModels_fixShape e (buildPrompt disk codeFiles e)
                (modelsToTry primaryModel fallbackModel_) calls) as Hshape.
  destruct (tryModels post primaryModel fallbackModel_ e
              (buildPrompt disk codeFiles e)
              (modelsToTry primaryModel fallbackModel_) calls)
    as [[[f|]|err] calls1]; cbn [fst] in Hshape.
  - apply IH. apply Forall_app. split; [done|].
    constructor; [|constructor]. apply Hshape; [apply modelsToTry_kinds | done].
  - by apply IH.
  - destruct (isTimeoutOuter err); [by apply IH | done].
Qed.

End FixFacts.

(** X5: every Fix that [getAIFixes] returns has a suggestion that is not
    empty and has no white space at either end, and confidence 0.8, or
    0.7, the latter only when a fallback model other than the primary
    one is configured; and when the engine runs, the list returned is
    the one stored in the instance. *)
Theorem getAIFixes_fix_shape (axios : bool) (post : nat -> str -> str -> Outcome)
    (disk : Disk) (t : Instance) (errs : list Issue) (codeFiles : list str) :
  Forall (fixShape (primaryOf t) (fallbackModel (options t)))
         (getAIFixes axios post disk t errs codeFiles).1.1 /\
  (axios = true -> useAI (options t) = true ->
   fixes (getAIFixes axios post disk t errs codeFiles).1.2
   = (getAIFixes axios post disk t errs codeFiles).1.1).
Proof.
  unfold getAIFixes. split.
  - destruct (negb axios || negb (useAI (options t))); [constructor|].
    pose proof (processErrors_fixShape post (primaryOf t) (fallbackModel (options t))
                  disk codeFiles (take 5 errs) [] [] (Forall_nil_2 _)) as H.
    by destruct (processErrors post (primaryOf t) (fallbackModel (options t)) disk
                   codeFiles (take 5 errs) [] []).
  - intros -> ->. cbn [negb orb].
    by destruct (processErrors post (primaryOf t) (fallbackModel (options t)) disk
                   codeFiles (take 5 errs) [] []).
Qed.

Lemma getAIFixes_fix_shape_witness :
  fixes timeoutRun.1.2 = timeoutRun.1.1.
Proof.
  by apply (getAIFixes_fix_shape true timeoutThenAnswer diskReturn withFallback
              twoErrors [lit "proj/a.c"]).
Defined.

(** ** Sanitization: no blank line in a suggestion *)

Lemma elem_of_trimStart (x : ascii) (s : str) : x ∈ trimStart s -> x ∈ s.
Proof.
  induction s as [|c s IH]; simpl; [done|].
  destruct (is_space c); [|done]. intros H. right. by apply IH.
Qed.

Lemma elem_of_trimEnd (x : ascii) (s : str) : x ∈ trimEnd s -> x ∈ s.
Proof.
  unfold trimEnd. rewrite !list_elem_of_In, <- !in_rev, <- !list_elem_of_In.
  intros H%elem_of_trimStart. by rewrite list_elem_of_In, <- in_rev, <- list_elem_of_In in H.
Qed.

Lemma elem_of_trim (x : ascii) (s : str) : x ∈ trim s -> x ∈ s.
Proof. unfold trim. by intros H%elem_of_trimEnd%elem_of_trimStart. Qed.

Lemma trimStart_idemp (s : str) : trimStart (trimStart s) = trimStart s.
Proof. apply trimStart_fixed, trimStart_head. Qed.

Lemma trim_trimStart (s : str) : trim (trimStart s) = trim s.
Proof. unfold trim. by rewrite trimStart_idemp. Qed.

Lemma trim_nonempty_start (s : str) : trim s <> [] -> trimStart s <> [].
Proof. unfold trim. intros H Hnil. by rewrite Hnil in H. Qed.

Lemma trimStart_app_keep (l s : str) :
  trimStart l <> [] -> trimStart (l ++ s) = trimStart l ++ s.
Proof.
  induction l as [|c l IH]; simpl; [done|].
  destruct (is_space c); [apply IH | done].
Qed.

Lemma trim_nonempty_end (s : str) : trim s <> [] -> trimEnd s <> [].
Proof.
  rewrite <- trim_trimEnd. unfold trim. intros H Hnil.
  rewrite Hnil in H. by apply H.
Qed.

Lemma trimEnd_app_keep (s l : str) :
  trimEnd l <> [] -> trimEnd (s ++ l) = s ++ trimEnd l.
Proof.
  unfold trimEnd. intros H. rewrite rev_app_distr, trimStart_app_keep.
  - by rewrite rev_app_distr, rev_involutive.
  - intros Hnil. apply H. by rewrite Hnil.
Qed.

Lemma join_cons_tail (rest : list str) :
  exists s : str, forall l, join [NL] (l :: rest) = l ++ s.
Proof.
  destruct rest as [|l' rest].
  - exists []. intros l. simpl. by rewrite app_nil_r.
  - exists ([NL] ++ join [NL] (l' :: rest)). done.
Qed.

Lemma join_snoc_head (init : list str) :
  exists s : str, forall l, join [NL] (init ++ [l]) = s ++ l.
Proof.
  induction init as [|l0 init (s & Hs)].
  - by exists [].
  - exists (l0 ++ [NL] ++ s). intros l.
    change ((l0 :: init) ++ [l]) with (l0 :: (init ++ [l])).
    destruct (init ++ [l]) as [|y ys] eqn:Hys; [by destruct init|].
    change (join [NL] (l0 :: y :: ys)) with (l0 ++ [NL] ++ join [NL] (y :: ys)).
    rewrite <- Hys, Hs. by rewrite <- !app_assoc.
Qed.

Lemma solidLine_trimStart (l : str) : solidLine l -> solidLine (trimStart l).
Proof.
  intros [Ht Hnl]. split; [by rewrite trim_trimStart|].
  intros H. by apply Hnl, elem_of_trimStart.
Qed.

Lemma solidLine_trimEnd (l : str) : solidLine l -> solidLine (trimEnd l).
Proof.
  intros [Ht Hnl]. split; [by rewrite trim_trimEnd|].
  intros H. by apply Hnl, elem_of_trimEnd.
Qed.

(** Trimming joined solid lines trims the first one at its start and
    the last one at its end. *)
Lemma trim_join_solid (ls : list str) :
  ls <> [] -> Forall solidLine ls ->
  exists ls', trim (join [NL] ls) = join [NL] ls' /\ ls' <> [] /\ Forall solidLine ls'.
Proof.
  intros Hne Hall. destruct ls as [|l rest]; [done|].
  inversion Hall as [|? ? Hl Hrest]; subst.
  destruct (join_cons_tail rest) as (s & Hs).
  assert (Hstart : trimStart (join [NL] (l :: rest)) = join [NL] (trimStart l :: rest)).
  { rewrite !Hs. apply trimStart_app_keep, trim_nonempty_start, Hl. }
  assert (Hall1 : Forall solidLine (trimStart l :: rest)).
  { constructor; [by apply solidLine_trimStart | done]. }
  destruct (exists_last (l := trimStart l :: rest)) as (init & z & Hz); [done|].
  rewrite Hz in Hall1, Hstart.
  apply Forall_app in Hall1 as [Hinit Hlast].
  inversion Hlast as [|? ? Hzs _]; subst.
  destruct (join_snoc_head init) as (s' & Hs').
  exists (init ++ [trimEnd z]). split; [|split].
  - unfold trim. rewrite Hstart, !Hs'.
    apply trimEnd_app_keep, trim_nonempty_end, Hzs.
  - by destruct init.
  - apply Forall_app. split; [done|].
    constructor; [by apply solidLine_trimEnd | constructor].
Qed.

Lemma rx_remove_prefix_elem (p : list atom) (s : str) (x : ascii) :
  x ∈ rx_remove_prefix p s -> x ∈ s.
Proof.
  unfold rx_remove_prefix.
  destruct (rx_match p s) as [[gs rest]|] eqn:Hm; [|done].
  apply rx_match_sound in Hm as [_ ->]. intros H. apply elem_of_app. by right.
Qed.

(** A line that the loop keeps is solid. *)
Lemma sanitizeLine_solid (l o : str) :
  NL ∉ l -> sanitizeLine l = Some o -> solidLine o.
Proof.
  intros Hnl. unfold sanitizeLine.
  destruct (truthy (trim l)) eqn:Htr; cbn [negb]; [|done].
  destruct (startsWith (trim l) (lit ">>>")); [done|].
  destruct (rx_test_anchored fenceMarkRegex (trim l)); [done|].
  destruct (rx_test_anchored noteRegex (trim l)); [done|].
  destruct (rx_test_anchored commentNoteRegex (trim l)); [done|].
  destruct (rx_test_anchored numberPrefixRegex (trim l) && _).
  - set (after := trim (rx_remove_prefix numberPrefixRegex (trim l))).
    destruct (truthy after) eqn:Hafter; cbn [negb]; [|done].
    intros [= <-]. split.
    + subst after. rewrite trim_idemp. intros Hnil. by rewrite Hnil in Hafter.
    + intros H. apply Hnl. subst after.
      by apply elem_of_trim, rx_remove_prefix_elem, elem_of_trim in H.
  - intros [= <-]. split; [|done]. intros Hnil. by rewrite Hnil in Htr.
Qed.

Lemma omap_sanitizeLine_solid (ls : list str) :
  Forall (fun l => NL ∉ l) ls -> Forall solidLine (omap sanitizeLine ls).
Proof.
  induction 1 as [|l ls Hl _ IH]; [constructor|].
  change (omap sanitizeLine (l :: ls))
    with (match sanitizeLine l with
          | Some y => y :: omap sanitizeLine ls
          | None => omap sanitizeLine ls
          end).
  destruct (sanitizeLine l) as [o|] eqn:Ho; [|done].
  constructor; [by apply (sanitizeLine_solid l) | done].
Qed.

Lemma cleanLines_solid (text : str) :
  cleanLines text = [] \/ Forall solidLine (split NL (cleanLines text)).
Proof.
  unfold cleanLines.
  pose proof (omap_sanitizeLine_solid _ (split_sep_free NL text)) as Hall.
  destruct (omap sanitizeLine (split NL text)) as [|o os] eqn:Hkept; [by left|].
  right. destruct (trim_join_solid (o :: os)) as (ls' & -> & Hne & Hsolid);
    [done|done|].
  rewrite split_join; [done|done|].
  eapply Forall_impl; [exact Hsolid|]. by intros l [_ ?].
Qed.

(** X6: a sanitized suggestion has no white space at either end, and
    unless it is empty none of its lines is blank. *)
Theorem sanitize_no_blank_line (raw : str) :
  trim (sanitizeFixSuggestion raw) = sanitizeFixSuggestion raw /\
  (sanitizeFixSuggestion raw = [] \/
   Forall (fun l => trim l <> []) (split NL (sanitizeFixSuggestion raw))).
Proof.
  split; [apply sanitize_trimmed|].
  unfold sanitizeFixSuggestion. destruct (negb (truthy raw)); [by left|].
  cbv zeta.
  match goal with
  | |- cleanLines ?t = [] \/ _ => destruct (cleanLines_solid t) as [Hnil|Hall]
  end; [by left|].
  right. eapply Forall_impl; [exact Hall|]. by intros l [? _].
Qed.

(** ** The passes of an analysis *)

Lemma appended_refl ty t : appended ty t t [] [].
Proof. unfold appended. rewrite !app_nil_r. repeat split; constructor. Qed.

Lemma appended_trans ty t t1 t2 es ws es' ws' :
  appended ty t t1 es ws -> appended ty t1 t2 es' ws' ->
  appended ty t t2 (es ++ es') (ws ++ ws').
Proof.
  intros (Ho & Hf & He & Hw & Hty) (Ho' & Hf' & He' & Hw' & Hty').
  apply Forall_app in Hty as [? ?]. apply Forall_app in Hty' as [? ?].
  repeat split.
  - congruence.
  - congruence.
  - rewrite He', He. by rewrite <- app_assoc.
  - rewrite Hw', Hw. by rewrite <- app_assoc.
  - by repeat (apply Forall_app; split).
Qed.

Lemma appended_pushIssue ty b e t :
  type e = ty ->
  exists es ws, appended ty t (pushIssue b e t) es ws.
Proof.
  intros Hty. destruct b.
  - exists [e], []. repeat split; [by rewrite app_nil_r | by constructor].
  - exists [], [e]. repeat split; [by rewrite app_nil_r | by constructor].
Qed.

Lemma appended_fold ty {A} (f : A -> option (bool * Issue)) (xs : list A) t :
  (forall x b e, f x = Some (b, e) -> type e = ty) ->
  exists es ws,
    appended ty t
      (fold_left (fun t x => match f x with
                             | Some (isError, e) => pushIssue isError e t
                             | None => t
                             end) xs t) es ws.
Proof.
  intros Hf. revert t. induction xs as [|x xs IH]; intros t.
  - exists [], []. apply appended_refl.
  - cbn [fold_left]. destruct (f x) as [[b e]|] eqn:Hx; [|apply IH].
    destruct (appended_pushIssue ty b e t (Hf _ _ _ Hx)) as (es & ws & H1).
    destruct (IH (pushIssue b e t)) as (es' & ws' & H2).
    exists (es ++ es'), (ws ++ ws'). by eapply appended_trans.
Qed.

Lemma compilerIssue_type disk files gs b e :
  compilerIssue disk files gs = Some (b, e) -> type e = lit "compilation".
Proof.
  unfold compilerIssue.
  do 12 (destruct gs as [|? gs]; try done). by intros [= _ <-].
Qed.

Lemma cppcheckIssue_type disk files gs b e :
  cppcheckIssue disk files gs = Some (b, e) -> type e = lit "static_analysis".
Proof.
  unfold cppcheckIssue.
  do 13 (destruct gs as [|? gs]; try done). by intros [= _ <-].
Qed.

Lemma clangTidyIssue_type disk files gs b e :
  clangTidyIssue disk files gs = Some (b, e) -> type e = lit "static_analysis".
Proof.
  unfold clangTidyIssue.
  do 16 (destruct gs as [|? gs]; try done). by intros [= _ <-].
Qed.

Lemma fold_pushError (es : list Issue) (t : Instance) :
  fold_left (fun t e => pushError e t) es t
  = mkInstance (options t) (errors t ++ es) (warnings t) (fixes t).
Proof.
  revert t. induction es as [|e es IH]; intros t.
  - destruct t. simpl. by rewrite app_nil_r.
  - cbn [fold_left]. rewrite IH. simpl. by rewrite <- app_assoc.
Qed.

Lemma fold_pushWarning (ws : list Issue) (t : Instance) :
  fold_left (fun t w => pushWarning w t) ws t
  = mkInstance (options t) (errors t) (warnings t ++ ws) (fixes t).
Proof.
  revert t. induction ws as [|w ws IH]; intros t.
  - destruct t. simpl. by rewrite app_nil_r.
  - cbn [fold_left]. rewrite IH. simpl. by rewrite <- app_assoc.
Qed.

Lemma checkSyntax_closed disk files t :
  checkSyntax disk files t
  = mkInstance (options t) (errors t ++ concat (map (syntaxFile disk) files))
               (warnings t) (fixes t).
Proof.
  unfold checkSyntax. revert t. induction files as [|f files IH]; intros t.
  - destruct t. simpl. by rewrite app_nil_r.
  - cbn [fold_left map concat]. rewrite IH, fold_pushError. simpl.
    by rewrite <- app_assoc.
Qed.

Lemma checkCodeQuality_closed disk files t :
  checkCodeQuality disk files t
  = mkInstance (options t) (errors t)
               (warnings t ++ concat (map (qualityFile disk) files)) (fixes t).
Proof.
  unfold checkCodeQuality. revert t. induction files as [|f files IH]; intros t.
  - destruct t. simpl. by rewrite app_nil_r.
  - cbn [fold_left map concat]. rewrite IH, fold_pushWarning. simpl.
    by rewrite <- app_assoc.
Qed.

Lemma parseCompilerErrors_appended disk output files t :
  exists es ws,
    appended (lit "compilation") t (parseCompilerErrors disk output files t) es ws.
Proof.
  unfold parseCompilerErrors.
  destruct (appended_fold (lit "compilation") (compilerIssue disk files)
              (rx_scan errorRegex output 0) t) as (es & ws & H1).
  { intros gs b e. apply compilerIssue_type. }
  set (t1 := fold_left _ (rx_scan errorRegex output 0) t) in *.
  destruct (bool_decide (errors t1 = []) && includes output (lit "error:"));
    [|by exists es, ws].
  set (ls := filter _ (split NL output)).
  exists (es ++ map (fun line => mkIssue (lit "unknown") 0 0
                       (trim (rx_remove_first errorWordRegex line))
                       (lit "compilation") None (lit "error")) ls), (ws ++ []).
  eapply appended_trans; [exact H1|].
  clearbody t1. clear H1. revert t1. induction ls as [|l ls IH]; intros t1.
  - apply appended_refl.
  - cbn [fold_left map].
    match goal with
    | |- appended _ _ (fold_left _ _ (pushError ?e _)) _ _ =>
        apply (appended_trans _ t1 (pushError e t1) _ [e] [] _ []);
          [|apply IH]
    end.
    repeat split; [by rewrite app_nil_r | by constructor].
Qed.

Section PassFacts.

Variable spawnSync : str -> list str -> Disk -> SpawnResult.
Variable readdirSync : Disk -> str -> option (list str).

Lemma checkCompilation_appended disk codeDir files t :
  exists es ws,
    appended (lit "compilation") t
      (checkCompilation spawnSync disk codeDir files t).1 es ws.
Proof.
  unfold checkCompilation.
  destruct (filter _ files); [exists [], []; apply appended_refl|].
  cbv zeta. cbn [fst].
  destruct (bool_decide (status _ = Some 0)); [exists [], []; apply appended_refl|].
  apply parseCompilerErrors_appended.
Qed.

Lemma runStaticAnalysis_appended disk files t :
  exists es ws,
    appended (lit "static_analysis") t (runStaticAnalysis spawnSync disk files t) es ws.
Proof.
  unfold runStaticAnalysis.
  assert (H1 : exists es ws, appended (lit "static_analysis") t
                               (runCppcheck spawnSync disk files t) es ws).
  { unfold runCppcheck.
    destruct (filter _ files); [exists [], []; apply appended_refl|]. cbv zeta.
    destruct (truthy _); [|exists [], []; apply appended_refl].
    apply appended_fold. intros gs b e. apply cppcheckIssue_type. }
  destruct H1 as (es & ws & H1).
  assert (H2 : exists es' ws', appended (lit "static_analysis")
                 (runCppcheck spawnSync disk files t)
                 (runClangTidy spawnSync disk files (runCppcheck spawnSync disk files t))
                 es' ws').
  { generalize (runCppcheck spawnSync disk files t). intros t1.
    unfold runClangTidy.
    destruct (filter _ files); [exists [], []; apply appended_refl|]. cbv zeta.
    destruct (truthy _); [|exists [], []; apply appended_refl].
    apply appended_fold. intros gs b e. apply clangTidyIssue_type. }
  destruct H2 as (es' & ws' & H2).
  exists (es ++ es'), (ws ++ ws'). by eapply appended_trans.
Qed.

(** The disk after the compilation check: the two temporary names are
    free when the check ran, every other path is as it was. *)
Lemma checkCompilation_lookup disk codeDir files t p :
  (checkCompilation spawnSync disk codeDir files t).2 !! p
  = if bool_decide (filter (fun f => isCFile f = true) files = []) then disk !! p
    else if bool_decide (p = testFileOf codeDir \/ p = objFileOf codeDir) then None
    else disk !! p.
Proof.
  unfold checkCompilation, testFileOf, objFileOf.
  destruct (filter _ files) as [|f fs'];
    [by rewrite bool_decide_eq_true_2 by done|].
  rewrite (bool_decide_eq_false_2 (f :: fs' = [])) by done. cbv zeta. cbn [snd].
  unfold fs.unlinkSync, fs.writeFileSync, fs.existsSync.
  set (test := path.join codeDir (lit "__test_compile.c")).
  set (obj := path.join codeDir (lit "__test_compile.o")).
  assert (Hdel : forall q, delete test (<[test := q]> disk) !! p
                           = if decide (p = test) then None else disk !! p).
  { intros q. destruct (decide (p = test)) as [->|Hp].
    - apply lookup_delete_eq.
    - rewrite lookup_delete_ne by done. by rewrite lookup_insert_ne. }
  assert (Hrhs : (if bool_decide (p = test \/ p = obj) then None else disk !! p)
                 = if decide (p = obj) then None
                   else if decide (p = test) then None else disk !! p).
  { destruct (decide (p = obj)) as [->|Ho].
    - by rewrite bool_decide_eq_true_2 by (by right).
    - destruct (decide (p = test)) as [->|Ht].
      + by rewrite bool_decide_eq_true_2 by (by left).
      + by rewrite bool_decide_eq_false_2 by (by intros [?|?]). }
  rewrite Hrhs. clear Hrhs.
  match goal with
  | |- (if bool_decide (is_Some ?l) then _ else _) !! _ = _ =>
      destruct (bool_decide_reflect (is_Some l)) as [Hobj|Hobj]
  end.
  - destruct (decide (p = obj)) as [->|Ho].
    + apply lookup_delete_eq.
    + rewrite lookup_delete_ne by done. apply Hdel.
  - rewrite Hdel. destruct (decide (p = obj)) as [->|Ho]; [|done].
    destruct (decide (obj = test)) as [Ht|Ht]; [done|].
    destruct (disk !! obj) as [c|] eqn:Hl; [|done].
    exfalso. apply Hobj. rewrite lookup_delete_ne by done.
    rewrite lookup_insert_ne by done. by eexists.
Qed.

(** The shape of every successful analysis. *)
Lemma analyzeCode_passes t disk codeDir files r t' disk' :
  analyzeCode spawnSync readdirSync t disk codeDir files = Some (r, t', disk') ->
  exists fl ce cw se sw,
    sourceFiles readdirSync disk codeDir files = Some fl /\
    result_errors r
    = concat (map (syntaxFile disk) (map (fun f => path.join codeDir f) fl))
      ++ ce ++ se /\
    result_warnings r
    = cw ++ sw
      ++ concat (map (qualityFile disk') (map (fun f => path.join codeDir f) fl)) /\
    result_fixes r = [] /\
    summary r = getSummary (mkInstance (options t) (result_errors r)
                                       (result_warnings r) []) /\
    Forall (fun i => type i = lit "compilation") (ce ++ cw) /\
    Forall (fun i => type i = lit "static_analysis") (se ++ sw) /\
    (useCompiler (options t) = false -> ce = [] /\ cw = [] /\ disk' = disk) /\
    (useStaticAnalysis (options t) = false -> se = [] /\ sw = []) /\
    disk' = (if useCompiler (options t)
             then (checkCompilation spawnSync disk codeDir
                     (map (fun f => path.join codeDir f) fl)
                     (checkSyntax disk (map (fun f => path.join codeDir f) fl)
                                  (mkInstance (options t) [] [] []))).2
             else disk).
Proof.
  unfold analyzeCode.
  change (match files with
          | Some fl => Some fl
          | None => option_map (List.filter isSourceFile) (readdirSync disk codeDir)
          end) with (sourceFiles readdirSync disk codeDir files).
  destruct (sourceFiles readdirSync disk codeDir files) as [fl|]; [|done].
  set (codeFiles := map _ fl).
  rewrite checkSyntax_closed. cbn [options errors warnings fixes app].
  set (t1 := mkInstance (options t) _ [] []).
  destruct (checkCompilation_appended disk codeDir codeFiles t1)
    as (ce & cw & Hc).
  assert (Hstep2 : exists t2 disk2 ce cw,
             (if useCompiler (options t)
              then checkCompilation spawnSync disk codeDir codeFiles t1
              else (t1, disk)) = (t2, disk2) /\
             appended (lit "compilation") t1 t2 ce cw /\
             (useCompiler (options t) = false -> ce = [] /\ cw = [] /\ disk2 = disk) /\
             disk2 = (if useCompiler (options t)
                      then (checkCompilation spawnSync disk codeDir codeFiles t1).2
                      else disk)).
  { destruct (useCompiler (options t)).
    - destruct (checkCompilation spawnSync disk codeDir codeFiles t1)
        as [t2 disk2] eqn:Hrun.
      exists t2, disk2, ce, cw. split; [done|]. split; [exact Hc|]. by split.
    - exists t1, disk, [], []. split; [done|]. split; [apply appended_refl|].
      by split. }
  clear ce cw Hc.
  destruct Hstep2 as (t2 & disk2 & ce & cw & -> & Hc & Hoff & Hdisk).
  destruct (runStaticAnalysis_appended disk2 codeFiles t2) as (se & sw & Hs).
  assert (Hstep3 : exists t3 se sw,
             (if useStaticAnalysis (options t2)
              then runStaticAnalysis spawnSync disk2 codeFiles t2 else t2) = t3 /\
             appended (lit "static_analysis") t2 t3 se sw /\
             (useStaticAnalysis (options t2) = false -> se = [] /\ sw = [])).
  { destruct (useStaticAnalysis (options t2)).
    - exists (runStaticAnalysis spawnSync disk2 codeFiles t2), se, sw.
      split; [done|]. by split.
    - exists t2, [], []. split; [done|]. split; [apply appended_refl|done]. }
  clear se sw Hs.
  destruct Hstep3 as (t3 & se & sw & -> & Hs & Hoff3).
  rewrite checkCodeQuality_closed. cbn [options errors warnings fixes].
  destruct Hc as (Ho2 & Hf2 & He2 & Hw2 & Hty2).
  destruct Hs as (Ho3 & Hf3 & He3 & Hw3 & Hty3).
  cbn [options errors warnings fixes app] in *.
  intros [= <- <- <-]. exists fl, ce, cw, se, sw.
  cbn [result_errors result_warnings result_fixes summary].
  rewrite He3, He2, Hw3, Hw2, Hf3, Hf2, Ho3, Ho2.
  rewrite <- !app_assoc.
  repeat split; try done.
  - by apply Hoff.
  - by apply Hoff.
  - by apply Hoff.
  - apply Hoff3. by rewrite Ho2.
  - apply Hoff3. by rewrite Ho2.
  - rewrite Hdisk. by rewrite checkSyntax_closed.
Qed.

End PassFacts.

(** ** The summary *)

Lemma bump_to_map (k : str) (g : list (str * nat)) :
  (list_to_map (bump k g) : gmap str nat)
  = <[k := S (default 0%nat ((list_to_map g : gmap str nat) !! k))]> (list_to_map g).
Proof.
  induction g as [|[k' n] g IH]; [done|].
  cbn [bump]. case_bool_decide as Hk.
  - subst k'. cbn [list_to_map foldr uncurry]. unfold curry; simpl.
    rewrite lookup_insert_eq. simpl. by rewrite insert_insert_eq.
  - change (list_to_map ((k', n) :: bump k g) : gmap str nat)
      with (<[k' := n]> (list_to_map (bump k g) : gmap str nat)).
    change (list_to_map ((k', n) :: g) : gmap str nat)
      with (<[k' := n]> (list_to_map g : gmap str nat)).
    rewrite IH, lookup_insert_ne by done.
    by rewrite insert_insert_ne by done.
Qed.

Lemma bump_keys (k : str) (g : list (str * nat)) :
  map fst (bump k g) = if bool_decide (k ∈ map fst g) then map fst g
                       else map fst g ++ [k].
Proof.
  induction g as [|[k' n] g IH]; [done|].
  cbn [bump map fst]. destruct (bool_decide_reflect (k' = k)) as [->|Hk].
  - cbn [map fst]. by rewrite bool_decide_eq_true_2 by left.
  - cbn [map fst]. rewrite IH.
    destruct (bool_decide_reflect (k ∈ map fst g)) as [Hin|Hin].
    + by rewrite bool_decide_eq_true_2 by (by right).
    + rewrite bool_decide_eq_false_2; [done|].
      intros [?|?]%elem_of_cons; [by apply Hk | by apply Hin].
Qed.

Lemma bump_NoDup (k : str) (g : list (str * nat)) :
  NoDup (map fst g) -> NoDup (map fst (bump k g)).
Proof.
  intros Hnd. rewrite bump_keys. case_bool_decide as Hin; [done|].
  apply NoDup_app. split; [done|]. split; [|apply NoDup_singleton].
  intros x Hx ->%list_elem_of_singleton. by apply Hin.
Qed.

Lemma bump_sum (k : str) (g : list (str * nat)) :
  sum_list (map snd (bump k g)) = S (sum_list (map snd g)).
Proof.
  induction g as [|[k' n] g IH]; [done|].
  cbn [bump]. case_bool_decide; [done|].
  cbn [map snd sum_list]. rewrite IH. lia.
Qed.

Lemma countType_snoc (k : str) (issues : list Issue) (i : Issue) :
  countType k (issues ++ [i])
  = (countType k issues + if bool_decide (type i = k) then 1 else 0)%nat.
Proof.
  unfold countType. rewrite filter_app, length_app. f_equal.
  case_bool_decide as Hk.
  - by rewrite filter_cons_True by done.
  - by rewrite filter_cons_False by done.
Qed.

Lemma tableOf_fold (seen rest : list Issue) (g : list (str * nat)) :
  tableOf seen g ->
  tableOf (seen ++ rest)
          (fold_left (fun groups issue => bump (type issue) groups) rest g).
Proof.
  revert seen g. induction rest as [|i rest IH]; intros seen g Hg.
  - by rewrite app_nil_r.
  - cbn [fold_left].
    replace (seen ++ i :: rest) with ((seen ++ [i]) ++ rest)
      by (by rewrite <- app_assoc).
    apply IH. destruct Hg as (Hnd & Hl & Hsum). split; [by apply bump_NoDup|]. split.
    + intros k. rewrite bump_to_map, countType_snoc.
      destruct (decide (type i = k)) as [->|Hne].
      * rewrite lookup_insert_eq, Hl.
        rewrite (bool_decide_eq_true_2 (k = k)) by done.
        rewrite (bool_decide_eq_false_2 (_ + 1 = _)%nat) by lia.
        f_equal. destruct (bool_decide_reflect (countType k seen = 0%nat)); simpl; lia.
      * rewrite lookup_insert_ne by done.
        rewrite (bool_decide_eq_false_2 (type i = k)) by done.
        rewrite Nat.add_0_r. apply Hl.
    + rewrite bump_sum, length_app, Hsum. simpl. lia.
Qed.

Lemma groupByType_histogram (issues : list Issue) :
  histogram issues (groupByType issues).
Proof.
  destruct (tableOf_fold [] issues []) as (Hnd & Hl & Hsum).
  { split; [constructor|]. split; [|done]. intros k. apply lookup_empty. }
  cbn [app] in *. fold (groupByType issues) in *.
  split; [done|]. split; [|done].
  intros k n. rewrite (elem_of_list_to_map (M := gmap str)) by done.
  rewrite Hl. case_bool_decide as H0.
  - split; [done|]. intros [? ?]. lia.
  - split; [intros [= <-]; split; [lia|done] | by intros [_ ->]].
Qed.

Lemma qualityFile_type disk filePath :
  Forall (fun w => type w = lit "quality") (qualityFile disk filePath).
Proof.
  apply Forall_forall. intros w Hw. unfold qualityFile in Hw.
  destruct (negb (fs.existsSync disk filePath)); [by apply elem_of_nil in Hw|].
  apply elem_of_imap_concat in Hw as (idx & l & _ & Hw).
  unfold qualityLine in Hw. apply elem_of_app in Hw as [Hw|Hw].
  - destruct (includes l (lit "volatile") && _ && _); [|by apply elem_of_nil in Hw].
    by apply list_elem_of_singleton in Hw as ->.
  - destruct (rx_test declarationRegex l && _ && _ && _);
      [|by apply elem_of_nil in Hw].
    by apply list_elem_of_singleton in Hw as ->.
Qed.

Lemma syntaxFile_type disk filePath :
  Forall (fun e => type e = lit "syntax") (syntaxFile disk filePath).
Proof.
  apply Forall_forall. intros e He. unfold syntaxFile in He.
  destruct (negb (fs.existsSync disk filePath)); [by apply elem_of_nil in He|].
  apply elem_of_imap_concat in He as (idx & l & _ & He).
  by apply syntaxLine_line in He as (_ & _ & Hty & _).
Qed.

Lemma Forall_concat_map {A B} (P : B -> Prop) (f : A -> list B) (l : list A) :
  (forall x, Forall P (f x)) -> Forall P (concat (map f l)).
Proof.
  intros Hf. induction l as [|x l IH]; [constructor|].
  cbn [map concat]. apply Forall_app. by split.
Qed.

(** With the list of files given, an analysis always returns. *)
Lemma analyzeCode_given_files spawnSync readdirSync t disk codeDir fl :
  exists r t' disk',
    analyzeCode spawnSync readdirSync t disk codeDir (Some fl) = Some (r, t', disk').
Proof.
  unfold analyzeCode.
  destruct (if useCompiler _ then _ else _) as [t2 disk2]. by eexists _, _, _.
Qed.

(** X7: the Issues of an analysis come in the order of its passes.  The
    errors are those of the syntax heuristics on every file, then those
    of the compiler, then those of the static analyzers; the warnings
    are those of the compiler, then those of the static analyzers, then
    those of the quality heuristics on every file as the disk is after
    the compilation check. *)
Theorem analyzeCode_pass_order spawnSync readdirSync t disk codeDir files r t' disk' :
  analyzeCode spawnSync readdirSync t disk codeDir files = Some (r, t', disk') ->
  exists fl ce cw se sw,
    sourceFiles readdirSync disk codeDir files = Some fl /\
    result_errors r
    = concat (map (syntaxFile disk) (map (fun f => path.join codeDir f) fl))
      ++ ce ++ se /\
    result_warnings r
    = cw ++ sw
      ++ concat (map (qualityFile disk') (map (fun f => path.join codeDir f) fl)) /\
    Forall (fun i => type i = lit "compilation") (ce ++ cw) /\
    Forall (fun i => type i = lit "static_analysis") (se ++ sw).
Proof.
  intros H. apply analyzeCode_passes in H
    as (fl & ce & cw & se & sw & Hfl & He & Hw & _ & _ & Hc & Hs & _).
  by exists fl, ce, cw, se, sw.
Qed.

Lemma analyzeCode_pass_order_witness :
  exists r t' disk',
    analyzeCode scenarioB_tools noListing fresh diskUndeclared proj
                (Some [lit "a.c"]) = Some (r, t', disk') /\
    exists fl ce cw se sw,
      sourceFiles noListing diskUndeclared proj (Some [lit "a.c"]) = Some fl /\
      result_errors r
      = concat (map (syntaxFile diskUndeclared) (map (fun f => path.join proj f) fl))
        ++ ce ++ se /\
      result_warnings r
      = cw ++ sw
        ++ concat (map (qualityFile disk') (map (fun f => path.join proj f) fl)) /\
      Forall (fun i => type i = lit "compilation") (ce ++ cw) /\
      Forall (fun i => type i = lit "static_analysis") (se ++ sw).
Proof.
  destruct (analyzeCode_given_files scenarioB_tools noListing fresh diskUndeclared
              proj [lit "a.c"]) as (r & t' & disk' & Hrun).
  exists r, t', disk'. split; [exact Hrun|].
  exact (analyzeCode_pass_order _ _ _ _ _ _ _ _ _ Hrun).
Defined.

(** X8: with the compiler and the static analyzers switched off, an
    analysis reports exactly the errors of the syntax heuristics and the
    warnings of the quality heuristics, file by file, and leaves the
    disk as it was. *)
Theorem analyzeCode_heuristics_only spawnSync readdirSync t disk codeDir files
    r t' disk' :
  useCompiler (options t) = false ->
  useStaticAnalysis (options t) = false ->
  analyzeCode spawnSync readdirSync t disk codeDir files = Some (r, t', disk') ->
  exists fl,
    sourceFiles readdirSync disk codeDir files = Some fl /\
    result_errors r
    = concat (map (syntaxFile disk) (map (fun f => path.join codeDir f) fl)) /\
    result_warnings r
    = concat (map (qualityFile disk) (map (fun f => path.join codeDir f) fl)) /\
    disk' = disk.
Proof.
  intros Hc Hs H. apply analyzeCode_passes in H
    as (fl & ce & cw & se & sw & Hfl & He & Hw & _ & _ & _ & _ & Hoff & Hoff' & _).
  destruct (Hoff Hc) as (-> & -> & ->). destruct (Hoff' Hs) as (-> & ->).
  exists fl. rewrite He, Hw. by rewrite !app_nil_r.
Qed.

Lemma analyzeCode_heuristics_only_witness :
  exists r t' disk',
    analyzeCode scenarioB_tools noListing heuristicsOnly diskUndeclared proj
                (Some [lit "a.c"]) = Some (r, t', disk') /\
    exists fl,
      sourceFiles noListing diskUndeclared proj (Some [lit "a.c"]) = Some fl /\
      result_errors r
      = concat (map (syntaxFile diskUndeclared) (map (fun f => path.join proj f) fl)) /\
      result_warnings r
      = concat (map (qualityFile diskUndeclared) (map (fun f => path.join proj f) fl)) /\
      disk' = diskUndeclared.
Proof.
  destruct (analyzeCode_given_files scenarioB_tools noListing heuristicsOnly
              diskUndeclared proj [lit "a.c"]) as (r & t' & disk' & Hrun).
  exists r, t', disk'. split; [exact Hrun|].
  exact (analyzeCode_heuristics_only scenarioB_tools noListing heuristicsOnly
           diskUndeclared proj (Some [lit "a.c"]) r t' disk' eq_refl eq_refl Hrun).
Defined.

(** X9: an error of an analysis is of type syntax, compilation or
    static_analysis, never quality; a warning is of type compilation,
    static_analysis or quality, never syntax. *)
Theorem analyzeCode_issue_types spawnSync readdirSync t disk codeDir files r t' disk' :
  analyzeCode spawnSync readdirSync t disk codeDir files = Some (r, t', disk') ->
  Forall (fun e => type e ∈ [lit "syntax"; lit "compilation"; lit "static_analysis"])
         (result_errors r) /\
  Forall (fun w => type w ∈ [lit "compilation"; lit "static_analysis"; lit "quality"])
         (result_warnings r).
Proof.
  intros H. apply analyzeCode_passes in H
    as (fl & ce & cw & se & sw & _ & -> & -> & _ & _ & Hc & Hs & _).
  apply Forall_app in Hc as [Hce Hcw]. apply Forall_app in Hs as [Hse Hsw].
  split; repeat (apply Forall_app; split).
  - eapply Forall_impl; [apply Forall_concat_map, syntaxFile_type|].
    intros e ->. set_solver.
  - eapply Forall_impl; [exact Hce|]. intros e ->. set_solver.
  - eapply Forall_impl; [exact Hse|]. intros e ->. set_solver.
  - eapply Forall_impl; [exact Hcw|]. intros e ->. set_solver.
  - eapply Forall_impl; [exact Hsw|]. intros e ->. set_solver.
  - eapply Forall_impl; [apply Forall_concat_map, qualityFile_type|].
    intros e ->. set_solver.
Qed.

Lemma analyzeCode_issue_types_witness :
  exists r t' disk',
    analyzeCode scenarioB_tools noListing fresh diskUndeclared proj
                (Some [lit "a.c"]) = Some (r, t', disk') /\
    Forall (fun e => type e ∈ [lit "syntax"; lit "compilation"; lit "static_analysis"])
           (result_errors r) /\
    Forall (fun w => type w ∈ [lit "compilation"; lit "static_analysis"; lit "quality"])
           (result_warnings r).
Proof.
  destruct (analyzeCode_given_files scenarioB_tools noListing fresh diskUndeclared
              proj [lit "a.c"]) as (r & t' & disk' & Hrun).
  exists r, t', disk'. split; [exact Hrun|].
  exact (analyzeCode_issue_types _ _ _ _ _ _ _ _ _ Hrun).
Defined.

(** X10: the summary of an analysis counts what the analysis returns.
    The totals are the lengths of the two lists, there is no fix yet,
    and each table of types has one entry for every type that occurs,
    bound to the number of Issues of that type, so that its counts add
    up to the total. *)
Theorem analyzeCode_summary spawnSync readdirSync t disk codeDir files r t' disk' :
  analyzeCode spawnSync readdirSync t disk codeDir files = Some (r, t', disk') ->
  result_fixes r = [] /\
  totalFixes (summary r) = 0%nat /\
  totalErrors (summary r) = length (result_errors r) /\
  totalWarnings (summary r) = length (result_warnings r) /\
  histogram (result_errors r) (errorTypes (summary r)) /\
  histogram (result_warnings r) (warningTypes (summary r)).
Proof.
  intros H. apply analyzeCode_passes in H
    as (fl & ce & cw & se & sw & _ & _ & _ & Hf & -> & _).
  split; [done|]. unfold getSummary.
  cbn [totalFixes totalErrors totalWarnings errorTypes warningTypes
       errors warnings fixes length].
  do 3 (split; [done|]). split; apply groupByType_histogram.
Qed.

Lemma analyzeCode_summary_witness :
  exists r t' disk',
    analyzeCode scenarioB_tools noListing used diskUndeclared proj
                (Some [lit "a.c"]) = Some (r, t', disk') /\
    result_fixes r = [] /\
    totalFixes (summary r) = 0%nat /\
    totalErrors (summary r) = length (result_errors r) /\
    totalWarnings (summary r) = length (result_warnings r) /\
    histogram (result_errors r) (errorTypes (summary r)) /\
    histogram (result_warnings r) (warningTypes (summary r)).
Proof.
  destruct (analyzeCode_given_files scenarioB_tools noListing used diskUndeclared
              proj [lit "a.c"]) as (r & t' & disk' & Hrun).
  exists r, t', disk'. split; [exact Hrun|].
  exact (analyzeCode_summary _ _ _ _ _ _ _ _ _ Hrun).
Defined.

(** The closed form of the disk after an analysis. *)
Lemma analyzeCode_lookup spawnSync readdirSync t disk codeDir files fl r t' disk' p :
  sourceFiles readdirSync disk codeDir files = Some fl ->
  analyzeCode spawnSync readdirSync t disk codeDir files = Some (r, t', disk') ->
  disk' !! p
  = if useCompiler (options t)
       && existsb isCFile (map (fun f => path.join codeDir f) fl)
       && bool_decide (p = testFileOf codeDir \/ p = objFileOf codeDir)
    then None else disk !! p.
Proof.
  intros Hfl H. apply analyzeCode_passes in H
    as (fl' & ce & cw & se & sw & Hfl' & _ & _ & _ & _ & _ & _ & _ & _ & ->).
  rewrite Hfl in Hfl'. injection Hfl' as <-.
  destruct (useCompiler (options t)); [|done]. cbn [andb].
  rewrite checkCompilation_lookup.
  set (codeFiles := map _ fl).
  assert (Hex : bool_decide (filter (fun f => isCFile f = true) codeFiles = [])
                = negb (existsb isCFile codeFiles)).
  { induction codeFiles as [|f fs' IH]; [done|].
    cbn [existsb]. destruct (isCFile f) eqn:Hf.
    - rewrite filter_cons_True by done. by rewrite bool_decide_eq_false_2 by done.
    - rewrite filter_cons_False by (by rewrite Hf). by rewrite IH. }
  rewrite Hex. by destruct (existsb isCFile codeFiles).
Qed.

(** X11: what an analysis does to the disk.  When the compilation check
    is on and one of the files is a C or C++ source, the two names
    [__test_compile.c] and [__test_compile.o] of the code directory are
    free afterwards, whatever was stored under them before; every other
    path, and every path in the other cases, holds what it held. *)
Theorem analyzeCode_disk spawnSync readdirSync t disk codeDir files fl r t' disk' p :
  sourceFiles readdirSync disk codeDir files = Some fl ->
  analyzeCode spawnSync readdirSync t disk codeDir files = Some (r, t', disk') ->
  disk' !! p
  = if useCompiler (options t)
       && existsb isCFile (map (fun f => path.join codeDir f) fl)
       && bool_decide (p = testFileOf codeDir \/ p = objFileOf codeDir)
    then None else disk !! p.
Proof. apply analyzeCode_lookup. Qed.

(** A file of the project under the name of the test file is gone after
    an analysis whose compiler found nothing to report. *)
Lemma analyzeCode_disk_witness :
  exists r t' disk',
    analyzeCode quietTools noListing fresh diskClobber proj (Some [lit "a.c"])
    = Some (r, t', disk') /\
    diskClobber !! lit "proj/__test_compile.c" = Some (lit "int kept;") /\
    disk' !! lit "proj/__test_compile.c" = None.
Proof.
  destruct (analyzeCode_given_files quietTools noListing fresh diskClobber
              proj [lit "a.c"]) as (r & t' & disk' & Hrun).
  exists r, t', disk'. split; [exact Hrun|]. split; [by vm_compute|].
  rewrite (analyzeCode_disk quietTools noListing fresh diskClobber proj
             (Some [lit "a.c"]) [lit "a.c"] r t' disk'
             (lit "proj/__test_compile.c") eq_refl Hrun).
  by vm_compute.
Defined.

(** ** Compiler output without diagnostics *)

Lemma startsWith_app_l (s b w : str) :
  startsWith s w = true -> startsWith (s ++ b) w = true.
Proof.
  intros H. rewrite (startsWith_prefix _ _ H), <- app_assoc.
  apply startsWith_app.
Qed.

Lemma includes_app_l (s b w : str) :
  includes s w = true -> includes (s ++ b) w = true.
Proof.
  induction s as [|c s IH].
  - destruct w; [|discriminate]. intros _. by destruct b.
  - cbn [includes app]. intros [H|H]%orb_true_iff; apply orb_true_iff.
    + left. by apply (startsWith_app_l (c :: s)).
    + right. by apply IH.
Qed.

Lemma includes_app_r (a s w : str) :
  includes s w = true -> includes (a ++ s) w = true.
Proof.
  intros H. induction a as [|c a IH]; [done|].
  cbn [includes app]. rewrite IH. apply orb_true_r.
Qed.

Lemma includes_join (w : str) (ls : list str) (l : str) :
  l ∈ ls -> includes l w = true -> includes (join [NL] ls) w = true.
Proof.
  induction ls as [|l0 ls IH]; [by intros ?%elem_of_nil|].
  intros [->|Hin]%elem_of_cons Hl.
  - destruct ls; [done|]. by apply includes_app_l.
  - destruct ls as [|l1 ls]; [by apply elem_of_nil in Hin|].
    change (join [NL] (l0 :: l1 :: ls)) with (l0 ++ ([NL] ++ join [NL] (l1 :: ls))).
    apply includes_app_r, includes_app_r. by apply IH.
Qed.

Lemma fold_generic (ls : list str) (t : Instance) :
  fold_left (fun t line => pushError (genericIssue line) t) ls t
  = mkInstance (options t) (errors t ++ map genericIssue ls) (warnings t) (fixes t).
Proof.
  revert t. induction ls as [|l ls IH]; intros t.
  - destruct t. simpl. by rewrite app_nil_r.
  - cbn [fold_left]. rewrite IH. simpl. by rewrite <- app_assoc.
Qed.

(** X12: compiler output that holds no diagnostic of the form
    file:line:column: error or warning: message is used only when the
    instance holds no error yet, whichever pass it would have come
    from.  Then every line of the output that contains [error:] becomes
    one error of type compilation for the file [unknown] at line 0;
    otherwise the output adds nothing. *)
Theorem parseCompilerErrors_unstructured disk output files t :
  rx_scan errorRegex output 0 = [] ->
  parseCompilerErrors disk output files t
  = if bool_decide (errors t = [])
    then mkInstance (options t)
           (map genericIssue
                (filter (fun l => includes l (lit "error:") = true) (split NL output)))
           (warnings t) (fixes t)
    else t.
Proof.
  intros Hscan. unfold parseCompilerErrors. rewrite Hscan. cbn [fold_left].
  destruct (bool_decide_reflect (errors t = [])) as [Hnil|Hne]; [|done].
  cbn [andb].
  destruct (includes output (lit "error:")) eqn:Hinc.
  - fold genericIssue. rewrite fold_generic. by rewrite Hnil.
  - assert (Hnone : filter (fun l => includes l (lit "error:") = true)
                           (split NL output) = []).
    { apply elem_of_nil_inv. intros l [Hl Hin]%list_elem_of_filter.
      pose proof (includes_join (lit "error:") _ l Hin Hl) as Hj.
      rewrite join_split in Hj. congruence. }
    rewrite Hnone. destruct t. simpl in *. by subst.
Qed.

(** A linker failure is reported for a clean instance and dropped for
    one that already holds a syntax error. *)
Lemma parseCompilerErrors_unstructured_witness :
  map message (errors (parseCompilerErrors diskIntX linkerOutput [lit "proj/a.c"] fresh))
  = [lit "collect2: ld returned 1 exit status"] /\
  parseCompilerErrors diskIntX linkerOutput [lit "proj/a.c"]
                      (pushError issueIntX fresh)
  = pushError issueIntX fresh.
Proof.
  assert (Hscan : rx_scan errorRegex linkerOutput 0 = []) by (by vm_compute).
  split.
  - rewrite (parseCompilerErrors_unstructured diskIntX linkerOutput
               [lit "proj/a.c"] fresh Hscan).
    by vm_compute.
  - by rewrite (parseCompilerErrors_unstructured diskIntX linkerOutput
                  [lit "proj/a.c"] (pushError issueIntX fresh) Hscan).
Defined.

(** ** The terminator heuristic *)

(** A repetition hands over to the rest of the pattern at a suffix of
    its input. *)
Lemma match_rep_cont (k : str -> option (list str * str)) c min greedy n acc s gs rest :
  match_rep k c min greedy n acc s = Some (gs, rest) ->
  exists pre s' gs', s = pre ++ s' /\ k s' = Some (gs', rest).
Proof.
  revert n acc. induction s as [|x s IH]; intros n acc.
  - assert (Hstop : (if (min <=? n)%nat then push (rev acc) (k []) else None)
                    = Some (gs, rest) ->
                    exists pre s' gs', [] = pre ++ s' /\ k s' = Some (gs', rest)).
    { destruct (min <=? n)%nat; [|done].
      intros (gs' & _ & Hk)%push_inv. by exists [], [], gs'. }
    cbn [match_rep]. destruct greedy; cbn [orelse]; [exact Hstop|].
    destruct (if (min <=? n)%nat then push (rev acc) (k []) else None) as [r|] eqn:Hr;
      cbn [orelse]; [|done].
    intros [= ->]. by apply Hstop.
  - assert (Hstop : (if (min <=? n)%nat then push (rev acc) (k (x :: s)) else None)
                    = Some (gs, rest) ->
                    exists pre s' gs', x :: s = pre ++ s' /\ k s' = Some (gs', rest)).
    { destruct (min <=? n)%nat; [|done].
      intros (gs' & _ & Hk)%push_inv. by exists [], (x :: s), gs'. }
    assert (Hmore : (if c x then match_rep k c min greedy (S n) (x :: acc) s else None)
                    = Some (gs, rest) ->
                    exists pre s' gs', x :: s = pre ++ s' /\ k s' = Some (gs', rest)).
    { destruct (c x); [|done].
      intros (pre & s' & gs' & -> & Hk)%IH. by exists (x :: pre), s', gs'. }
    cbn [match_rep]. destruct greedy.
    + destruct (if c x then match_rep k c min true (S n) (x :: acc) s else None)
        as [r|] eqn:Hr; cbn [orelse].
      * intros [= ->]. by apply Hmore.
      * exact Hstop.
    + destruct (if (min <=? n)%nat then push (rev acc) (k (x :: s)) else None)
        as [r|] eqn:Hr; cbn [orelse].
      * intros [= ->]. by apply Hstop.
      * exact Hmore.
Qed.

Lemma rx_test_inv (p : list atom) (s : str) :
  rx_test p s = true ->
  exists pre s' gs rest, s = pre ++ s' /\ rx_match p s' = Some (gs, rest).
Proof.
  induction s as [|x s IH]; cbn [rx_test].
  - destruct (rx_match p []) as [[gs rest]|] eqn:Hm; [|done].
    intros _. by exists [], [], gs, rest.
  - destruct (rx_match p (x :: s)) as [[gs rest]|] eqn:Hm.
    + intros _. by exists [], (x :: s), gs, rest.
    + intros (pre & s' & gs & rest & -> & Hm')%IH.
      by exists (x :: pre), s', gs, rest.
Qed.

Lemma rx_test_suffix (p : list atom) (pre s : str) :
  is_Some (rx_match p s) -> rx_test p (pre ++ s) = true.
Proof.
  intros [r Hr]. induction pre as [|x pre IH].
  - destruct s; cbn [app rx_test]; by rewrite Hr.
  - cbn [app rx_test]. by destruct (rx_match p (x :: pre ++ s)).
Qed.

Lemma none_of_spec (w : string) (c : ascii) :
  none_of w c = true <-> c ∉ lit w.
Proof.
  unfold none_of. rewrite negb_true_iff, <- not_true_iff_false.
  rewrite existsb_exists. split; intros H Hin; apply H.
  - exists c. split; [by apply list_elem_of_In | apply Ascii.eqb_refl].
  - destruct Hin as (y & Hy & ->%Ascii.eqb_eq). by apply list_elem_of_In.
Qed.

Lemma space_not_terminator (c : ascii) :
  is_space c = true -> none_of ";{}" c = true.
Proof.
  intros Hsp. destruct (none_of ";{}" c) eqn:Hn; [done|].
  unfold none_of in Hn. apply negb_false_iff, existsb_exists in Hn
    as (y & Hy & ->%Ascii.eqb_eq).
  cbv [lit String.list_ascii_of_string In] in Hy.
  destruct Hy as [<-|[<-|[<-|[]]]]; by vm_compute in Hsp.
Qed.

Lemma last_forallb (c : ascii -> bool) (ws : str) (x : ascii) :
  forallb c ws = true -> last ws = Some x -> c x = true.
Proof.
  intros Hall Hlast. apply last_Some_elem_of in Hlast.
  rewrite forallb_forall in Hall. by apply Hall, list_elem_of_In.
Qed.

(** The terminator pattern matches in a line without line terminators
    exactly when the last character of the line is none of the three. *)
Lemma terminatorRegex_test (line : str) :
  ((exists c, last line = Some c /\ c ∉ lit ";{}") ->
   rx_test terminatorRegex line = true) /\
  (Forall (fun c => is_line_terminator c = false) line ->
   rx_test terminatorRegex line = true ->
   exists c, last line = Some c /\ c ∉ lit ";{}").
Proof.
  split.
  - intros (c & Hlast & Hc). apply last_Some in Hlast as [init ->].
    apply rx_test_suffix. apply none_of_spec in Hc.
    unfold terminatorRegex. cbn. rewrite Hc. by eexists.
  - intros Hfree (pre & s & gs & rest & -> & Hm)%rx_test_inv.
    pose proof (rx_match_sound _ _ _ _ Hm) as [Hacc Hs].
    unfold terminatorRegex in Hm, Hacc. cbn [rx_match] in Hm. unfold match_char in Hm.
    destruct s as [|x s']; [done|].
    destruct (none_of ";{}" x) eqn:Hx; [|done].
    apply push_inv in Hm as (gs1 & -> & Hm).
    apply Forall2_cons_inv_l in Hacc as (g0 & gs2 & _ & Hacc & Heq).
    injection Heq as <- <-.
    apply Forall2_cons_inv_l in Hacc as (ws & gs3 & [Hws _] & Hacc & ->).
    apply Forall2_cons_inv_l in Hacc as (g2 & gs4 & Hg2 & Hacc & ->).
    apply Forall2_nil_inv_l in Hacc as ->. simpl in Hg2. subst g2.
    apply match_rep_cont in Hm as (pre' & s'' & gs' & Hs' & Hk).
    unfold match_eol in Hk. destruct (at_eol s'') eqn:Heol; [|done].
    apply push_inv in Hk as (gs'' & _ & Hk). cbn [rx_match] in Hk.
    injection Hk as _ <-.
    assert (Hnil : s'' = []).
    { destruct s'' as [|y s'']; [done|]. exfalso.
      rewrite Forall_forall in Hfree.
      assert (Hy : is_line_terminator y = false).
      { apply Hfree. rewrite Hs'. set_solver. }
      simpl in Heol. congruence. }
    subst s''. cbn [concat] in Hs. rewrite !app_nil_r in Hs.
    injection Hs as Hs. subst s'.
    destruct (last ws) as [c|] eqn:Hlast.
    + exists c. split.
      * rewrite last_app. cbn [last]. rewrite last_cons, Hlast. done.
      * apply none_of_spec, space_not_terminator. by eapply last_forallb.
    + apply last_None in Hlast as ->. exists x. split.
      * by rewrite last_snoc.
      * by apply none_of_spec.
Qed.

Lemma flagged_test (filePath : str) (idx : nat) (line : str) :
  flagged filePath idx line
  <-> rx_test terminatorRegex line = true /\
      endsWith (trim line) (lit "\") = false.
Proof.
  unfold flagged, syntaxLine. split.
  - intros (e & He & Hmsg). rewrite list_elem_of_In, in_flat_map in He.
    destruct He as (c & Hc & He).
    destruct (rx_test (pattern c) line) eqn:Htest; [|done].
    destruct (endsWith (trim line) (lit "\")) eqn:Hend; [done|].
    destruct He as [<-|[]]. cbn [message] in Hmsg.
    unfold syntaxChecks in Hc. cbn [In] in Hc.
    destruct Hc as [<-|[<-|[<-|[<-|[<-|[]]]]]];
      cbn [pattern check_message] in *; [done|..];
      by vm_compute in Hmsg.
  - intros [Htest Hend].
    exists (mkIssue (path.basename filePath) (Z.of_nat idx + 1)
                    (Z.of_nat (length line)) terminatorMessage (lit "syntax")
                    (Some (trim line)) (lit "error")).
    split; [|done].
    rewrite list_elem_of_In, in_flat_map.
    exists (mkCheck terminatorRegex terminatorMessage (lit "syntax")).
    split; [by left|]. cbn [pattern check_message check_type].
    rewrite Htest, Hend. by left.
Qed.

(** X13: the check for a missing semicolon or closing brace looks at
    the last character of a line only.  A line whose last character is
    none of semicolon, opening brace and closing brace is reported,
    unless it ends, white space apart, in a backslash: so is a line
    that ends in white space after its semicolon, a preprocessor
    directive or a comment.  And a line without line terminators that
    is reported has such a last character. *)
Theorem syntaxLine_terminator (filePath : str) (idx : nat) (line : str) :
  ((exists c, last line = Some c /\ c ∉ lit ";{}") ->
   endsWith (trim line) (lit "\") = false ->
   flagged filePath idx line) /\
  (Forall (fun c => is_line_terminator c = false) line ->
   flagged filePath idx line ->
   (exists c, last line = Some c /\ c ∉ lit ";{}") /\
   endsWith (trim line) (lit "\") = false).
Proof.
  destruct (terminatorRegex_test line) as [Hthere Hback]. split.
  - intros Hlast Hend. apply flagged_test. split; [by apply Hthere | done].
  - intros Hfree [Htest Hend]%flagged_test. split; [by apply Hback | done].
Qed.

(** An include directive and a statement followed by a space are
    reported, the statement alone is not. *)
Lemma syntaxLine_terminator_witness :
  flagged (lit "proj/a.c") 0 (lit "#include <stdio.h>") /\
  flagged (lit "proj/a.c") 0 (lit "int x; ") /\
  ~ flagged (lit "proj/a.c") 0 (lit "int x;").
Proof.
  split; [|split].
  - apply (syntaxLine_terminator (lit "proj/a.c") 0 (lit "#include <stdio.h>")).
    + exists ">"%char. split; [by vm_compute|].
      intros Hin. apply list_elem_of_In in Hin. vm_compute in Hin.
      by destruct Hin as [?|[?|[?|[]]]].
    + by vm_compute.
  - apply (syntaxLine_terminator (lit "proj/a.c") 0 (lit "int x; ")).
    + exists " "%char. split; [by vm_compute|].
      intros Hin. apply list_elem_of_In in Hin. vm_compute in Hin.
      by destruct Hin as [?|[?|[?|[]]]].
    + by vm_compute.
  - intros Hf.
    apply (syntaxLine_terminator (lit "proj/a.c") 0 (lit "int x;")) in Hf
      as [(c & Hlast & Hc) _].
    + vm_compute in Hlast. injection Hlast as <-.
      apply Hc. apply list_elem_of_In. vm_compute. by left.
    + replace (lit "int x;") with ["i"; "n"; "t"; " "; "x"; ";"]%char
        by (by vm_compute).
      by repeat constructor.
Defined.

(** ** Repair with a single model *)

(** X14: with no fallback model, or with the primary model as its own
    fallback (the default), each error costs one request, to the primary
    model.  An answer gives the Fix, with confidence 0.8, when its
    sanitized text is not empty.  A failure ends the batch, except that
    the error is skipped and the batch goes on when the failure is a
    timeout, or when no fallback model is set at all and the failure
    is the resource-exhaustion signal. *)
Theorem getAIFixes_single_model (post : nat -> str -> str -> Outcome)
    (primary fallback : str) (disk : Disk) (codeFiles : list str)
    (e : Issue) (rest : list Issue) (fixes : list Fix) (calls : Calls) :
  fallback = [] \/ fallback = primary ->
  let p := buildPrompt disk codeFiles e in
  let run := processErrors post primary fallback disk codeFiles in
  run (e :: rest) fixes calls
  = match outcomeText (post (length calls) primary p) with
    | inl text =>
        run rest (fixes ++ option_list (fixOf e text 8)) (calls ++ [(primary, p)])
    | inr e1 =>
        if (negb (truthy fallback) && isOutOfMemory e1) || isTimeoutOuter e1
        then run rest fixes (calls ++ [(primary, p)])
        else (fixes, calls ++ [(primary, p)])
    end.
Proof.
  intros Hsingle p run. subst run. cbn [processErrors]. fold p.
  rewrite (modelsToTry_single _ _ Hsingle). cbn [tryModels].
  destruct (outcomeText (post (length calls) primary p)) as [text|e1].
  - rewrite bool_decide_eq_true_2 by done.
    rewrite <- optionFix_app. by destruct (fixOf e text 8).
  - unfold continueWithNext, notFallback.
    destruct (truthy fallback) eqn:Htruthy.
    + assert (Hfb : fallback = primary).
      { destruct Hsingle as [->|?]; [done|done]. }
      rewrite (bool_decide_eq_true_2 (primary = fallback)) by done.
      cbn [andb negb orb]. by rewrite !andb_false_r.
    + cbn [andb negb orb]. rewrite !andb_true_r, !andb_false_r, orb_false_r.
      destruct (isOutOfMemory e1); cbn [orb]; [done|].
      by destruct (isTimeoutOuter e1).
Qed.

(** The default options and a service that reports exhausted memory:
    one request, and the second error is never sent. *)
Lemma getAIFixes_single_model_witness :
  processErrors memoryThenAnswer (lit "qwen2.5:1.5b") (lit "qwen2.5:1.5b") diskReturn
                [lit "proj/a.c"] twoErrors [] []
  = ([], [(lit "qwen2.5:1.5b", promptFor 2)]).
Proof.
  etransitivity;
    [exact (getAIFixes_single_model memoryThenAnswer (lit "qwen2.5:1.5b")
              (lit "qwen2.5:1.5b") diskReturn [lit "proj/a.c"] (issueReturn 2)
              [issueReturn 3] [] [] (or_intror eq_refl))|].
  by vm_compute.
Defined.

(** ** The code context of a prompt *)

Lemma uint_no_NL (d : Decimal.uint) : NL ∉ lit (NilEmpty.string_of_uint d).
Proof.
  induction d; cbn [NilEmpty.string_of_uint lit String.list_ascii_of_string];
    [apply not_elem_of_nil|..];
    (intros [H|H]%elem_of_cons; [by vm_compute in H | by apply IHd]).
Qed.

Lemma String_of_Z_no_NL (z : Z) : NL ∉ String_of_Z z.
Proof.
  unfold String_of_Z, NilZero.string_of_int.
  destruct (Z.to_int z) as [d|d].
  - unfold NilZero.string_of_uint. destruct d; try apply uint_no_NL.
    intros [H|H%elem_of_nil]%elem_of_cons; [by vm_compute in H | done].
  - cbn [lit String.list_ascii_of_string].
    intros [H|H]%elem_of_cons; [by vm_compute in H|]. revert H.
    unfold NilZero.string_of_uint. destruct d; try apply uint_no_NL.
    intros [H|H%elem_of_nil]%elem_of_cons; [by vm_compute in H | done].
Qed.

Lemma renderedLine_no_NL (lineNum n : Z) (line : str) :
  NL ∉ line -> NL ∉ renderedLine lineNum n line.
Proof.
  intros Hline. unfold renderedLine. rewrite !not_elem_of_app.
  repeat split; [|apply String_of_Z_no_NL| |done].
  - destruct (n =? lineNum); intros H; apply list_elem_of_In in H;
      vm_compute in H; by repeat destruct H as [H|H].
  - intros H. apply list_elem_of_In in H. vm_compute in H.
    by repeat destruct H as [H|H].
Qed.

Lemma slice_window {A} (l : list A) (s e : Z) :
  0 <= s <= e -> e <= Z.of_nat (length l) ->
  slice l s e = take (Z.to_nat (e - s)) (drop (Z.to_nat s) l).
Proof.
  intros Hs He. unfold slice.
  destruct (Z.ltb_spec s 0); [lia|]. destruct (Z.ltb_spec e 0); [lia|].
  by rewrite !Z.min_l by lia.
Qed.

(** X15: the code context of a prompt, for an error at a line of the
    file and a context of [c] lines, has at most [2c + 1] lines; the
    line of the error is in it with its number and the marker, and no
    other line of the context carries the marker. *)
Theorem getCodeContext_window (content : str) (lineNum c : Z) (l : str) :
  0 <= c -> 1 <= lineNum ->
  split NL content !! Z.to_nat (lineNum - 1) = Some l ->
  let out := split NL (getCodeContext content lineNum c) in
  Z.of_nat (length out) <= 2 * c + 1 /\
  renderedLine lineNum lineNum l ∈ out /\
  (forall o, o ∈ out -> startsWith o (lit ">>> ") = true ->
             o = renderedLine lineNum lineNum l).
Proof.
  intros Hc Hpos Hl. cbv zeta. unfold getCodeContext. cbv zeta.
  pose proof (lookup_lt_Some _ _ _ Hl) as Hlt.
  pose proof (split_sep_free NL content) as Hfree.
  set (lines := split NL content) in *.
  set (start := Z.max 0 (lineNum - c - 1)).
  set (end_ := Z.min (Z.of_nat (length lines)) (lineNum + c)).
  rewrite slice_window by lia.
  set (window := take (Z.to_nat (end_ - start)) (drop (Z.to_nat start) lines)).
  change (imap _ window)
    with (imap (fun idx line => renderedLine lineNum (start + Z.of_nat idx + 1) line)
               window).
  set (j := Z.to_nat (lineNum - 1 - start)).
  assert (Hj : window !! j = Some l).
  { subst window j. rewrite lookup_take_lt by lia. rewrite lookup_drop.
    rewrite <- Hl. f_equal. lia. }
  assert (Hwin : Forall (fun x => NL ∉ x) window).
  { apply Forall_forall. intros x Hx. rewrite Forall_forall in Hfree.
    apply Hfree. subst window.
    apply list_elem_of_lookup in Hx as [i Hi].
    apply lookup_take_Some in Hi as [Hi _]. rewrite lookup_drop in Hi.
    by eapply list_elem_of_lookup_2. }
  rewrite split_join.
  - split; [|split].
    + rewrite length_imap. subst window. rewrite length_take, length_drop. lia.
    + apply list_elem_of_lookup. exists j. rewrite list_lookup_imap, Hj. simpl.
      f_equal. f_equal. lia.
    + intros o (i & Hi)%list_elem_of_lookup Hm.
      rewrite list_lookup_imap in Hi.
      destruct (window !! i) as [x|] eqn:Hx; [|done]. injection Hi as <-.
      unfold renderedLine in Hm.
      destruct (Z.eqb_spec (start + Z.of_nat i + 1) lineNum) as [Heq|Hne];
        [|by vm_compute in Hm].
      assert (i = j) as -> by lia. rewrite Hj in Hx. injection Hx as <-.
      by rewrite Heq.
  - intros Hnil. apply (f_equal length) in Hnil. rewrite length_imap in Hnil.
    apply lookup_lt_Some in Hj. simpl in Hnil. lia.
  - apply Forall_forall. intros o (i & Hi)%list_elem_of_lookup.
    rewrite list_lookup_imap in Hi.
    destruct (window !! i) as [x|] eqn:Hx; [|done]. injection Hi as <-.
    apply renderedLine_no_NL. rewrite Forall_forall in Hwin. apply Hwin.
    by eapply list_elem_of_lookup_2.
Qed.

(** Line 7 of twelve with the context of five lines that the prompt
    uses: eleven lines, from line 2 to line 12. *)
Lemma getCodeContext_window_witness :
  let out := split NL (getCodeContext twelveLines 7 5) in
  Z.of_nat (length out) <= 11 /\
  lit ">>> 7: line 7" ∈ out /\
  (forall o, o ∈ out -> startsWith o (lit ">>> ") = true -> o = lit ">>> 7: line 7").
Proof.
  exact (getCodeContext_window twelveLines 7 5 (lit "line 7")
           ltac:(lia) ltac:(lia) ltac:(by vm_compute)).
Defined.

(** ** The repair step of the generation handler *)

(** What the step is made of: the analysis, then the Fixes for its
    first five errors, then their application. *)
Lemma tracebackStep_inv spawnSync readdirSync axios post noCompile noStatic noAi
    model disk tmpDir generatedFiles r applied calls disk' :
  tracebackStep spawnSync readdirSync axios post noCompile noStatic noAi model
                disk tmpDir generatedFiles = (Some (r, applied, calls), disk') ->
  exists r0 t1 disk1 fixes,
    analyzeCode spawnSync readdirSync
      (mkInstance (uploadOptions axios noCompile noStatic noAi model) [] [] [])
      disk tmpDir (Some generatedFiles) = Some (r0, t1, disk1) /\
    result_errors r = result_errors r0 /\
    result_fixes r = fixes /\
    map error fixes `sublist_of` take 5 (result_errors r) /\
    (length calls
     <= length (modelsToTry (or_else model (lit "qwen2.5:1.5b")) (lit "qwen2.5:1.5b"))
        * 5)%nat /\
    (applied, disk') = applyFixes tmpDir fixes disk1.
Proof.
  unfold tracebackStep. cbv zeta.
  set (t0 := mkInstance _ [] [] []).
  destruct (analyzeCode spawnSync readdirSync t0 disk tmpDir (Some generatedFiles))
    as [[[r0 t1] disk1]|] eqn:Hrun; [|done].
  pose proof (analyzeCode_sorted _ _ _ _ _ _ _ _ _ Hrun) as ((Hopts & _) & _).
  destruct (analyzeCode_passes _ _ _ _ _ _ _ _ _ Hrun)
    as (fl & ce & cw & se & sw & _ & _ & _ & Hnofix & _).
  destruct (negb (bool_decide (result_errors r0 = [])) && axios && negb noAi)
    eqn:Hcond.
  - apply andb_true_iff in Hcond as [[_ Hax]%andb_true_iff Hai].
    unfold getAIFixes. rewrite Hopts. subst t0.
    cbn [options useAI uploadOptions fallbackModel]. rewrite Hax, Hai. cbn [negb orb andb].
    unfold primaryOf. rewrite Hopts. cbn [options aiModel uploadOptions].
    assert (Hprim : (if truthy (or_else model (lit "qwen2.5:1.5b"))
                     then or_else model (lit "qwen2.5:1.5b")
                     else lit "qwen2.5:1.5b")
                    = or_else model (lit "qwen2.5:1.5b")).
    { unfold or_else. destruct model as [m|]; [|done]. by destruct (truthy m) eqn:Hm; [rewrite Hm|]. }
    rewrite Hprim.
    pose proof (processErrors_grows post (or_else model (lit "qwen2.5:1.5b"))
                  (lit "qwen2.5:1.5b") disk1
                  (map (fun f => path.join tmpDir f) generatedFiles)
                  (take 5 (result_errors r0)) [] [])
      as (newFixes & new & Heq & Hlen & _ & Hsub).
    cbn [fst snd app] in Heq. rewrite Heq. cbn [fixes].
    assert (Hlen5 : (length new <= length (modelsToTry (or_else model (lit "qwen2.5:1.5b"))
                                             (lit "qwen2.5:1.5b")) * 5)%nat).
    { rewrite length_take in Hlen.
      etransitivity; [exact Hlen|]. apply Nat.mul_le_mono_l. lia. }
    destruct newFixes as [|f fs'] eqn:Hfixes.
    + intros [= Hr Ha Hc Hd]. subst r applied calls disk'.
      exists r0, t1, disk1, []. by cbn.
    + rewrite <- Hfixes in *.
      destruct (applyFixes tmpDir newFixes disk1) as [applied0 disk2] eqn:Happ.
      rewrite Hfixes at 1.
      intros [= Hr Ha Hc Hd]. subst r applied calls disk'.
      exists r0, t1, disk1, newFixes. by cbn.
  - intros [= Hr Ha Hc Hd]. subst r applied calls disk'.
    exists r0, t1, disk1, []. rewrite Hnofix. cbn.
    repeat split; try done; [apply sublist_nil_l | lia].
Qed.

Lemma applyFixes_applied_from disk codeDir fixes (a : AppliedFix) :
  a ∈ (applyFixes codeDir fixes disk).1 ->
  exists fx, fx ∈ fixes /\ writable disk codeDir fx = true /\ auditKey a = fixKey fx.
Proof.
  intros Ha. unfold applyFixes in Ha.
  pose proof (slotsInv_final disk codeDir fixes) as (_ & _ & _ & Haudit).
  destruct (fold_left (applyFix disk codeDir) fixes ([], [])) as [fm applied].
  cbn [fst snd] in *.
  assert (Hk : auditKey a ∈ map auditKey applied).
  { apply list_elem_of_fmap. by exists a. }
  rewrite Haudit in Hk. apply list_elem_of_fmap in Hk as (fx & Hkey & Hfx).
  apply list_elem_of_filter in Hfx as [Hw Hin]. by exists fx.
Qed.

Lemma applyFixes_applied_length disk codeDir fixes :
  (length (applyFixes codeDir fixes disk).1 <= length fixes)%nat.
Proof.
  unfold applyFixes.
  pose proof (slotsInv_final disk codeDir fixes) as (_ & _ & _ & Haudit).
  destruct (fold_left (applyFix disk codeDir) fixes ([], [])) as [fm applied].
  cbn [fst snd] in *. apply (f_equal length) in Haudit.
  rewrite !length_map in Haudit. rewrite Haudit. apply length_filter.
Qed.

(** With the generated files given, the step always has a result. *)
Lemma tracebackStep_runs spawnSync readdirSync axios post noCompile noStatic noAi
    model disk tmpDir generatedFiles :
  exists r applied calls disk',
    tracebackStep spawnSync readdirSync axios post noCompile noStatic noAi model
                  disk tmpDir generatedFiles = (Some (r, applied, calls), disk').
Proof.
  unfold tracebackStep. cbv zeta.
  destruct (analyzeCode_given_files spawnSync readdirSync
              (mkInstance (uploadOptions axios noCompile noStatic noAi model) [] [] [])
              disk tmpDir generatedFiles) as (r0 & t1 & disk1 & ->).
  destruct (negb _ && axios && negb noAi); [|by eexists _, _, _, _].
  destruct (getAIFixes _ _ _ _ _ _) as [[fx t2] calls].
  destruct (fixes t2); [by eexists _, _, _, _|].
  destruct (applyFixes _ _ _) as [applied disk2]. by eexists _, _, _, _.
Qed.

(** X16: the repair step of the generation handler changes little.  It
    applies at most five Fixes and makes at most ten requests; every
    applied Fix sits at the file and line of one of the first five
    errors of the analysis it returns; apart from the two temporary
    names of the compilation check no file is created or removed, and a
    file that none of these errors names keeps its content. *)
Theorem tracebackStep_edits spawnSync readdirSync axios post noCompile noStatic noAi
    model disk tmpDir generatedFiles r applied calls disk' :
  tracebackStep spawnSync readdirSync axios post noCompile noStatic noAi model
                disk tmpDir generatedFiles = (Some (r, applied, calls), disk') ->
  (length applied <= 5)%nat /\
  (length calls <= 10)%nat /\
  Forall (fun a => exists e, e ∈ take 5 (result_errors r) /\
                             applied_file a = file e /\ applied_line a = line e)
         applied /\
  (forall p, p <> testFileOf tmpDir -> p <> objFileOf tmpDir ->
     (is_Some (disk' !! p) <-> is_Some (disk !! p)) /\
     ((forall e, e ∈ take 5 (result_errors r) -> path.join tmpDir (file e) <> p) ->
      disk' !! p = disk !! p)).
Proof.
  intros (r0 & t1 & disk1 & fixes & Hrun & Herr & Hfix & Hsub & Hcalls & Happ)%tracebackStep_inv.
  assert (Ha : applied = (applyFixes tmpDir fixes disk1).1) by (by rewrite <- Happ).
  assert (Hd : disk' = (applyFixes tmpDir fixes disk1).2) by (by rewrite <- Happ).
  assert (Hfrom : forall fx, fx ∈ fixes -> error fx ∈ take 5 (result_errors r)).
  { intros fx Hfx. eapply elem_of_sublist; [|exact Hsub].
    apply list_elem_of_fmap. by exists fx. }
  split; [|split; [|split]].
  - rewrite Ha. etransitivity; [apply applyFixes_applied_length|].
    apply sublist_length in Hsub. rewrite length_map, length_take in Hsub. lia.
  - pose proof (modelsToTry_length (or_else model (lit "qwen2.5:1.5b"))
                  (lit "qwen2.5:1.5b")). nia.
  - apply Forall_forall. intros a Hin. rewrite Ha in Hin.
    apply applyFixes_applied_from in Hin as (fx & Hfx & _ & Hkey).
    exists (error fx). split; [by apply Hfrom|].
    unfold auditKey, fixKey in Hkey. by injection Hkey as -> -> _.
  - intros p Htest Hobj.
    assert (Hsame : disk1 !! p = disk !! p).
    { rewrite (analyzeCode_lookup spawnSync readdirSync _ disk tmpDir (Some generatedFiles)
               generatedFiles r0 t1 disk1 p eq_refl Hrun).
      rewrite (bool_decide_eq_false_2 (p = _ \/ p = _)) by (by intros [?|?]).
      by rewrite andb_false_r. }
    rewrite Hd, applyFixes_lookup, Hsame. split.
    + by rewrite fmap_is_Some.
    + intros Hno. destruct (disk !! p) as [content|]; [|done]. simpl. f_equal.
      rewrite imap_same; [by rewrite join_split|].
      intros i x _. apply slotAfter_untargeted.
      intros fx Hfx. by apply Hno, Hfrom.
Qed.

(** A generated file with a statement that lacks its semicolon, tools
    that report nothing and a service that answers. *)
Lemma tracebackStep_edits_witness :
  exists r applied calls disk',
    tracebackStep quietTools noListing true alwaysAnswer false false false None
                  diskReturn proj [lit "a.c"] = (Some (r, applied, calls), disk') /\
    (length applied <= 5)%nat /\
    (length calls <= 10)%nat /\
    Forall (fun a => exists e, e ∈ take 5 (result_errors r) /\
                               applied_file a = file e /\ applied_line a = line e)
           applied /\
    (forall p, p <> testFileOf proj -> p <> objFileOf proj ->
       (is_Some (disk' !! p) <-> is_Some (diskReturn !! p)) /\
       ((forall e, e ∈ take 5 (result_errors r) -> path.join proj (file e) <> p) ->
        disk' !! p = diskReturn !! p)).
Proof.
  destruct (tracebackStep_runs quietTools noListing true alwaysAnswer false false
              false None diskReturn proj [lit "a.c"])
    as (r & applied & calls & disk' & Hrun).
  exists r, applied, calls, disk'. split; [exact Hrun|].
  exact (tracebackStep_edits _ _ _ _ _ _ _ _ _ _ _ _ _ _ _ Hrun).
Defined.

(** X17: when the compilation check has run, the repair step never
    applies a Fix to an error reported for the test file
    [__test_compile.c], the only file the compiler is given: the check
    has removed that file before the Fixes are applied.  The two
    temporary names are free after the step. *)
Theorem tracebackStep_test_file spawnSync readdirSync axios post noStatic noAi
    model disk tmpDir generatedFiles r applied calls disk' :
  existsb isCFile (map (fun f => path.join tmpDir f) generatedFiles) = true ->
  tracebackStep spawnSync readdirSync axios post false noStatic noAi model
                disk tmpDir generatedFiles = (Some (r, applied, calls), disk') ->
  Forall (fun a => applied_file a <> lit "__test_compile.c"
                   /\ applied_file a <> lit "__test_compile.o") applied /\
  disk' !! testFileOf tmpDir = None /\
  disk' !! objFileOf tmpDir = None.
Proof.
  intros Hc (r0 & t1 & disk1 & fixes & Hrun & Herr & Hfix & Hsub & Hcalls & Happ)%tracebackStep_inv.
  assert (Ha : applied = (applyFixes tmpDir fixes disk1).1) by (by rewrite <- Happ).
  assert (Hd : disk' = (applyFixes tmpDir fixes disk1).2) by (by rewrite <- Happ).
  assert (Hfree : forall p, p = testFileOf tmpDir \/ p = objFileOf tmpDir ->
                            disk1 !! p = None).
  { intros p Hp.
    rewrite (analyzeCode_lookup spawnSync readdirSync _ disk tmpDir (Some generatedFiles)
               generatedFiles r0 t1 disk1 p eq_refl Hrun).
    cbn [options uploadOptions useCompiler negb andb]. rewrite Hc.
    by rewrite bool_decide_eq_true_2 by done. }
  split; [|split].
  - apply Forall_forall. intros a Hin. rewrite Ha in Hin.
    apply applyFixes_applied_from in Hin as (fx & Hfx & Hw & Hkey).
    unfold auditKey, fixKey in Hkey. injection Hkey as Hfile _ _.
    unfold writable in Hw. apply andb_true_iff in Hw as [[Hex _]%andb_true_iff _].
    unfold fs.existsSync in Hex. apply bool_decide_eq_true_1 in Hex.
    split; intros Hname; rewrite Hfile in Hname; rewrite Hname in Hex;
      rewrite Hfree in Hex; [by apply is_Some_None in Hex | by left
                            | by apply is_Some_None in Hex | by right].
  - rewrite Hd, applyFixes_lookup, Hfree by (by left). done.
  - rewrite Hd, applyFixes_lookup, Hfree by (by right). done.
Qed.

(** A compiler that reports an undeclared identifier in the test file:
    the Fix the service gives for it is not applied. *)
Lemma tracebackStep_test_file_witness :
  exists r applied calls disk',
    tracebackStep scenarioB_tools noListing true alwaysAnswer false false false None
                  diskUndeclared proj [lit "a.c"] = (Some (r, applied, calls), disk') /\
    Forall (fun a => applied_file a <> lit "__test_compile.c"
                     /\ applied_file a <> lit "__test_compile.o") applied /\
    disk' !! testFileOf proj = None /\
    disk' !! objFileOf proj = None.
Proof.
  destruct (tracebackStep_runs scenarioB_tools noListing true alwaysAnswer false false
              false None diskUndeclared proj [lit "a.c"])
    as (r & applied & calls & disk' & Hrun).
  exists r, applied, calls, disk'. split; [exact Hrun|].
  exact (tracebackStep_test_file scenarioB_tools noListing true alwaysAnswer false
           false None diskUndeclared proj [lit "a.c"] r applied calls disk'
           ltac:(by vm_compute) Hrun).
Defined.

(** The run with that compiler: one error, for the test file; one
    Fix returned, none applied, and the source file as it was. *)
Example tracebackStep_compile_error_unpatched :
  match tracebackStep scenarioB_tools noListing true alwaysAnswer false false false
                      None diskUndeclared proj [lit "a.c"] with
  | (Some (r, applied, calls), disk') =>
      bool_decide (map file (result_errors r) = [lit "__test_compile.c"] /\
                   map suggestion (result_fixes r) = [lit "int y = 0;"] /\
                   applied = [] /\ disk' = diskUndeclared)
  | _ => false
  end = true.
Proof. by vm_compute. Qed.

(** ** The command line *)

Lemma indexOf_absent (x : str) (args : list str) :
  x ∉ args -> indexOf x args = -1.
Proof.
  induction args as [|a args IH]; [done|].
  intros [Hne Hnot]%not_elem_of_cons. cbn [indexOf].
  rewrite bool_decide_eq_false_2 by congruence. by rewrite IH.
Qed.

Lemma indexOf_first (x : str) (pre rest : list str) :
  x ∉ pre -> indexOf x (pre ++ x :: rest) = Z.of_nat (length pre).
Proof.
  induction pre as [|a pre IH]; intros Hnot.
  - cbn [app indexOf]. by rewrite bool_decide_eq_true_2.
  - apply not_elem_of_cons in Hnot as [Hne Hnot].
    cbn [app indexOf]. rewrite bool_decide_eq_false_2 by congruence.
    rewrite IH by done. cbn [length].
    destruct (Z.ltb_spec (Z.of_nat (length pre)) 0); lia.
Qed.

(** X18: the model of the command-line tool.  Without [--model] among
    the arguments the model is the first argument, the code directory,
    and not the documented default; with [--model] followed by a name
    it is that name; with [--model] as the last argument it is the
    default [codellama:7b].  The fallback model is the one of the
    constructor in every case. *)
Theorem cliOptions_model (args : list str) :
  (forall codeDir rest, args = codeDir :: rest -> codeDir <> [] ->
     lit "--model" ∉ args -> aiModel (cliOptions args) = codeDir) /\
  (forall pre name rest, args = pre ++ lit "--model" :: name :: rest ->
     lit "--model" ∉ pre -> name <> [] -> aiModel (cliOptions args) = name) /\
  (forall pre, args = pre ++ [lit "--model"] -> lit "--model" ∉ pre ->
     aiModel (cliOptions args) = lit "codellama:7b") /\
  fallbackModel (cliOptions args) = lit "qwen2.5:1.5b".
Proof.
  unfold cliOptions. cbn [aiModel fallbackModel].
  split; [|split; [|split; [|done]]].
  - intros codeDir rest -> Hne Hnot. rewrite indexOf_absent by done.
    cbn. by destruct codeDir.
  - intros pre name rest -> Hnot Hne. rewrite indexOf_first by done.
    replace (Z.to_nat (Z.of_nat (length pre) + 1)) with (length pre + 1)%nat by lia.
    rewrite lookup_app_r by lia.
    replace (length pre + 1 - length pre)%nat with 1%nat by lia.
    cbn. by destruct name.
  - intros pre -> Hnot. rewrite indexOf_first by done.
    replace (Z.to_nat (Z.of_nat (length pre) + 1)) with (length pre + 1)%nat by lia.
    rewrite lookup_app_r by lia.
    replace (length pre + 1 - length pre)%nat with 1%nat by lia.
    done.
Qed.

(** The tool called with a directory and [--fix]: the model is the
    name of the directory. *)
Lemma cliOptions_model_witness :
  aiModel (cliOptions [lit "proj"; lit "--fix"]) = lit "proj" /\
  aiModel (cliOptions [lit "proj"; lit "--model"; lit "llama3"]) = lit "llama3" /\
  aiModel (cliOptions [lit "proj"; lit "--model"]) = lit "codellama:7b".
Proof.
  split; [|split].
  - apply (cliOptions_model [lit "proj"; lit "--fix"]) with (rest := [lit "--fix"]);
      [done | done |].
    intros Hin. apply list_elem_of_In in Hin. vm_compute in Hin.
    by repeat destruct Hin as [Hin|Hin].
  - apply (cliOptions_model [lit "proj"; lit "--model"; lit "llama3"])
      with (pre := [lit "proj"]) (rest := []); [done | | done].
    intros Hin. apply list_elem_of_In in Hin. vm_compute in Hin.
    by repeat destruct Hin as [Hin|Hin].
  - apply (cliOptions_model [lit "proj"; lit "--model"]) with (pre := [lit "proj"]);
      [done|].
    intros Hin. apply list_elem_of_In in Hin. vm_compute in Hin.
    by repeat destruct Hin as [Hin|Hin].
Defined.

(** ** The declaration heuristic *)

Lemma word_not_space (c : ascii) : is_word c = true -> is_space c = false.
Proof. by destruct c as [[] [] [] [] [] [] [] []]; vm_compute. Qed.

Lemma length_pos_nonempty {A} (l : list A) : l <> [] -> (1 <= length l)%nat.
Proof. destruct l; [done | simpl; lia]. Qed.

Lemma declarationRegex_match (w1 sp w2 post : str) :
  w1 <> [] -> forallb is_word w1 = true ->
  sp <> [] -> forallb is_space sp = true ->
  w2 <> [] -> forallb is_word w2 = true ->
  rx_match declarationRegex (w1 ++ sp ++ w2 ++ ";"%char :: post)
  = Some ([w1; sp; w2; [";"%char]], post).
Proof.
  intros Hw1 Hc1 Hsp Hcs Hw2 Hc2. unfold declarationRegex. cbn [rx_match].
  assert (H4 : match_char (fun s => Some ([], s)) (char_is ";") (";"%char :: post)
               = Some ([[";"%char]], post)) by done.
  assert (H3 : match_rep (match_char (fun s => Some ([], s)) (char_is ";"))
                 is_word 1 true 0 [] (w2 ++ ";"%char :: post)
               = Some ([w2; [";"%char]], post)).
  { rewrite match_rep_greedy_run; [by rewrite H4|done|done| |by rewrite H4].
    pose proof (length_pos_nonempty _ Hw2). lia. }
  set (k3 := match_rep _ is_word 1 true 0 []) in *.
  assert (H2 : match_rep k3 is_space 1 true 0 [] (sp ++ w2 ++ ";"%char :: post)
               = Some ([sp; w2; [";"%char]], post)).
  { rewrite match_rep_greedy_run; [by rewrite H3|done| | |by rewrite H3].
    - destruct w2 as [|x w2]; [done|]. apply andb_true_iff in Hc2 as [Hx _].
      by apply word_not_space.
    - pose proof (length_pos_nonempty _ Hsp). lia. }
  set (k2 := match_rep k3 is_space 1 true 0 []) in *.
  rewrite match_rep_greedy_run; [by rewrite H2|done| | |by rewrite H2].
  - destruct sp as [|x sp]; [done|]. apply andb_true_iff in Hcs as [Hx _].
    cbn [app]. destruct (is_word x) eqn:Hword; [|done].
    apply word_not_space in Hword. congruence.
  - pose proof (length_pos_nonempty _ Hw1). lia.
Qed.

Lemma declarationRegex_test (line : str) :
  rx_test declarationRegex line = true <-> declarationShaped line.
Proof.
  split.
  - intros (pre & s & gs & rest & -> & Hm)%rx_test_inv.
    apply rx_match_sound in Hm as [Hacc ->]. unfold declarationRegex in Hacc.
    apply Forall2_cons_inv_l in Hacc as (w1 & gs1 & [Hc1 Hl1] & Hacc & ->).
    apply Forall2_cons_inv_l in Hacc as (sp & gs2 & [Hcs Hls] & Hacc & ->).
    apply Forall2_cons_inv_l in Hacc as (w2 & gs3 & [Hc2 Hl2] & Hacc & ->).
    apply Forall2_cons_inv_l in Hacc as (g & gs4 & (x & -> & Hx) & Hacc & ->).
    apply Forall2_nil_inv_l in Hacc as ->.
    apply Ascii.eqb_eq in Hx as ->.
    exists pre, w1, sp, w2, rest. cbn [concat]. rewrite app_nil_r, <- !app_assoc.
    split; [done|].
    repeat split; try done.
    + intros ->. simpl in Hl1. lia.
    + intros ->. simpl in Hls. lia.
    + intros ->. simpl in Hl2. lia.
  - intros (pre & w1 & sp & w2 & post & -> & Hw1 & Hc1 & Hsp & Hcs & Hw2 & Hc2).
    apply rx_test_suffix. rewrite declarationRegex_match by done. by eexists.
Qed.

(** X19: the quality pass reports a line as a potentially uninitialized
    variable exactly when the line holds, anywhere, a word, white
    space, a word and a semicolon in a row and contains neither an
    equals sign nor [extern] nor [static]: a statement like a return of
    a variable is reported as well as a declaration. *)
Theorem qualityLine_uninitialized (filePath : str) (idx : nat) (line : str) :
  (exists w, w ∈ qualityLine filePath idx line /\ message w = uninitializedMessage)
  <-> declarationShaped line /\
      includes line (lit "=") = false /\
      includes line (lit "extern") = false /\
      includes line (lit "static") = false.
Proof.
  rewrite <- declarationRegex_test. unfold qualityLine. split.
  - intros (w & [Hw|Hw]%elem_of_app & Hmsg).
    + destruct (includes line (lit "volatile") && _ && _);
        [|by apply elem_of_nil in Hw].
      apply list_elem_of_singleton in Hw as ->. by vm_compute in Hmsg.
    + destruct (rx_test declarationRegex line); [|by apply elem_of_nil in Hw].
      destruct (includes line (lit "=")); [by apply elem_of_nil in Hw|].
      destruct (includes line (lit "extern")); [by apply elem_of_nil in Hw|].
      destruct (includes line (lit "static")); [by apply elem_of_nil in Hw|].
      done.
  - intros (-> & -> & -> & ->). cbn [negb andb].
    exists (qualityIssue filePath idx line uninitializedMessage).
    split; [|done]. apply elem_of_app. right. by apply list_elem_of_singleton.
Qed.

(** The return of a variable is reported. *)
Lemma qualityLine_uninitialized_witness :
  exists w, w ∈ qualityLine (lit "proj/a.c") 1 (lit "  return x;")
            /\ message w = uninitializedMessage.
Proof.
  apply (qualityLine_uninitialized (lit "proj/a.c") 1 (lit "  return x;")).
  split; [|by vm_compute].
  exists (lit "  "), (lit "return"), (lit " "), (lit "x"), [].
  by vm_compute.
Defined.

(** ** A line of analyzer output *)

Lemma cppcheckRegex_match (file digits sev msg rest : str) :
  cppFields file digits sev msg ->
  match rest with x :: _ => is_line_terminator x = true | [] => True end ->
  rx_match cppcheckRegex (cppLine file digits sev msg ++ rest)
  = Some ([lit "["; file; lit ":"; digits; lit "]"; lit ":"; lit " "; lit "(";
           sev; lit ")"; lit " "; msg], rest).
Proof.
  intros (Hf & Hcf & Hd & Hcd & Hs & Hcs & Hcm & Hm) Hrest.
  unfold cppLine, cppcheckRegex. rewrite <- !app_assoc. cbn [rx_match].
  assert (Hmsg : msg <> []) by (by destruct msg).
  (* the message *)
  assert (H12 : match_rep (fun s => Some ([], s)) dot 1 true 0 [] (msg ++ rest)
                = Some ([msg], rest)).
  { rewrite match_rep_greedy_run; [done|done| |pose proof (length_pos_nonempty _ Hmsg); lia|done].
    destruct rest as [|x rest]; [done|]. unfold dot. by rewrite Hrest. }
  set (k12 := match_rep _ dot 1 true 0 []) in *.
  assert (H11 : match_rep k12 is_space 0 true 0 [] (lit " " ++ msg ++ rest)
                = Some ([lit " "; msg], rest)).
  { rewrite match_rep_greedy_run; [by rewrite H12|done| |lia|by rewrite H12].
    by destruct msg. }
  set (k11 := match_rep k12 is_space 0 true 0 []) in *.
  assert (H10 : match_char k11 (char_is ")") (lit ") " ++ msg ++ rest)
                = Some ([lit ")"; lit " "; msg], rest)).
  { change (lit ") " ++ msg ++ rest) with (")"%char :: lit " " ++ msg ++ rest).
    cbn [match_char]. change (char_is ")" ")"%char) with true. cbn iota.
    by rewrite H11. }
  set (k10 := match_char k11 (char_is ")")) in *.
  assert (H9 : match_rep k10 is_word 1 true 0 [] (sev ++ lit ") " ++ msg ++ rest)
               = Some ([sev; lit ")"; lit " "; msg], rest)).
  { rewrite match_rep_greedy_run;
      [by rewrite H10|done|done|pose proof (length_pos_nonempty _ Hs); lia
      |by rewrite H10]. }
  set (k9 := match_rep k10 is_word 1 true 0 []) in *.
  assert (H6 : match_char
                 (match_rep (match_char k9 (char_is "(")) is_space 0 true 0 [])
                 (char_is ":") (lit ": (" ++ sev ++ lit ") " ++ msg ++ rest)
               = Some ([lit ":"; lit " "; lit "("; sev; lit ")"; lit " "; msg], rest)).
  { change (lit ": (" ++ ?s) with (":"%char :: lit " " ++ "("%char :: s).
    cbn [match_char]. change (char_is ":" ":"%char) with true. cbn iota.
    rewrite match_rep_greedy_run; [|done|done|lia|].
    - cbn [match_char]. change (char_is "(" "("%char) with true. cbn iota.
      by rewrite H9.
    - cbn [match_char]. change (char_is "(" "("%char) with true. cbn iota.
      by rewrite H9. }
  set (k6 := match_char _ (char_is ":")) in *.
  assert (H4 : match_rep (match_char k6 (char_is "]")) is_digit 1 true 0 []
                 (digits ++ lit "]: (" ++ sev ++ lit ") " ++ msg ++ rest)
               = Some ([digits; lit "]"; lit ":"; lit " "; lit "("; sev; lit ")";
                        lit " "; msg], rest)).
  { change (lit "]: (" ++ ?s) with ("]"%char :: lit ": (" ++ s).
    rewrite match_rep_greedy_run;
      [|done|done|pose proof (length_pos_nonempty _ Hd); lia|].
    - cbn [match_char]. change (char_is "]" "]"%char) with true. cbn iota.
      by rewrite H6.
    - cbn [match_char]. change (char_is "]" "]"%char) with true. cbn iota.
      by rewrite H6. }
  set (k4 := match_rep _ is_digit 1 true 0 []) in *.
  change (lit "[" ++ ?s) with ("["%char :: s).
  cbn [match_char]. change (char_is "[" "["%char) with true. cbn iota.
  change (lit ":" ++ ?s) with (":"%char :: s).
  rewrite match_rep_greedy_run;
    [|done|done|pose proof (length_pos_nonempty _ Hf); lia|].
  - cbn [match_char]. change (char_is ":" ":"%char) with true. cbn iota.
    by rewrite H4.
  - cbn [match_char]. change (char_is ":" ":"%char) with true. cbn iota.
    by rewrite H4.
Qed.

Lemma terminator_not_bracket (x : ascii) :
  is_line_terminator x = true -> char_is "[" x = false.
Proof.
  intros Hx. unfold char_is. destruct (Ascii.eqb_spec x "["%char) as [->|]; [|done].
  by vm_compute in Hx.
Qed.

Lemma cppcheckRegex_scan (file digits sev msg rest : str) :
  cppFields file digits sev msg ->
  match rest with x :: _ => is_line_terminator x = true | [] => True end ->
  rx_scan cppcheckRegex (cppLine file digits sev msg ++ rest) 0
  = [lit "["; file; lit ":"; digits; lit "]"; lit ":"; lit " "; lit "(";
     sev; lit ")"; lit " "; msg]
    :: match rest with
       | [] => []
       | _ :: more => rx_scan cppcheckRegex more 0
       end.
Proof.
  intros Hfields Hrest.
  pose proof (cppcheckRegex_match file digits sev msg rest Hfields Hrest) as Hm.
  set (body := file ++ lit ":" ++ digits ++ lit "]: (" ++ sev ++ lit ") " ++ msg).
  change (cppLine file digits sev msg) with ("["%char :: body) in *.
  cbn [app] in *. cbn [rx_scan]. rewrite Hm. f_equal.
  assert (Hlen : pred (length (concat [lit "["; file; lit ":"; digits; lit "]";
                                       lit ":"; lit " "; lit "("; sev; lit ")";
                                       lit " "; msg])) = length body).
  { subst body. cbn [concat]. rewrite !length_app. simpl. lia. }
  rewrite Hlen, rx_scan_skip.
  destruct rest as [|x more]; [done|].
  cbn [rx_scan]. unfold cppcheckRegex at 1. cbn [rx_match match_char].
  by rewrite (terminator_not_bracket x Hrest).
Qed.

(** X20: a report in the format of cppcheck is read back field by
    field.  From [[file:line]: (severity) message] the parser makes one
    Issue with the base name of the file, the line number, the message
    and the type static_analysis, as an error when the severity word is
    [error] and as a warning otherwise; and it goes on with the line
    that follows. *)
Theorem parseCppcheckOutput_line disk files t (file digits sev msg : str) :
  cppFields file digits sev msg ->
  parseCppcheckOutput disk (cppLine file digits sev msg) files t
  = pushIssue (bool_decide (sev = lit "error"))
              (cppIssue disk files file digits sev msg) t /\
  (forall more,
     parseCppcheckOutput disk (cppLine file digits sev msg ++ NL :: more) files t
     = parseCppcheckOutput disk more files
         (pushIssue (bool_decide (sev = lit "error"))
                    (cppIssue disk files file digits sev msg) t)).
Proof.
  intros Hfields. unfold parseCppcheckOutput. split.
  - pose proof (cppcheckRegex_scan file digits sev msg [] Hfields I) as Hscan.
    rewrite app_nil_r in Hscan. by rewrite Hscan.
  - intros more.
    by rewrite (cppcheckRegex_scan file digits sev msg (NL :: more) Hfields eq_refl).
Qed.

(** The report of scenario C, on its own and followed by a report of an
    error. *)
Lemma parseCppcheckOutput_line_witness :
  warnings (parseCppcheckOutput diskUndeclared
              (lit "[proj/a.c:2]: (style) Variable 'y' is not assigned a value")
              [lit "proj/a.c"] fresh)
  = [mkIssue (lit "a.c") 2 0 (lit "Variable 'y' is not assigned a value")
             (lit "static_analysis") (Some (lit "  return y;")) (lit "warning")].
Proof.
  destruct (parseCppcheckOutput_line diskUndeclared [lit "proj/a.c"] fresh
              (lit "proj/a.c") (lit "2") (lit "style")
              (lit "Variable 'y' is not assigned a value")) as [Hone _].
  { by vm_compute. }
  etransitivity; [exact (f_equal warnings Hone)|]. by vm_compute.
Defined.

(** ** A compiler diagnostic *)

Ltac step_colon :=
  cbn [match_char]; change (char_is ":" ":"%char) with true; cbn iota.

Lemma errorRegex_match (file ln col kind msg : str) :
  gccFields file ln col kind msg ->
  rx_match errorRegex (gccLine file ln col kind msg)
  = Some ([file; lit ":"; ln; lit ":"; col; lit ":"; lit " "; kind; lit ":";
           lit " "; msg], []).
Proof.
  intros (Hf & Hcf & Hl & Hcl & Hc & Hcc & Hkind & Hcm & Hm).
  assert (Hmsg : msg <> []) by (by destruct msg).
  pose (k11 := match_rep (fun s : str => Some (@nil str, s)) dot 1 true 0 []).
  pose (k10 := match_rep k11 is_space 0 true 0 []).
  pose (k9 := match_char k10 (char_is ":")).
  pose (k8 := match_alt k9 [lit "error"; lit "warning"]).
  pose (k7 := match_rep k8 is_space 0 true 0 []).
  pose (k6 := match_char k7 (char_is ":")).
  pose (k5 := match_rep k6 is_digit 1 true 0 []).
  pose (k4 := match_char k5 (char_is ":")).
  pose (k3 := match_rep k4 is_digit 1 true 0 []).
  pose (k2 := match_char k3 (char_is ":")).
  change (match_rep k2 (none_of ":") 1 true 0 [] (gccLine file ln col kind msg)
          = Some ([file; lit ":"; ln; lit ":"; col; lit ":"; lit " "; kind; lit ":";
                   lit " "; msg], [])).
  assert (H11 : k11 msg = Some ([msg], [])).
  { unfold k11. rewrite <- (app_nil_r msg) at 1.
    rewrite match_rep_greedy_run;
      [done|done|done|pose proof (length_pos_nonempty _ Hmsg); lia|done]. }
  assert (H10 : k10 (lit " " ++ msg) = Some ([lit " "; msg], [])).
  { unfold k10.
    rewrite match_rep_greedy_run; [by rewrite H11|done| |lia|by rewrite H11].
    by destruct msg. }
  assert (H9 : k9 (lit ": " ++ msg) = Some ([lit ":"; lit " "; msg], [])).
  { unfold k9. change (lit ": " ++ msg) with (":"%char :: lit " " ++ msg).
    step_colon. by rewrite H10. }
  assert (H8 : k8 (kind ++ lit ": " ++ msg) = Some ([kind; lit ":"; lit " "; msg], [])).
  { unfold k8. destruct Hkind as [->| ->].
    - cbn [match_alt]. rewrite startsWith_app, drop_app_length. by rewrite H9.
    - cbn [match_alt].
      change (startsWith (lit "warning" ++ lit ": " ++ msg) (lit "error")) with false.
      cbn [orelse]. rewrite startsWith_app, drop_app_length. by rewrite H9. }
  assert (H7 : k7 (lit " " ++ kind ++ lit ": " ++ msg)
               = Some ([lit " "; kind; lit ":"; lit " "; msg], [])).
  { unfold k7.
    rewrite match_rep_greedy_run; [by rewrite H8|done| |lia|by rewrite H8].
    by destruct Hkind as [->| ->]. }
  assert (H6 : k6 (lit ": " ++ kind ++ lit ": " ++ msg)
               = Some ([lit ":"; lit " "; kind; lit ":"; lit " "; msg], [])).
  { unfold k6.
    change (lit ": " ++ kind ++ lit ": " ++ msg)
      with (":"%char :: lit " " ++ kind ++ lit ": " ++ msg).
    step_colon. by rewrite H7. }
  assert (H5 : k5 (col ++ lit ": " ++ kind ++ lit ": " ++ msg)
               = Some ([col; lit ":"; lit " "; kind; lit ":"; lit " "; msg], [])).
  { unfold k5.
    rewrite match_rep_greedy_run;
      [by rewrite H6|done|done|pose proof (length_pos_nonempty _ Hc); lia
      |by rewrite H6]. }
  assert (H4 : k4 (lit ":" ++ col ++ lit ": " ++ kind ++ lit ": " ++ msg)
               = Some ([lit ":"; col; lit ":"; lit " "; kind; lit ":"; lit " "; msg],
                       [])).
  { unfold k4.
    change (lit ":" ++ col ++ lit ": " ++ kind ++ lit ": " ++ msg)
      with (":"%char :: col ++ lit ": " ++ kind ++ lit ": " ++ msg).
    step_colon. by rewrite H5. }
  assert (H3 : k3 (ln ++ lit ":" ++ col ++ lit ": " ++ kind ++ lit ": " ++ msg)
               = Some ([ln; lit ":"; col; lit ":"; lit " "; kind; lit ":"; lit " ";
                        msg], [])).
  { unfold k3.
    rewrite match_rep_greedy_run;
      [by rewrite H4|done|done|pose proof (length_pos_nonempty _ Hl); lia
      |by rewrite H4]. }
  assert (H2 : k2 (lit ":" ++ ln ++ lit ":" ++ col ++ lit ": " ++ kind ++ lit ": "
                   ++ msg)
               = Some ([lit ":"; ln; lit ":"; col; lit ":"; lit " "; kind; lit ":";
                        lit " "; msg], [])).
  { unfold k2.
    change (lit ":" ++ ln ++ lit ":" ++ col ++ lit ": " ++ kind ++ lit ": " ++ msg)
      with (":"%char :: ln ++ lit ":" ++ col ++ lit ": " ++ kind ++ lit ": " ++ msg).
    step_colon. by rewrite H3. }
  unfold gccLine.
  rewrite match_rep_greedy_run;
    [by rewrite H2|done|done|pose proof (length_pos_nonempty _ Hf); lia
    |by rewrite H2].
Qed.

Lemma errorRegex_scan (file ln col kind msg : str) :
  gccFields file ln col kind msg ->
  rx_scan errorRegex (gccLine file ln col kind msg) 0
  = [[file; lit ":"; ln; lit ":"; col; lit ":"; lit " "; kind; lit ":";
      lit " "; msg]].
Proof.
  intros Hfields.
  pose proof (errorRegex_match file ln col kind msg Hfields) as Hm.
  assert (Hcat : concat [file; lit ":"; ln; lit ":"; col; lit ":"; lit " "; kind;
                         lit ":"; lit " "; msg] = gccLine file ln col kind msg).
  { unfold gccLine. cbn [concat]. rewrite app_nil_r.
    change (lit ": ") with (lit ":" ++ lit " "). by rewrite <- !app_assoc. }
  destruct (gccLine file ln col kind msg) as [|x s'] eqn:Hline.
  { destruct Hfields as (Hf & _). unfold gccLine in Hline. by destruct file. }
  cbn [rx_scan]. rewrite Hm, Hcat. cbn [length pred]. f_equal.
  rewrite <- (app_nil_r s') at 1. rewrite rx_scan_skip. done.
Qed.

(** X21: a diagnostic in the format of gcc is read back field by
    field.  From [file:line:column: error: message] the parser makes
    one error of type compilation with the base name of the file, the
    line, the column and the message, and nothing else; from a warning
    it makes one warning, provided the instance holds an error already
    or the text [error:] does not occur in the diagnostic. *)
Theorem parseCompilerErrors_line disk files t (file ln col kind msg : str) :
  gccFields file ln col kind msg ->
  (kind = lit "error" ->
   parseCompilerErrors disk (gccLine file ln col kind msg) files t
   = pushError (gccIssue disk files file ln col kind msg) t) /\
  (kind = lit "warning" ->
   errors t <> [] \/ includes (gccLine file ln col kind msg) (lit "error:") = false ->
   parseCompilerErrors disk (gccLine file ln col kind msg) files t
   = pushWarning (gccIssue disk files file ln col kind msg) t).
Proof.
  intros Hfields. unfold parseCompilerErrors.
  rewrite (errorRegex_scan _ _ _ _ _ Hfields). cbn [fold_left compilerIssue].
  fold (gccIssue disk files file ln col kind msg). split.
  - intros ->. rewrite (bool_decide_eq_true_2 (lit "error" = lit "error")) by done.
    cbn [pushIssue].
    rewrite (bool_decide_eq_false_2 (errors _ = [])); [done|].
    cbn [pushError errors]. by destruct (errors t).
  - intros -> Hclean. rewrite (bool_decide_eq_false_2 (lit "warning" = _)) by done.
    cbn [pushIssue]. destruct Hclean as [Hne| ->].
    + by rewrite (bool_decide_eq_false_2 (errors _ = [])).
    + by rewrite andb_false_r.
Qed.

(** The diagnostic of scenario B, and a warning. *)
Lemma parseCompilerErrors_line_witness :
  parseCompilerErrors diskUndeclared
    (lit "proj/a.c:2:10: error: 'y' undeclared (first use in this function)")
    [lit "proj/a.c"] fresh
  = pushError (mkIssue (lit "a.c") 2 10
                       (lit "'y' undeclared (first use in this function)")
                       (lit "compilation") (Some (lit "  return y;")) (lit "error"))
              fresh /\
  parseCompilerErrors diskUndeclared
    (lit "proj/a.c:1:5: warning: unused parameter") [lit "proj/a.c"] fresh
  = pushWarning (mkIssue (lit "a.c") 1 5 (lit "unused parameter")
                         (lit "compilation") (Some (lit "int f(void) {"))
                         (lit "warning"))
                fresh.
Proof.
  split.
  - destruct (parseCompilerErrors_line diskUndeclared [lit "proj/a.c"] fresh
                (lit "proj/a.c") (lit "2") (lit "10") (lit "error")
                (lit "'y' undeclared (first use in this function)")) as [Herr _].
    { do 6 (split; [by vm_compute|]). split; [by left|]. by vm_compute. }
    etransitivity; [exact (Herr eq_refl)|]. by vm_compute.
  - destruct (parseCompilerErrors_line diskUndeclared [lit "proj/a.c"] fresh
                (lit "proj/a.c") (lit "1") (lit "5") (lit "warning")
                (lit "unused parameter")) as [_ Hwarn].
    { do 6 (split; [by vm_compute|]). split; [by right|]. by vm_compute. }
    assert (Hclean : includes (gccLine (lit "proj/a.c") (lit "1") (lit "5")
                                       (lit "warning") (lit "unused parameter"))
                              (lit "error:") = false) by (by vm_compute).
    etransitivity; [exact (Hwarn eq_refl (or_intror Hclean))|].
    by vm_compute.
Defined.

(** ** An include directive *)

Lemma includeRegex_match (op cl : ascii) (name : str) :
  op = "<"%char \/ op = DQ -> cl = ">"%char \/ cl = DQ ->
  name <> [] -> Forall (fun c => c <> ">"%char /\ c <> DQ) name ->
  rx_match includeRegex (includeDirective op cl name)
  = Some ([lit "#include"; lit " "; [op]; name; [cl]], []).
Proof.
  intros Hop Hcl Hne Hname.
  pose (isOpen := fun x => char_is "<" x || char_is DQ x).
  pose (isClose := fun x => char_is ">" x || char_is DQ x).
  pose (k5 := match_char (fun s : str => Some (@nil str, s)) isClose).
  pose (k4 := match_rep k5 (fun x => negb (isClose x)) 1 true 0 []).
  pose (k3 := match_char k4 isOpen).
  pose (k2 := match_rep k3 is_space 0 true 0 []).
  change (match_alt k2 [lit "#include"]
                    (lit "#include" ++ lit " " ++ op :: name ++ [cl])
          = Some ([lit "#include"; lit " "; [op]; name; [cl]], [])).
  assert (Hclose : isClose cl = true).
  { unfold isClose. by destruct Hcl as [->| ->]. }
  assert (Hopen : isOpen op = true).
  { unfold isOpen. by destruct Hop as [->| ->]. }
  assert (Hclass : forallb (fun x => negb (isClose x)) name = true).
  { apply forallb_forall. intros c Hc%list_elem_of_In.
    rewrite Forall_forall in Hname. destruct (Hname c Hc) as [H1 H2].
    unfold isClose, char_is. apply negb_true_iff, orb_false_iff.
    split; by apply Ascii.eqb_neq. }
  assert (H5 : k5 [cl] = Some ([[cl]], [])).
  { unfold k5. cbn [match_char]. by rewrite Hclose. }
  assert (H4 : k4 (name ++ [cl]) = Some ([name; [cl]], [])).
  { unfold k4. rewrite match_rep_greedy_run;
      [by rewrite H5|done| |pose proof (length_pos_nonempty _ Hne); lia
      |by rewrite H5].
    by rewrite Hclose. }
  assert (H3 : k3 (op :: name ++ [cl]) = Some ([[op]; name; [cl]], [])).
  { unfold k3. cbn [match_char]. by rewrite Hopen, H4. }
  assert (H2 : k2 (lit " " ++ op :: name ++ [cl])
               = Some ([lit " "; [op]; name; [cl]], [])).
  { unfold k2. rewrite match_rep_greedy_run; [by rewrite H3|done| |lia|by rewrite H3].
    by destruct Hop as [->| ->]. }
  rewrite match_lit_app. by rewrite H2.
Qed.

(** X22: an include directive is read as the name between its
    delimiters, whichever of the angle brackets and the double quote
    opens and closes it, and is removed from the text as a whole; the
    directive written for the name, with angle brackets, is read as
    itself. *)
Theorem includesOf_directive (op cl : ascii) (name : str) :
  op = "<"%char \/ op = DQ -> cl = ">"%char \/ cl = DQ ->
  name <> [] -> Forall (fun c => c <> ">"%char /\ c <> DQ) name ->
  includesOf (includeDirective op cl name) = [angleInclude name] /\
  rx_remove_all includeRegex (includeDirective op cl name) 0 = [] /\
  includesOf (angleInclude name) = [angleInclude name].
Proof.
  intros Hop Hcl Hne Hname.
  assert (Hgen : forall op cl, op = "<"%char \/ op = DQ -> cl = ">"%char \/ cl = DQ ->
            includesOf (includeDirective op cl name) = [angleInclude name] /\
            rx_remove_all includeRegex (includeDirective op cl name) 0 = []).
  { clear op cl Hop Hcl. intros op cl Hop Hcl.
    pose proof (includeRegex_match op cl name Hop Hcl Hne Hname) as Hm.
    assert (Hcat : concat [lit "#include"; lit " "; [op]; name; [cl]]
                   = includeDirective op cl name).
    { unfold includeDirective. cbn [concat]. rewrite app_nil_r.
      change (lit "#include ") with (lit "#include" ++ lit " ").
      by rewrite <- !app_assoc. }
    set (body := lit "include " ++ op :: name ++ [cl]).
    change (includeDirective op cl name) with ("#"%char :: body) in *.
    split.
    - unfold includesOf, includeTargets. cbn [rx_scan]. rewrite Hm, Hcat.
      cbn [length pred]. rewrite <- (app_nil_r body) at 1. rewrite rx_scan_skip.
      done.
    - cbn [rx_remove_all]. rewrite Hm, Hcat. cbn [length].
      destruct (length body) as [|n] eqn:Hlen.
      + by destruct body.
      + assert (Hbody : body = take 1 body ++ drop 1 body) by (by rewrite take_drop).
        destruct body as [|b body']; [done|]. cbn [rx_remove_all].
        injection Hlen as <-.
        rewrite <- (app_nil_r body') at 1. by rewrite rx_remove_all_skip. }
  destruct (Hgen op cl Hop Hcl) as [H1 H2]. split; [done|]. split; [done|].
  by destruct (Hgen "<"%char ">"%char (or_introl eq_refl) (or_introl eq_refl)).
Qed.

(** A quoted include of a local header. *)
Lemma includesOf_directive_witness :
  includesOf (includeDirective DQ DQ (lit "uart.h")) = [angleInclude (lit "uart.h")].
Proof.
  assert (Hname : Forall (fun c => c <> ">"%char /\ c <> DQ) (lit "uart.h")).
  { replace (lit "uart.h") with ["u"; "a"; "r"; "t"; "."; "h"]%char by (by vm_compute).
    repeat constructor; by vm_compute. }
  assert (Hne : lit "uart.h" <> []) by (by vm_compute).
  exact (proj1 (includesOf_directive DQ DQ (lit "uart.h") (or_intror eq_refl)
                  (or_intror eq_refl) Hne Hname)).
Defined.

(** ** The run of the command-line tool *)

Lemma analyzeCode_frame spawnSync readdirSync t disk codeDir files r t' disk' p :
  analyzeCode spawnSync readdirSync t disk codeDir files = Some (r, t', disk') ->
  p <> testFileOf codeDir -> p <> objFileOf codeDir ->
  disk' !! p = disk !! p.
Proof.
  intros Hrun Htest Hobj.
  destruct (analyzeCode_passes _ _ _ _ _ _ _ _ _ Hrun)
    as (fl & ce & cw & se & sw & Hfl & _).
  rewrite (analyzeCode_lookup _ _ _ _ _ _ _ _ _ _ p Hfl Hrun).
  rewrite (bool_decide_eq_false_2 (p = _ \/ p = _)) by (by intros [?|?]).
  by rewrite andb_false_r.
Qed.

Lemma analyzeCode_no_fixes spawnSync readdirSync t disk codeDir files r t' disk' :
  analyzeCode spawnSync readdirSync t disk codeDir files = Some (r, t', disk') ->
  result_fixes r = [].
Proof.
  intros Hrun. by destruct (analyzeCode_passes _ _ _ _ _ _ _ _ _ Hrun)
    as (fl & ce & cw & se & sw & _ & _ & _ & Hnofix & _).
Qed.

(** X23: the exit status of the command-line tool is decided by its
    first analysis alone: 0 when that analysis returns no error, 1 when
    it returns one or fails.  The Fixes, their application and the
    second analysis do not change it, so a run that repairs every error
    still ends with status 1; and a run that ends with status 0 has
    requested and applied no Fix: its disk is the one the analysis
    left. *)
Theorem cliMain_exit_status spawnSync readdirSync axios post options codeDir disk :
  (cliMain spawnSync readdirSync axios post options codeDir disk).1
  = match analyzeCode spawnSync readdirSync (mkInstance options [] [] [])
                      disk codeDir None with
    | Some (r, _, _) => exitStatus r
    | None => 1
    end /\
  (forall r t1 disk1,
     analyzeCode spawnSync readdirSync (mkInstance options [] [] [])
                 disk codeDir None = Some (r, t1, disk1) ->
     result_errors r = [] ->
     (cliMain spawnSync readdirSync axios post options codeDir disk).2 = disk1).
Proof.
  unfold cliMain. cbv zeta.
  destruct (analyzeCode spawnSync readdirSync (mkInstance options [] [] [])
                        disk codeDir None) as [[[r t1] disk1]|] eqn:Hrun;
    [|split; [done|by intros]].
  pose proof (analyzeCode_no_fixes _ _ _ _ _ _ _ _ _ Hrun) as Hnofix.
  unfold exitStatus.
  destruct (bool_decide_reflect (result_errors r = [])) as [Hnil|Hne].
  - cbn [negb]. rewrite andb_false_r. rewrite Hnofix.
    rewrite (bool_decide_eq_true_2 (@nil Fix = [])) by done.
    cbn [negb]. rewrite andb_false_r. cbn [fst snd].
    split; [done|]. by intros r' t' d' [= <- <- <-] _.
  - split; [|by intros r' t' d' [= <- <- <-] Hnil].
    cbn [negb]. rewrite andb_true_r.
    destruct (useAI options).
    + destruct (readdirSync disk1 codeDir) as [listing|]; [|done].
      destruct (getAIFixes _ _ _ _ _ _) as [[fx t2] calls].
      destruct (autoFix options && _); [|done].
      destruct (applyFixes codeDir (fixes t2) disk1) as [applied disk2].
      destruct applied; [done|].
      by destruct (analyzeCode spawnSync readdirSync t2 disk2 codeDir None)
        as [[[r' t'] d']|].
    + rewrite Hnofix. rewrite (bool_decide_eq_true_2 (@nil Fix = [])) by done.
      cbn [negb]. by rewrite andb_false_r.
Qed.

(** A project whose only error the service repairs: the line is
    patched and the status is 1. *)
Example cliMain_repaired_status :
  match cliMain quietTools listingA true alwaysAnswer
                (cliOptions [lit "proj"; lit "--fix"]) proj diskReturn with
  | (status, disk') =>
      bool_decide
        (status = 1 /\
         disk' !! lit "proj/a.c"
         = Some (lit "int f(void) {" ++ [NL] ++ lit "int y = 0;" ++ [NL] ++ lit "}"))
  end = true.
Proof. by vm_compute. Qed.

(** X24: what the command-line tool does to the files.  Apart from the
    two temporary names of the compilation check it creates no file and
    removes none, whatever the options; and without [--fix] every such
    file keeps its content. *)
Theorem cliMain_frame spawnSync readdirSync axios post options codeDir disk p :
  p <> testFileOf codeDir -> p <> objFileOf codeDir ->
  (is_Some ((cliMain spawnSync readdirSync axios post options codeDir disk).2 !! p)
   <-> is_Some (disk !! p)) /\
  (autoFix options = false ->
   (cliMain spawnSync readdirSync axios post options codeDir disk).2 !! p
   = disk !! p).
Proof.
  intros Htest Hobj. unfold cliMain. cbv zeta.
  destruct (analyzeCode spawnSync readdirSync (mkInstance options [] [] [])
                        disk codeDir None) as [[[r t1] disk1]|] eqn:Hrun; [|done].
  pose proof (analyzeCode_frame _ _ _ _ _ _ _ _ _ p Hrun Htest Hobj) as H1.
  assert (Hpatch : forall fixes_ t2,
    let out :=
      if autoFix options && negb (bool_decide (fixes_ = [])) then
        let '(applied, disk0) := applyFixes codeDir fixes_ disk1 in
        match applied with
        | [] => (exitStatus r, disk0)
        | _ :: _ =>
            match analyzeCode spawnSync readdirSync t2 disk0 codeDir None with
            | None => (1, disk0)
            | Some (_, _, disk2) => (exitStatus r, disk2)
            end
        end
      else (exitStatus r, disk1) in
    (is_Some (out.2 !! p) <-> is_Some (disk !! p)) /\
    (autoFix options = false -> out.2 !! p = disk !! p)).
  { intros fixes_ t2. cbv zeta.
    destruct (autoFix options); cbn [andb]; [|cbn [snd]; by rewrite H1].
    destruct (negb (bool_decide (fixes_ = []))); [|cbn [snd]; by rewrite H1].
    pose proof (applyFixes_lookup disk1 codeDir fixes_ p) as Happ.
    destruct (applyFixes codeDir fixes_ disk1) as [applied disk2].
    cbn [snd] in Happ.
    assert (H2 : is_Some (disk2 !! p) <-> is_Some (disk !! p)).
    { by rewrite Happ, fmap_is_Some, H1. }
    destruct applied as [|a applied]; [cbn [snd]; by split|].
    destruct (analyzeCode spawnSync readdirSync t2 disk2 codeDir None)
      as [[[r' t'] disk3]|] eqn:Hrun2; [|cbn [snd]; by split].
    pose proof (analyzeCode_frame _ _ _ _ _ _ _ _ _ p Hrun2 Htest Hobj) as H3.
    cbn [snd]. rewrite H3. by split. }
  destruct (useAI options && negb (bool_decide (result_errors r = []))).
  - destruct (readdirSync disk1 codeDir) as [listing|]; [|cbn [snd]; by rewrite H1].
    destruct (getAIFixes _ _ _ _ _ _) as [[fx t2] calls].
    apply Hpatch.
  - apply Hpatch.
Qed.

(** The run that repairs the missing semicolon leaves the notes of the
    project alone, and no file has appeared under another name. *)
Lemma cliMain_frame_witness :
  is_Some ((cliMain quietTools listingA true alwaysAnswer
                    (cliOptions [lit "proj"; lit "--fix"]) proj diskReturn).2
           !! lit "proj/notes.txt")
  <-> is_Some (diskReturn !! lit "proj/notes.txt").
Proof.
  apply (cliMain_frame quietTools listingA true alwaysAnswer
           (cliOptions [lit "proj"; lit "--fix"]) proj diskReturn
           (lit "proj/notes.txt")); by vm_compute.
Defined.
